(** * Fiducial selection (pygsti/algorithms/fiducialselection.py)

    A shallow embedding of the fiducial-selection module of pyGSTi and the
    properties its specification states about it.

    Conventions of the embedding.
    - Python floats are IEEE binary64 numbers: Rocq's primitive [float], with
      its comparisons ([<?], [<=?], [=?] are false on NaN) and arithmetic.
    - A numpy 2-d array is a list of rows; a 1-d array is a list.
    - A weight vector (an array of 0/1 integers, or of 0.0/1.0 floats in the
      fixed-size search) is a [list bool]; [true] is 1.  Every weight vector
      the module builds has entries in {0,1}: [initialWeights] is coerced
      (`1 if x else 0`), the default is all ones, a neighbour toggles one
      entry between 0 and 1 and the rows of [build_bitvec_mx] are 0/1.
    - Exceptions are values of [exn]; a computation that may raise returns
      a [res].  The optimizer runs in a state monad over its score
      dictionary and the sequence of events it emits. *)

From Stdlib Require Import ZArith List Bool Lia Floats Uint63 String.
From stdpp Require Import base option list gmap strings sorting.

Set Warnings "-inexact-float".
Local Open Scope Z_scope.
Local Open Scope list_scope.

(** ** Exceptions and results *)

Inductive exn : Type :=
| ValueError (msg : string)
| PyException (msg : string)
| IndexError
| KeyError
| AssertionError
| RecursionError
| UnboundLocalError
| TypeError.

Inductive res (A : Type) : Type :=
| Ok (a : A)
| Raise (e : exn).
Arguments Ok {A} a.
Arguments Raise {A} e.

Definition rbind {A B} (r : res A) (k : A -> res B) : res B :=
  match r with
  | Ok a => k a
  | Raise e => Raise e
  end.

Notation "'try' x <- r ; k" := (rbind r (fun x => k))
  (at level 60, x pattern, r at next level, right associativity).

Definition is_ok {A} (r : res A) : bool :=
  match r with Ok _ => true | Raise _ => false end.

(** [for x in xs: acc = body(acc, x)] where the body may raise. *)
Fixpoint rfold {A B} (body : A -> B -> res A) (xs : list B) (acc : A) : res A :=
  match xs with
  | [] => Ok acc
  | x :: xs' => try acc' <- body acc x; rfold body xs' acc'
  end.

Fixpoint rmap {A B} (f : A -> res B) (xs : list A) : res (list B) :=
  match xs with
  | [] => Ok []
  | x :: xs' => try y <- f x; try ys <- rmap f xs'; Ok (y :: ys)
  end.

(** ** Floats *)

Definition float_of_nat (n : nat) : float := of_uint63 (Uint63.of_Z (Z.of_nat n)).

(** [numpy.isinf] *)
Definition isinf (x : float) : bool := is_infinity x.

(** The sentinel the scorer substitutes for a non-positive or infinite score. *)
Definition reject_score : float := 1e10%float.

(** The tie tolerance of the fixed-size search, the literal [1e-8]. *)
Definition tie_tol : float := 1e-8%float.

(** Python's truth value of a float: [x != 0.0] (so NaN is true). *)
Definition float_truthy (x : float) : bool := negb (x =? 0)%float.

(** ** Vectors and matrices (the numpy collaborator) *)

Definition vec := list float.
Definition matrix := list (list float).

(** [numpy.dot] on two 1-d arrays, accumulated left to right. *)
Definition dotv (u v : vec) : float :=
  fold_left (fun acc p => (acc + fst p * snd p)%float) (combine u v) 0%float.

(** [numpy.dot(M, v)] for a 2-d [M] and a column [v], read back as a 1-d array. *)
Definition matvec (m : matrix) (v : vec) : vec := map (fun row => dotv row v) m.

Definition column (m : matrix) (j : nat) : vec := map (fun row => nth j row 0%float) m.

(** [numpy.dot(v.T, M)[0]] for a column [v] and a [d] x [d] matrix. *)
Definition vecmat (d : nat) (v : vec) (m : matrix) : vec :=
  map (fun j => dotv v (column m j)) (seq 0 d).

(** [numpy.dot(M, M.T)] *)
Definition gram (m : matrix) : matrix := map (fun r => map (fun r' => dotv r r') m) m.

(** The [d] x [length cols] array whose column [j] is [cols[j]]: what
    [numpy.zeros([d, numFid])] holds after [outputMat[:,j] = cols[j]] for
    every [j]. *)
Definition mx_of_columns (d : nat) (cols : list vec) : matrix :=
  map (fun r => map (fun c => nth r c 0%float) cols) (seq 0 d).

(** The [d]-row array made of the given blocks side by side: what
    [numpy.zeros([d, k * numMxs])] holds after the blocks are assigned to
    consecutive column ranges of width [k]. *)
Definition hconcat (d : nat) (blocks : list matrix) : matrix :=
  map (fun r => concat (map (fun b => nth r b []) blocks)) (seq 0 d).

(** The symmetric eigenvalue solver, [numpy.linalg.eigvalsh]: an external
    collaborator, kept abstract. *)
Class LinAlg := { eigvalsh : matrix -> list float }.

(** ** The gate set model *)

Definition gatestring := list string.

Record GateSet := {
  get_dimension : nat;
  preps : list vec;                 (* list(gs.preps.values()) *)
  effects : list vec;               (* list(gs.effects.values()) *)
  gates : list string;              (* the labels of gs.gates, in order *)
  product : gatestring -> matrix    (* gs.product *)
}.

(** ** make_prep_mxs, make_meas_mxs *)

Definition make_prep_mxs (gs : GateSet) (prepFidList : list gatestring) : list matrix :=
  let dimRho := get_dimension gs in
  map (fun rho =>
         mx_of_columns dimRho
           (map (fun prepFid => matvec (product gs prepFid) rho) prepFidList))
      (preps gs).

Definition make_meas_mxs (gs : GateSet) (prepMeasList : list gatestring) : list matrix :=
  let dimE := get_dimension gs in
  map (fun E =>
         mx_of_columns dimE
           (map (fun measFid => vecmat dimE E (product gs measFid)) prepMeasList))
      (effects gs).

(** ** scoring.list_score *)

Inductive score_func := score_all | score_worst.

(** Python's [min] over a sequence: the first element unless a later one
    compares smaller. *)
Definition fmin (a b : float) : float := if (b <? a)%float then b else a.

(** Modelled from the spec: [pygsti.algorithms.scoring.list_score] is not in
    the sources at hand.  The specification gives it as: [all] is the sum of
    the reciprocals of all eigenvalues (an eigenvalue of 0 contributes
    +infinity), [worst] is the reciprocal of the smallest eigenvalue. *)
Definition list_score (input_array : list float) (scoreFunc : score_func) : float :=
  match scoreFunc with
  | score_all => fold_left (fun acc x => (acc + 1 / x)%float) input_array 0%float
  | score_worst =>
      match input_array with
      | [] => nan
      | x :: rest => (1 / fold_left fmin rest x)%float
      end
  end.

(** ** test_fiducial_list *)

Section Scoring.
Context `{LinAlg}.

(** [prepOrMeas == mode], for a [prepOrMeas] that is [None] or a string. *)
Definition mode_is (prepOrMeas : option string) (mode : string) : bool :=
  match prepOrMeas with
  | Some s => String.eqb s mode
  | None => false
  end.

(** The [if prepOrMeas == 'prep': ... elif prepOrMeas == 'meas': ... else:
    raise ...] that both functions open with. *)
Definition fid_arrays (gs : GateSet) (fidList : list gatestring)
    (prepOrMeas : option string) (bad_mode : exn) : res (list matrix) :=
  if mode_is prepOrMeas "prep" then Ok (make_prep_mxs gs fidList)
  else if mode_is prepOrMeas "meas" then Ok (make_meas_mxs gs fidList)
  else Raise bad_mode.

Definition invalid_mode : exn := ValueError "Invalid value for prepOrMeas (must be prep or meas)!".

(** The verdict of the final [if] of [test_fiducial_list]. *)
Definition test_verdict (score threshold : float) : bool :=
  if ((score <=? 0)%float || isinf score) || (threshold <? score)%float
  then false else true.

(** [test_fiducial_list(gateset, fidList, prepOrMeas, scoreFunc,
    returnAll=True, threshold)]: the triple (testResult, spectrum, score). *)
Definition test_fiducial_list (gs : GateSet) (fidList : list gatestring)
    (prepOrMeas : option string) (scoreFunc : score_func) (threshold : float)
    : res (bool * list float * float) :=
  let dimRho := get_dimension gs in
  try fidArrayList <- fid_arrays gs fidList prepOrMeas invalid_mode;
  let numFids := length fidList in
  let scoreMx := hconcat dimRho fidArrayList in
  let scoreSqMx := gram scoreMx in
  let spectrum := eigvalsh scoreSqMx in
  let score := (float_of_nat numFids * list_score (map abs spectrum) scoreFunc)%float in
  Ok (test_verdict score threshold, spectrum, score).

End Scoring.

(** ** build_bitvec_mx *)

(** [range(lo, hi)] *)
Definition range (lo hi : Z) : list Z :=
  map (fun j => lo + Z.of_nat j) (seq 0 (Z.to_nat (hi - lo))).

Fixpoint choose (n k : nat) : nat :=
  match k, n with
  | O, _ => 1
  | S _, O => 0
  | S k', S n' => choose n' k' + choose n' k
  end.

(** Modelled from the spec: the binomial-coefficient collaborator
    ([scipy.special.binom], read through [int(...)]) on integer arguments:
    C(n,k) for 0 <= k <= n and 0 elsewhere. *)
Definition binom (n k : Z) : Z :=
  if (0 <=? k) && (k <=? n) then Z.of_nat (choose (Z.to_nat n) (Z.to_nat k)) else 0.

Definition bitmx := list (list bool).

(** A numpy index into an axis of length [len]: negative indices count from
    the end, anything outside [-len, len) is an IndexError. *)
Definition np_index (len : nat) (i : Z) : res nat :=
  if (0 <=? i) && (i <? Z.of_nat len) then Ok (Z.to_nat i)
  else if (- Z.of_nat len <=? i) && (i <? 0) then Ok (Z.to_nat (Z.of_nat len + i))
  else Raise IndexError.

(** [bitVecMx[counter][[locs]] = 1] *)
Definition set_row_bits (mx : bitmx) (counter : nat) (locs : list Z) : res bitmx :=
  match mx !! counter with
  | None => Raise IndexError
  | Some row =>
      try idx <- rmap (np_index (length row)) locs;
      Ok (<[counter := fold_left (fun r j => <[j := true]> r) idx row]> mx)
  end.

(** The nested [build_mx].  [bitVecMx] is the enclosing function's array,
    written in place, and travels with [counter]; [fuel] is the number of
    nested calls the interpreter still allows before it raises
    RecursionError. *)
Fixpoint build_mx (fuel : nat) (k diff : Z) (previous_bit_locs : list Z) (i : Z)
    (st : bitmx * nat) : res (bitmx * nat) :=
  match fuel with
  | O => Raise RecursionError
  | S fuel' =>
      if i =? 0 then
        try mx' <- set_row_bits (fst st) (snd st) previous_bit_locs;
        Ok (mx', S (snd st))
      else
        let subK := k - i in
        match last previous_bit_locs with
        | None => Raise IndexError
        | Some last_bit_loc =>
            rfold (fun st' bit_loc =>
                     build_mx fuel' k diff (previous_bit_locs ++ [bit_loc]) (i - 1) st')
                  (range (1 + last_bit_loc) (diff + subK + 1)) st
        end
  end.

Definition build_bitvec_mx (reclimit : nat) (n k : Z) : res bitmx :=
  if n <? 0 then Raise (ValueError "negative dimensions are not allowed") else
  let bitVecMx := replicate (Z.to_nat (binom n k)) (replicate (Z.to_nat n) false) in
  let diff := n - k in
  try st <- rfold (fun st bit_loc_0 => build_mx reclimit k diff [bit_loc_0] (k - 1) st)
                  (range 0 (diff + 1)) (bitVecMx, 0%nat);
  Ok (fst st).

(** ** optimize_integer_fiducials_slack *)

(** What the optimizer writes and the work it does, in order.  Formatted
    numbers are kept as data. *)
Inductive event : Type :=
| Printed (line : string)                   (* print(line) *)
| Logged (line : string)                    (* printer.log(line) *)
| Warned (line : string)                    (* printer.warning(line) *)
| TestedList (fids : list gatestring)       (* test_fiducial_list scored fids *)
| BuiltMatrices                             (* make_prep_mxs / make_meas_mxs ran *)
| Scored (wts : list bool)                  (* compute_score decomposed the score matrix of wts *)
| FoundBetter (nFids : nat) (score : float) (* "Found better neighbor: nFids = %d score = %g" *)
| Relaxing (score relaxed : float)          (* "No better neighbor. Relaxing score w/slack: %g => %g" *)
| LoggedScore (score : float)               (* "score = %s" *)
| LoggedWeights (weights : list bool)       (* "weights = %s" *)
| LoggedL1 (nFids : nat).                   (* "L1(weights) = %s" *)

Record ostate := {
  scoreD : gmap (list bool) float;
  events : list event
}.

Definition M (A : Type) : Type := ostate -> res A * ostate.

Definition mret {A} (a : A) : M A := fun s => (Ok a, s).

Definition mbind {A B} (m : M A) (k : A -> M B) : M B :=
  fun s => match m s with
           | (Ok a, s') => k a s'
           | (Raise e, s') => (Raise e, s')
           end.

Notation "'do' x <- m ; k" := (mbind m (fun x => k))
  (at level 60, x pattern, m at next level, right associativity).
Notation "'do_' m ; k" := (mbind m (fun _ => k))
  (at level 60, m at next level, right associativity).

Definition raise {A} (e : exn) : M A := fun s => (Raise e, s).

Definition lift {A} (r : res A) : M A := fun s => (r, s).

Definition emit (e : event) : M unit :=
  fun s => (Ok tt, {| scoreD := scoreD s; events := events s ++ [e] |}).

Definition get_scoreD : M (gmap (list bool) float) := fun s => (Ok (scoreD s), s).

Definition put_scoreD (d : gmap (list bool) float) : M unit :=
  fun s => (Ok tt, {| scoreD := d; events := events s |}).

(** [for x in xs: acc = body(acc, x)] in the optimizer's monad. *)
Fixpoint mfold {A B} (body : A -> B -> M A) (xs : list B) (acc : A) : M A :=
  match xs with
  | [] => mret acc
  | x :: xs' => do acc' <- body acc x; mfold body xs' acc'
  end.

(** The keyword arguments of [optimize_integer_fiducials_slack]. *)
Record options := {
  prepOrMeas : option string;
  initialWeights : option (list bool);
  scoreFunc : score_func;
  maxIter : nat;
  fixedSlack : option float;
  slackFrac : option float;
  returnAll : bool;
  forceEmpty : bool;
  forceEmptyScore : float;
  fixedNum : option Z;
  threshold : float;
  verbosity : nat
}.

(** What the call returns. *)
Inductive result : Type :=
| RNone
| RFids (goodFidList : list gatestring)
| RAll (goodFidList : list gatestring) (weights : list bool)
       (scoreDictionary : gmap (list bool) float).

(** [bool(x)] for an argument that is [None] or a float. *)
Definition truthy (x : option float) : bool :=
  match x with
  | None => false
  | Some v => float_truthy v
  end.

(** [xor], applied to the truth values [bool(x)] of its arguments. *)
Definition xor (args : list bool) : bool :=
  (length (filter (fun b => b = true) args) =? 1)%nat.

(** [sum(wts)], [numpy.sum(wts)], [numpy.count_nonzero(wts)] on a 0/1 vector. *)
Definition popcount (wts : list bool) : nat := length (filter (fun b => b = true) wts).

(** [numpy.where(wts)[0]]; also the indices at which [enumerate(wts)] meets a 1. *)
Fixpoint where_from (off : nat) (wts : list bool) : list nat :=
  match wts with
  | [] => []
  | b :: rest => if b then off :: where_from (S off) rest else where_from (S off) rest
  end.

Definition where_ (wts : list bool) : list nat := where_from 0 wts.

(** [fidArray[:, wtsLoc]] *)
Definition select_columns (wtsLoc : list nat) (fidArray : matrix) : res matrix :=
  rmap (fun row =>
          rmap (fun j => match row !! j with
                         | Some x => Ok x
                         | None => Raise IndexError
                         end) wtsLoc)
       fidArray.

(** [[fidList[index] for index, val in enumerate(weights) if val == 1]] *)
Definition select_fids (fidList : list gatestring) (weights : list bool)
    : res (list gatestring) :=
  rmap (fun index => match fidList !! index with
                     | Some f => Ok f
                     | None => Raise IndexError
                     end)
       (where_ weights).

(** The [i]-th vector [get_neighbors(boolVec)] yields. *)
Definition get_neighbor (boolVec : list bool) (i : nat) : res (list bool) :=
  match boolVec !! i with
  | Some b => Ok (<[i := negb b]> boolVec)
  | None => Raise IndexError
  end.

(** [sum(len(i) for i in fids)] *)
Definition total_length (fids : list gatestring) : nat :=
  fold_left (fun acc f => (acc + length f)%nat) fids 0%nat.

Inductive outcome := Stationary | HitMaxIter.

(** The variables a neighbour scan updates. *)
Record search := {
  weights : list bool;
  score : float;
  L1 : nat;
  bFoundBetterNeighbor : bool
}.

Section Optimizer.
Context `{LinAlg}.

(** [scoreD.keys()] is a list copied at the call under Python 2 and a live
    view of the dictionary under Python 3; the module runs under both. *)
Variable py3 : bool.
(** The interpreter's recursion allowance when [build_bitvec_mx] is called. *)
Variable reclimit : nat.

Variable gs : GateSet.
Variable fidList : list gatestring.
Variable o : options.

Section WithArrays.
Variable fidArrayList : list matrix.

(** The product [numFids * list_score(eigvalsh(scoreSqMx), scoreFunc)] of
    [compute_score]. *)
Definition raw_score (wts : list bool) : res float :=
  let dimRho := get_dimension gs in
  let numFids := popcount wts in
  let wtsLoc := where_ wts in
  try blocks <- rmap (select_columns wtsLoc) fidArrayList;
  let scoreMx := hconcat dimRho blocks in
  let scoreSqMx := gram scoreMx in
  Ok (float_of_nat numFids * list_score (eigvalsh scoreSqMx) (scoreFunc o))%float.

(** Whether [compute_score] takes the forced score. *)
Definition forced_out (wts : list bool) : bool :=
  forceEmpty o && negb (popcount (take 1 wts) =? 1)%nat.

(** The value [compute_score(wts)] returns. *)
Definition score_of (wts : list bool) : res float :=
  if forced_out wts then Ok (forceEmptyScore o)
  else
    try score <- raw_score wts;
    Ok (if (score <=? 0)%float || isinf score then reject_score else score).

(** [compute_score(wts, cache_score)] *)
Definition compute_score (wts : list bool) (cache_score : bool) : M float :=
  do score <- (if forced_out wts then mret (forceEmptyScore o)
               else
                 do score <- lift (raw_score wts);
                 do_ emit (Scored wts);
                 mret (if (score <=? 0)%float || isinf score then reject_score else score));
  do_ (if cache_score
       then do d <- get_scoreD; put_scoreD (<[wts := score]> d)
       else mret tt);
  mret score.

(** [scoreD[key]] *)
Definition lookup_score (key : list bool) : M float :=
  do d <- get_scoreD;
  match d !! key with
  | Some v => mret v
  | None => raise KeyError
  end.

(** *** The fixed-size search *)

(** One turn of [for weights in bitVecMat]. *)
Definition fixed_num_step (best : float * list bool) (weights : list bool)
    : M (float * list bool) :=
  let '(best_score, best_weights) := best in
  do temp_score <- compute_score weights true;
  if (abs (temp_score - best_score) <? tie_tol)%float then
    do bestFidList <- lift (select_fids fidList best_weights);
    do tempFidList <- lift (select_fids fidList weights);
    let tempLen := total_length tempFidList in
    let bestLen := total_length bestFidList in
    if (tempLen <? bestLen)%nat then
      do_ emit (Logged "Switching!");
      mret (temp_score, weights)
    else mret (best_score, best_weights)
  else if (temp_score <? best_score)%float then mret (temp_score, weights)
  else mret (best_score, best_weights).

Definition fixed_num_search (fixedNum : Z) : M result :=
  let hammingWeight := if forceEmpty o then fixedNum - 1 else fixedNum in
  let numBits := if forceEmpty o then Z.of_nat (length fidList) - 1
                 else Z.of_nat (length fidList) in
  let numFidLists := binom numBits hammingWeight in
  do_ emit (Logged "Output set is required to be of size");
  do_ emit (Logged "Total number of fiducial sets to be checked is");
  do_ emit (Warned "If this is very large, you may wish to abort.");
  do bitVecMat <- lift (build_bitvec_mx reclimit numBits hammingWeight);
  let bitVecMat := if forceEmpty o then map (cons true) bitVecMat else bitVecMat in
  do best <- mfold fixed_num_step bitVecMat (infinity, []);
  let weights := snd best in
  do goodFidList <- lift (select_fids fidList weights);
  if returnAll o then
    do d <- get_scoreD; mret (RAll goodFidList weights d)
  else mret (RFids goodFidList).

(** *** The local search *)

(** The score of a neighbour in the first scan: computed when its key is
    not among [scoreD_keys], read from the dictionary otherwise. *)
Definition neighbor_score (scoreD_keys : gset (list bool)) (neighbor : list bool)
    : M float :=
  do d <- get_scoreD;
  let known := if py3 then bool_decide (neighbor ∈ dom d)
               else bool_decide (neighbor ∈ scoreD_keys) in
  if known then lookup_score neighbor else compute_score neighbor true.

(** One turn of the first [for neighbor in get_neighbors(weights)]; [w0] is
    the vector the generator was created on. *)
Definition scan_step (scoreD_keys : gset (list bool)) (lessWeightOnly : bool)
    (w0 : list bool) (st : search) (i : nat) : M search :=
  do neighbor <- lift (get_neighbor w0 i);
  let neighborL1 := popcount neighbor in
  do neighborScore <- neighbor_score scoreD_keys neighbor;
  if (neighborScore <=? score st)%float
     && ((neighborL1 <? L1 st)%nat || negb lessWeightOnly) then
    do_ emit (FoundBetter neighborL1 neighborScore);
    mret {| weights := neighbor; score := neighborScore; L1 := neighborL1;
            bFoundBetterNeighbor := true |}
  else mret st.

(** The value of [slack] once the two-way [if] has run. *)
Definition slack_of (score : float) : res float :=
  if truthy (fixedSlack o) then
    match fixedSlack o with
    | Some f => Ok (score + f)%float
    | None => Raise UnboundLocalError
    end
  else if truthy (slackFrac o) then
    match slackFrac o with
    | Some f => Ok (score * f)%float
    | None => Raise UnboundLocalError
    end
  else Raise UnboundLocalError.

(** The relaxed score: [slack] is chosen, asserted positive and added. *)
Definition relax (score : float) : res float :=
  try slack <- slack_of score;
  if (0 <? slack)%float then Ok (score + slack)%float else Raise AssertionError.

(** One turn of the second [for neighbor in get_neighbors(weights)]. *)
Definition rescan_step (w0 : list bool) (st : search) (i : nat) : M search :=
  do neighbor <- lift (get_neighbor w0 i);
  if (popcount neighbor <? L1 st)%nat then
    do cached <- lookup_score neighbor;
    if (cached <? score st)%float then
      do cached' <- lookup_score neighbor;
      do_ emit (FoundBetter (popcount neighbor) cached');
      mret {| weights := neighbor; score := cached'; L1 := popcount neighbor;
              bFoundBetterNeighbor := true |}
    else mret st
  else mret st.

Definition nFids : nat := length fidList.

(** The body of [for iIter in range(maxIter)]: the state after the turn and
    whether the loop was left by [break]. *)
Definition iteration (lessWeightOnly : bool) (st : search) : M (bool * search * bool) :=
  do d <- get_scoreD;
  let scoreD_keys := dom d in
  let st0 := {| weights := weights st; score := score st; L1 := L1 st;
                bFoundBetterNeighbor := false |} in
  do st1 <- mfold (scan_step scoreD_keys lessWeightOnly (weights st)) (seq 0 nFids) st0;
  if bFoundBetterNeighbor st1 then
    do_ emit (Logged "Moving to better neighbor");
    mret (lessWeightOnly, st1, false)
  else
    do relaxed <- lift (relax (score st1));
    do_ emit (Relaxing (score st1) relaxed);
    let st2 := {| weights := weights st1; score := relaxed; L1 := L1 st1;
                  bFoundBetterNeighbor := false |} in
    do st3 <- mfold (rescan_step (weights st1)) (seq 0 nFids) st2;
    if bFoundBetterNeighbor st3 then
      do_ emit (Logged "Moving to better neighbor");
      mret (true, st3, false)
    else
      do_ emit (Logged "Stationary point found!");
      mret (true, st3, true).

Fixpoint main_loop (iters : nat) (lessWeightOnly : bool) (st : search)
    : M (search * outcome) :=
  match iters with
  | O => do_ emit (Logged "Hit max. iterations"); mret (st, HitMaxIter)
  | S iters' =>
      do r <- iteration lessWeightOnly st;
      let '(lessWeightOnly', st', broke) := r in
      if broke then mret (st', Stationary)
      else main_loop iters' lessWeightOnly' st'
  end.

Definition all_ones (n : nat) : list bool := replicate n true.

Definition local_search : M (search * outcome) :=
  let '(weights0, lessWeightOnly) :=
    match initialWeights o with
    | Some iw => (iw, false)
    | None => (all_ones nFids, true)
    end in
  do score0 <- compute_score weights0 true;
  main_loop (maxIter o) lessWeightOnly
    {| weights := weights0; score := score0; L1 := popcount weights0;
       bFoundBetterNeighbor := false |}.

End WithArrays.

Definition must_specify : exn := PyException "prepOrMeas must be specified!".

Definition slack_error : exn :=
  ValueError "One and only one of fixedSlack or slackFrac should be specified".

Definition optimize_integer_fiducials_slack : M result :=
  if negb (xor [truthy (fixedSlack o); truthy (slackFrac o)]) then raise slack_error
  else
    do initial_test <- lift (test_fiducial_list gs fidList (prepOrMeas o)
                               (scoreFunc o) (threshold o));
    do_ emit (TestedList fidList);
    if negb (fst (fst initial_test)) then
      do_ emit (Printed "Complete initial fiducial set FAILS.");
      do_ emit (Printed "Aborting search.");
      mret RNone
    else
      do_ emit (Printed "Complete initial fiducial set succeeds.");
      do_ emit (Printed "Now searching for best fiducial set.");
      do_ emit (Logged "Starting fiducial set optimization. Lower score is better.");
      do_ put_scoreD ∅;
      do fidArrayList <- lift (fid_arrays gs fidList (prepOrMeas o) must_specify);
      do_ emit BuiltMatrices;
      match fixedNum o with
      | Some n => fixed_num_search fidArrayList n
      | None =>
          do r <- local_search fidArrayList;
          let st := fst r in
          do_ emit (LoggedScore (score st));
          do_ emit (LoggedWeights (weights st));
          do_ emit (LoggedL1 (popcount (weights st)));
          do goodFidList <- lift (select_fids fidList (weights st));
          do_ (if fst (fst initial_test)
               then emit (Printed "Final fiducial set succeeds.")
               else emit (Printed "WARNING: Final fiducial set FAILS."));
          if returnAll o then
            do d <- get_scoreD; mret (RAll goodFidList (weights st) d)
          else mret (RFids goodFidList)
      end.

End Optimizer.

(** ** generate_fiducials *)

(** The Python values a keyword dictionary of this module holds. *)
Inductive pyval : Type :=
| VNone
| VBool (b : bool)
| VInt (z : Z)
| VFloat (f : float)
| VStr (s : string)
| VFidList (l : list gatestring)
| VWeights (l : list bool).

(** Dictionaries are objects: a caller and the function see the same one
    through a reference.  The store maps references to dictionaries;
    reference 0 is the dictionary created once, when the module is loaded,
    for the default value [algorithm_kwargs={}]. *)
Abbreviation store := (gmap nat (gmap string pyval)).

Definition default_kwargs_ref : nat := 0%nat.

Definition float_of_Z (z : Z) : float :=
  if z <? 0 then (- of_uint63 (Uint63.of_Z (- z)))%float else of_uint63 (Uint63.of_Z z).

Definition default_options : options := {|
  prepOrMeas := None;
  initialWeights := None;
  scoreFunc := score_all;
  maxIter := 100;
  fixedSlack := None;
  slackFrac := None;
  returnAll := false;
  forceEmpty := true;
  forceEmptyScore := 1e100%float;
  fixedNum := None;
  threshold := 1e6%float;
  verbosity := 1
|}.

Definition set_prepOrMeas v (o : options) := {|
  prepOrMeas := v; initialWeights := initialWeights o; scoreFunc := scoreFunc o;
  maxIter := maxIter o; fixedSlack := fixedSlack o; slackFrac := slackFrac o;
  returnAll := returnAll o; forceEmpty := forceEmpty o;
  forceEmptyScore := forceEmptyScore o; fixedNum := fixedNum o;
  threshold := threshold o; verbosity := verbosity o |}.
Definition set_initialWeights v (o : options) := {|
  prepOrMeas := prepOrMeas o; initialWeights := v; scoreFunc := scoreFunc o;
  maxIter := maxIter o; fixedSlack := fixedSlack o; slackFrac := slackFrac o;
  returnAll := returnAll o; forceEmpty := forceEmpty o;
  forceEmptyScore := forceEmptyScore o; fixedNum := fixedNum o;
  threshold := threshold o; verbosity := verbosity o |}.
Definition set_scoreFunc v (o : options) := {|
  prepOrMeas := prepOrMeas o; initialWeights := initialWeights o; scoreFunc := v;
  maxIter := maxIter o; fixedSlack := fixedSlack o; slackFrac := slackFrac o;
  returnAll := returnAll o; forceEmpty := forceEmpty o;
  forceEmptyScore := forceEmptyScore o; fixedNum := fixedNum o;
  threshold := threshold o; verbosity := verbosity o |}.
Definition set_maxIter v (o : options) := {|
  prepOrMeas := prepOrMeas o; initialWeights := initialWeights o; scoreFunc := scoreFunc o;
  maxIter := v; fixedSlack := fixedSlack o; slackFrac := slackFrac o;
  returnAll := returnAll o; forceEmpty := forceEmpty o;
  forceEmptyScore := forceEmptyScore o; fixedNum := fixedNum o;
  threshold := threshold o; verbosity := verbosity o |}.
Definition set_fixedSlack v (o : options) := {|
  prepOrMeas := prepOrMeas o; initialWeights := initialWeights o; scoreFunc := scoreFunc o;
  maxIter := maxIter o; fixedSlack := v; slackFrac := slackFrac o;
  returnAll := returnAll o; forceEmpty := forceEmpty o;
  forceEmptyScore := forceEmptyScore o; fixedNum := fixedNum o;
  threshold := threshold o; verbosity := verbosity o |}.
Definition set_slackFrac v (o : options) := {|
  prepOrMeas := prepOrMeas o; initialWeights := initialWeights o; scoreFunc := scoreFunc o;
  maxIter := maxIter o; fixedSlack := fixedSlack o; slackFrac := v;
  returnAll := returnAll o; forceEmpty := forceEmpty o;
  forceEmptyScore := forceEmptyScore o; fixedNum := fixedNum o;
  threshold := threshold o; verbosity := verbosity o |}.
Definition set_returnAll v (o : options) := {|
  prepOrMeas := prepOrMeas o; initialWeights := initialWeights o; scoreFunc := scoreFunc o;
  maxIter := maxIter o; fixedSlack := fixedSlack o; slackFrac := slackFrac o;
  returnAll := v; forceEmpty := forceEmpty o;
  forceEmptyScore := forceEmptyScore o; fixedNum := fixedNum o;
  threshold := threshold o; verbosity := verbosity o |}.
Definition set_forceEmpty v (o : options) := {|
  prepOrMeas := prepOrMeas o; initialWeights := initialWeights o; scoreFunc := scoreFunc o;
  maxIter := maxIter o; fixedSlack := fixedSlack o; slackFrac := slackFrac o;
  returnAll := returnAll o; forceEmpty := v;
  forceEmptyScore := forceEmptyScore o; fixedNum := fixedNum o;
  threshold := threshold o; verbosity := verbosity o |}.
Definition set_forceEmptyScore v (o : options) := {|
  prepOrMeas := prepOrMeas o; initialWeights := initialWeights o; scoreFunc := scoreFunc o;
  maxIter := maxIter o; fixedSlack := fixedSlack o; slackFrac := slackFrac o;
  returnAll := returnAll o; forceEmpty := forceEmpty o;
  forceEmptyScore := v; fixedNum := fixedNum o;
  threshold := threshold o; verbosity := verbosity o |}.
Definition set_fixedNum v (o : options) := {|
  prepOrMeas := prepOrMeas o; initialWeights := initialWeights o; scoreFunc := scoreFunc o;
  maxIter := maxIter o; fixedSlack := fixedSlack o; slackFrac := slackFrac o;
  returnAll := returnAll o; forceEmpty := forceEmpty o;
  forceEmptyScore := forceEmptyScore o; fixedNum := v;
  threshold := threshold o; verbosity := verbosity o |}.
Definition set_threshold v (o : options) := {|
  prepOrMeas := prepOrMeas o; initialWeights := initialWeights o; scoreFunc := scoreFunc o;
  maxIter := maxIter o; fixedSlack := fixedSlack o; slackFrac := slackFrac o;
  returnAll := returnAll o; forceEmpty := forceEmpty o;
  forceEmptyScore := forceEmptyScore o; fixedNum := fixedNum o;
  threshold := v; verbosity := verbosity o |}.
Definition set_verbosity v (o : options) := {|
  prepOrMeas := prepOrMeas o; initialWeights := initialWeights o; scoreFunc := scoreFunc o;
  maxIter := maxIter o; fixedSlack := fixedSlack o; slackFrac := slackFrac o;
  returnAll := returnAll o; forceEmpty := forceEmpty o;
  forceEmptyScore := forceEmptyScore o; fixedNum := fixedNum o;
  threshold := threshold o; verbosity := v |}.

Definition as_float (v : pyval) : res float :=
  match v with
  | VFloat f => Ok f
  | VInt z => Ok (float_of_Z z)
  | _ => Raise TypeError
  end.

Definition as_opt_float (v : pyval) : res (option float) :=
  match v with
  | VNone => Ok None
  | _ => try f <- as_float v; Ok (Some f)
  end.

Definition as_bool (v : pyval) : res bool :=
  match v with
  | VBool b => Ok b
  | _ => Raise TypeError
  end.

(** Binding one keyword of [optimize_integer_fiducials_slack(gateset=...,
    **kwargs)].  A keyword the function does not have (or [gateset], given
    twice) is a TypeError; so is, in this model, a value outside the types
    the parameter is documented to take. *)
Definition bind_keyword (acc : option (list gatestring) * options)
    (kv : string * pyval) : res (option (list gatestring) * options) :=
  let '(fl, o) := acc in
  let '(key, v) := kv in
  if String.eqb key "fidList" then
    match v with VFidList l => Ok (Some l, o) | _ => Raise TypeError end
  else if String.eqb key "prepOrMeas" then
    match v with
    | VNone => Ok (fl, set_prepOrMeas None o)
    | VStr s => Ok (fl, set_prepOrMeas (Some s) o)
    | _ => Raise TypeError
    end
  else if String.eqb key "initialWeights" then
    match v with
    | VNone => Ok (fl, set_initialWeights None o)
    | VWeights w => Ok (fl, set_initialWeights (Some w) o)
    | _ => Raise TypeError
    end
  else if String.eqb key "scoreFunc" then
    match v with
    | VStr s =>
        if String.eqb s "all" then Ok (fl, set_scoreFunc score_all o)
        else if String.eqb s "worst" then Ok (fl, set_scoreFunc score_worst o)
        else Raise (ValueError "Invalid scoreFunc")
    | _ => Raise TypeError
    end
  else if String.eqb key "maxIter" then
    match v with VInt z => Ok (fl, set_maxIter (Z.to_nat z) o) | _ => Raise TypeError end
  else if String.eqb key "fixedSlack" then
    try f <- as_opt_float v; Ok (fl, set_fixedSlack f o)
  else if String.eqb key "slackFrac" then
    try f <- as_opt_float v; Ok (fl, set_slackFrac f o)
  else if String.eqb key "returnAll" then
    try b <- as_bool v; Ok (fl, set_returnAll b o)
  else if String.eqb key "forceEmpty" then
    try b <- as_bool v; Ok (fl, set_forceEmpty b o)
  else if String.eqb key "forceEmptyScore" then
    try f <- as_float v; Ok (fl, set_forceEmptyScore f o)
  else if String.eqb key "fixedNum" then
    match v with
    | VNone => Ok (fl, set_fixedNum None o)
    | VInt z => Ok (fl, set_fixedNum (Some z) o)
    | _ => Raise TypeError
    end
  else if String.eqb key "threshold" then
    try f <- as_float v; Ok (fl, set_threshold f o)
  else if String.eqb key "verbosity" then
    match v with VInt z => Ok (fl, set_verbosity (Z.to_nat z) o) | _ => Raise TypeError end
  else Raise TypeError.

Definition bind_keywords (kwargs : gmap string pyval)
    : res (list gatestring * options) :=
  try r <- rfold bind_keyword (map_to_list kwargs) (None, default_options);
  match fst r with
  | Some fl => Ok (fl, snd r)
  | None => Raise TypeError
  end.

(** All words of length [n] over [alphabet], first position varying slowest. *)
Fixpoint words (alphabet : list string) (n : nat) : list gatestring :=
  match n with
  | O => [[]]
  | S n' => flat_map (fun g => map (cons g) (words alphabet n')) alphabet
  end.

(** Modelled from the spec: [construction.list_all_gatestrings] is not in
    the sources at hand; the specification gives it as the enumeration of
    all operation sequences up to a maximum length over an allowed
    alphabet.  Sequences come by increasing length, from [minLength]. *)
Definition list_all_gatestrings (gateLabels : list string) (minLength maxLength : nat)
    : list gatestring :=
  flat_map (words gateLabels) (seq minLength (S maxLength - minLength)).

Section Generate.
Context `{LinAlg}.
Variable py3 : bool.
Variable reclimit : nat.

(** A call [optimize_integer_fiducials_slack(gateset=gs, **kwargs)]: the
    value or exception, and the events the call adds to [evs]. *)
Definition call_optimizer (gs : GateSet) (kwargs : gmap string pyval)
    (evs : list event) : res result * list event :=
  match bind_keywords kwargs with
  | Raise e => (Raise e, evs)
  | Ok (fl, o) =>
      let '(r, s) := optimize_integer_fiducials_slack py3 reclimit gs fl o
                       {| scoreD := ∅; events := evs |} in
      (r, events s)
  end.

(** [generate_fiducials(gs_target, gatesToOmit, maxFidLength, algorithm,
    algorithm_kwargs, verbosity)] run on a store.  [algorithm_kwargs] is the
    reference the caller passes, or [None] when the argument is omitted and
    the default object is used. *)
Definition generate_fiducials (st : store) (gs_target : GateSet)
    (gatesToOmit : list string) (maxFidLength : nat) (algorithm : string)
    (algorithm_kwargs : option nat) (verbosity : nat)
    : res (result * result) * store * list event :=
  let ref := default default_kwargs_ref algorithm_kwargs in
  let fidGates := filter (fun gate => gate ∉ gatesToOmit) (gates gs_target) in
  let availableFidList := list_all_gatestrings fidGates 0 maxFidLength in
  match st !! ref with
  | None => (Raise TypeError, st, [])
  | Some kw0 =>
      if String.eqb algorithm "slack" then
        let default_kwargs : list (string * pyval) :=
          [("fidList"%string, VFidList availableFidList);
           ("verbosity"%string, VInt (Z.of_nat verbosity))] in
        let kw1 :=
          if bool_decide (kw0 !! "slackFrac"%string = None)
             && bool_decide (kw0 !! "fixedSlack"%string = None)
          then <["slackFrac"%string := VFloat 1%float]> kw0 else kw0 in
        let kw2 :=
          fold_left (fun kw kv => if bool_decide (kw !! fst kv = None)
                                  then <[fst kv := snd kv]> kw else kw)
                    default_kwargs kw1 in
        let st' := <[ref := kw2]> st in
        let prepAlg_kwargs := <["prepOrMeas"%string := VStr "prep"]> kw2 in
        match call_optimizer gs_target prepAlg_kwargs [] with
        | (Raise e, evs) => (Raise e, st', evs)
        | (Ok prepFidList, evs) =>
            let measAlg_kwargs := <["prepOrMeas"%string := VStr "meas"]> kw2 in
            match call_optimizer gs_target measAlg_kwargs evs with
            | (Raise e, evs') => (Raise e, st', evs')
            | (Ok measFidList, evs') => (Ok (prepFidList, measFidList), st', evs')
            end
        end
      else (Raise (ValueError "not a valid algorithm identifier."), st, [])
  end.

End Generate.

(** ** A concrete eigenvalue solver for the runs below *)

Fixpoint insert_sorted (x : float) (l : list float) : list float :=
  match l with
  | [] => [x]
  | y :: l' => if (y <? x)%float then y :: insert_sorted x l' else x :: l
  end.

Definition diagonal (m : matrix) : list float :=
  imap (fun i row => nth i row 0%float) m.

(** On a diagonal matrix [numpy.linalg.eigvalsh] returns the diagonal
    entries in ascending order; in particular the spectrum of the 1 x 1
    matrix [[x]] is [x].  The concrete runs below only meet such matrices. *)
Definition diag_eigvalsh (m : matrix) : list float :=
  fold_right insert_sorted [] (diagonal m).

Definition diag_linalg : LinAlg := {| eigvalsh := diag_eigvalsh |}.

(** A model of dimension 1: the state is the number [rho], the effect the
    number [eff], every gate acts by multiplication with its value, and a
    sequence acts by the product of its gates' values. *)
Definition gate_value (values : list (string * float)) (g : string) : float :=
  match list_find (fun kv => String.eqb (fst kv) g = true) values with
  | Some (_, kv) => snd kv
  | None => 1%float
  end.

Definition scalar_gateset (rho eff : float) (values : list (string * float)) : GateSet := {|
  get_dimension := 1;
  preps := [[rho]];
  effects := [[eff]];
  gates := map fst values;
  product := fun s => [[fold_left (fun acc g => (gate_value values g * acc)%float) s 1%float]]
|}.

(** * Definitions used by the statements *)

(** The comparison the fixed-size search uses to call two scores tied. *)
Definition tied (a b : float) : bool := (abs (a - b) <? tie_tol)%float.

(** ** Concrete inputs *)

(** Dimension 1; the empty sequence responds 0.5 and the sequence Gx
    responds 1. *)
Definition gs_half : GateSet := scalar_gateset 0.5 0.5 [("Gx"%string, 2%float)].

(** Dimension 1; the empty sequence responds 1 and the sequence Gx
    responds 0.5. *)
Definition gs_unit : GateSet := scalar_gateset 1 1 [("Gx"%string, 0.5%float)].

(** Dimension 1 with an identity gate: the empty sequence and Gi both
    respond 1. *)
Definition gs_idle : GateSet := scalar_gateset 1 1 [("Gi"%string, 1%float)].

(** Dimension 1 with three gates whose single-candidate scores are 1,
    1.000000009 and 1.000000018. *)
Definition gs_chain : GateSet :=
  scalar_gateset 1 1
    [("G1"%string, 1%float);
     ("Ga"%string, 0.9999999955%float);
     ("Gb"%string, 0.999999991%float)].

Definition fids_pair : list gatestring := [[]; ["Gx"%string]].
Definition fids_idle : list gatestring := [[]; ["Gi"%string]].
Definition fids_chain : list gatestring :=
  [["G1"; "G1"; "G1"]; ["G1"; "Ga"]; ["Gb"]]%string.

Definition prep_options : options := set_prepOrMeas (Some "prep"%string) default_options.

Definition fresh : ostate := {| scoreD := ∅; events := [] |}.

(** ** What a computation may emit and raise *)

Definition rfoot {A} (Q : exn -> Prop) (r : res A) : Prop :=
  forall e, r = Raise e -> Q e.

(** [mfoot P Q m]: whatever the start state, [m] only appends events that
    satisfy [P] and only raises exceptions that satisfy [Q]. *)
Definition mfoot {A} (P : event -> Prop) (Q : exn -> Prop) (m : M A) : Prop :=
  forall s r s', m s = (r, s') ->
    (exists evs, events s' = events s ++ evs /\ Forall P evs) /\ rfoot Q r.

Definition scan_event (e : event) : Prop :=
  match e with
  | Scored _ | FoundBetter _ _ => True
  | _ => False
  end.

Definition search_event (e : event) : Prop :=
  match e with
  | Scored _ | FoundBetter _ _ | Relaxing _ _ => True
  | Logged line => line = "Moving to better neighbor"%string
                   \/ line = "Stationary point found!"%string
                   \/ line = "Hit max. iterations"%string
  | _ => False
  end.

Definition search_exn (e : exn) : Prop :=
  match e with
  | IndexError | KeyError | AssertionError | UnboundLocalError => True
  | _ => False
  end.

Definition fixed_event (e : event) : Prop :=
  match e with
  | Scored _ | Logged _ | Warned _ => True
  | _ => False
  end.

Definition fixed_exn (e : exn) : Prop :=
  match e with
  | IndexError | RecursionError => True
  | ValueError msg => msg = "negative dimensions are not allowed"%string
  | _ => False
  end.

Definition body_event (e : event) : Prop := search_event e \/ fixed_event e.
Definition body_exn (e : exn) : Prop := search_exn e \/ fixed_exn e.

Definition not_slack_error (e : exn) : Prop := e <> slack_error.

(** ** Enumerations of positions *)

(** The strictly increasing [i]-tuples of positions in [lo, lo + m), by the
    rule of Pascal's triangle: those that start at [lo], then the others. *)
Fixpoint combs (m i : nat) (lo : Z) : list (list Z) :=
  match i with
  | O => [[]]
  | S i' =>
      match m with
      | O => []
      | S m' => map (cons lo) (combs m' i' (lo + 1)) ++ combs m' i (lo + 1)
      end
  end.

(** The same tuples as the nested loops of [build_mx] produce them: [i]
    positions still to choose, the next one from [lo] up to [n - i]. *)
Fixpoint loop_combs (n : Z) (i : nat) (lo : Z) : list (list Z) :=
  match i with
  | O => [[]]
  | S i' => flat_map (fun b => map (cons b) (loop_combs n i' (b + 1)))
                     (range lo (n - Z.of_nat i + 1))
  end.

(** The row with ones exactly at [locs]. *)
Definition indicator (n : nat) (locs : list Z) : list bool :=
  fold_left (fun r j => <[j := true]> r) (map Z.to_nat locs) (replicate n false).

(** One execution of the base case of [build_mx]. *)
Definition write_row (st : bitmx * nat) (locs : list Z) : res (bitmx * nat) :=
  try mx' <- set_row_bits (fst st) (snd st) locs; Ok (mx', S (snd st)).

(** [lo <= x1 < x2 < ...] *)
Fixpoint increasing_from (lo : Z) (l : list Z) : Prop :=
  match l with
  | [] => True
  | x :: l' => lo <= x /\ increasing_from (x + 1) l'
  end.

(** Lexicographic order on tuples of positions. *)
Inductive lex_lt : list Z -> list Z -> Prop :=
| lex_lt_nil y l : lex_lt [] (y :: l)
| lex_lt_head x y l l' : x < y -> lex_lt (x :: l) (y :: l')
| lex_lt_tail x l l' : lex_lt l l' -> lex_lt (x :: l) (x :: l').

(** The positions of the ones of a row, as Python integers. *)
Definition one_positions (row : list bool) : list Z := map Z.of_nat (where_ row).

Fixpoint increasing_nat_from (lo : nat) (l : list nat) : Prop :=
  match l with
  | [] => True
  | x :: l' => (lo <= x)%nat /\ increasing_nat_from (S x) l'
  end.

(** ** The parts of a score *)

(** The aggregate [list_score(eigvalsh(scoreSqMx), scoreFunc)] that
    [compute_score] multiplies by the number of selected fiducials. *)
Definition aggregate `{LinAlg} (gs : GateSet) (o : options) (fidArrayList : list matrix)
    (wts : list bool) : res float :=
  try blocks <- rmap (select_columns (where_ wts)) fidArrayList;
  Ok (list_score (eigvalsh (gram (hconcat (get_dimension gs) blocks))) (scoreFunc o)).

(** The replacement of a non-positive or infinite score by the sentinel. *)
Definition clamp (score : float) : float :=
  if (score <=? 0)%float || isinf score then reject_score else score.

(** ** The dictionary [generate_fiducials] leaves behind *)

(** The list [generate_fiducials] offers as [fidList]. *)
Definition available_fids (gs_target : GateSet) (gatesToOmit : list string)
    (maxFidLength : nat) : list gatestring :=
  list_all_gatestrings (filter (fun gate => gate ∉ gatesToOmit) (gates gs_target))
    0 maxFidLength.

(** The store after a call. *)
Definition store_after `{LinAlg} (py3 : bool) (reclimit : nat) (st : store)
    (gs_target : GateSet) (gatesToOmit : list string) (maxFidLength : nat)
    (algorithm : string) (algorithm_kwargs : option nat) (verbosity : nat) : store :=
  snd (fst (generate_fiducials py3 reclimit st gs_target gatesToOmit maxFidLength
              algorithm algorithm_kwargs verbosity)).

(** ** The local search, read as conditions on scores *)

(** Every entry of the score dictionary is the score of its key. *)
Definition consistent `{LinAlg} (gs : GateSet) (o : options) (arrs : list matrix)
    (d : gmap (list bool) float) : Prop :=
  forall k v, d !! k = Some v -> score_of gs o arrs k = Ok v.

(** The test of the first scan: move to neighbour [n] of score [sn]. *)
Definition accepts (lessWeightOnly : bool) (s : float) (l1 : nat)
    (n : list bool) (sn : float) : bool :=
  (sn <=? s)%float && ((popcount n <? l1)%nat || negb lessWeightOnly).

(** The test of the relaxed re-scan. *)
Definition accepts_relaxed (relaxed : float) (l1 : nat) (n : list bool) (sn : float) : bool :=
  (popcount n <? l1)%nat && (sn <? relaxed)%float.

(** [w] is a point at which the loop stops by [break] when it scans with
    the flag [lessWeightOnly]: every neighbour can be scored, none passes
    the test of the first scan against the score of [w], the relaxation is
    defined, and none passes the test of the re-scan against the relaxed
    score. *)
Definition stationary_at `{LinAlg} (gs : GateSet) (fidList : list gatestring)
    (o : options) (arrs : list matrix) (lessWeightOnly : bool) (w : list bool) : Prop :=
  exists s relaxed,
    score_of gs o arrs w = Ok s
    /\ relax o s = Ok relaxed
    /\ forall i, (i < length fidList)%nat ->
         exists n sn,
           get_neighbor w i = Ok n
           /\ score_of gs o arrs n = Ok sn
           /\ accepts lessWeightOnly s (popcount w) n sn = false
           /\ accepts_relaxed relaxed (popcount w) n sn = false.

(** The search variables describe the vector they hold. *)
Definition coherent `{LinAlg} (gs : GateSet) (o : options) (arrs : list matrix)
    (st : search) : Prop :=
  score_of gs o arrs (weights st) = Ok (score st) /\ L1 st = popcount (weights st).

Definition scored_event (e : event) : Prop :=
  match e with
  | Scored _ => True
  | _ => False
  end.

(** Events of an iteration in which nothing moves. *)
Definition still_event (e : event) : Prop :=
  match e with
  | Scored _ | Relaxing _ _ => True
  | Logged line => line = "Stationary point found!"%string
  | _ => False
  end.

(** The state a computation's run ends in extends the one it started in. *)
Definition grows `{LinAlg} (gs : GateSet) (o : options) (arrs : list matrix)
    (P : event -> Prop) (s s' : ostate) : Prop :=
  consistent gs o arrs (scoreD s')
  /\ scoreD s ⊆ scoreD s'
  /\ exists evs, events s' = events s ++ evs /\ Forall P evs.

(** The list the optimizer returns, whatever [returnAll]. *)
Definition result_fids (r : result) : option (list gatestring) :=
  match r with
  | RNone => None
  | RFids fids => Some fids
  | RAll fids _ _ => Some fids
  end.

(** The search variables after a move to [n] of score [sn]. *)
Definition moved (n : list bool) (sn : float) : search :=
  {| weights := n; score := sn; L1 := popcount n; bFoundBetterNeighbor := true |}.

(** Events of iterations that end without [break], and of the loop's
    [else] branch. *)
Definition unbroken_event (e : event) : Prop :=
  match e with
  | Scored _ | FoundBetter _ _ | Relaxing _ _ => True
  | Logged line => line = "Moving to better neighbor"%string
                   \/ line = "Hit max. iterations"%string
  | _ => False
  end.

(** ** The fixed-size search, read as conditions on scores *)

(** The scores [ss] fall into groups of scores tied with one another, and
    the groups do not overlap in the order of scores: [tied] is reflexive,
    symmetric and transitive on [ss], and a score strictly below a score it
    is not tied with is strictly below every score tied with the latter (and
    the mirror image).  A NaN or an infinite score is not tied with itself. *)
Record separated_ties (ss : list float) : Prop := {
  ties_refl : forall a, In a ss -> tied a a = true;
  ties_sym : forall a b, In a ss -> In b ss -> tied a b = true -> tied b a = true;
  ties_trans : forall a b c, In a ss -> In b ss -> In c ss ->
    tied a b = true -> tied b c = true -> tied a c = true;
  ties_below : forall a b c, In a ss -> In b ss -> In c ss ->
    (a <? b)%float = true -> tied a b = false -> tied b c = true -> (a <? c)%float = true;
  ties_above : forall a b c, In a ss -> In b ss -> In c ss ->
    (a <? b)%float = true -> tied a b = false -> tied a c = true -> (c <? b)%float = true
}.

(** The same conditions as a computation. *)
Definition separated_tiesb (ss : list float) : bool :=
  forallb (fun a =>
    tied a a
    && forallb (fun b =>
         implb (tied a b) (tied b a)
         && forallb (fun c =>
              implb (tied a b && tied b c) (tied a c)
              && implb ((a <? b)%float && negb (tied a b) && tied b c) (a <? c)%float
              && implb ((a <? b)%float && negb (tied a b) && tied a c) (c <? b)%float)
            ss)
       ss)
    ss.

(** Candidate [c] does not beat candidate [b]: it is tied with [b] and not
    shorter, or it is not tied and scores strictly more. *)
Definition not_better (f : list bool -> float) (g : list bool -> list gatestring)
    (b c : list bool) : Prop :=
  (tied (f c) (f b) = true /\ (total_length (g b) <= total_length (g c))%nat)
  \/ (tied (f c) (f b) = false /\ (f b <? f c)%float = true).

(** The enumerated vectors of the fixed-size search, the forced first entry
    attached. *)
Definition candidates (o : options) (rows : list (list bool)) : list (list bool) :=
  if forceEmpty o then map (cons true) rows else rows.

(** Dimension 1 with an identity gate and a gate of value 0.5. *)
Definition gs_tie : GateSet :=
  scalar_gateset 1 1 [("Gi"%string, 1%float); ("Gx"%string, 0.5%float)].

Definition fids_tie : list gatestring := [["Gi"; "Gi"]; ["Gi"]; ["Gx"]]%string.

(** What the pass of the fixed-size search holds after the candidates [P]:
    nothing yet, or a candidate of [P] that none of [P] beats. *)
Definition pass_invariant (f : list bool -> float) (g : list bool -> list gatestring)
    (P : list (list bool)) (best_score : float) (best_weights : list bool) : Prop :=
  (P = [] /\ best_score = infinity /\ best_weights = [])
  \/ (In best_weights P /\ best_score = f best_weights
      /\ forall c, In c P -> not_better f g best_weights c).

(** ** The optimizer around its search *)

(** What the optimizer emits between its entry check and the search, when
    the full list passes the initial test. *)
Definition entry_events (fidList : list gatestring) : list event :=
  [TestedList fidList;
   Printed "Complete initial fiducial set succeeds.";
   Printed "Now searching for best fiducial set.";
   Logged "Starting fiducial set optimization. Lower score is better.";
   BuiltMatrices].

(** The state in which the search starts: a new, empty score dictionary. *)
Definition search_start (fidList : list gatestring) (s : ostate) : ostate :=
  {| scoreD := ∅; events := events s ++ entry_events fidList |}.

(** What the optimizer emits when the full list fails the initial test. *)
Definition abort_events (fidList : list gatestring) : list event :=
  [TestedList fidList;
   Printed "Complete initial fiducial set FAILS.";
   Printed "Aborting search."].

(** What the optimizer emits after a local search that ended with the
    variables [st]. *)
Definition report_events (st : search) : list event :=
  [LoggedScore (score st); LoggedWeights (weights st);
   LoggedL1 (popcount (weights st)); Printed "Final fiducial set succeeds."].

Definition final_warning : event := Printed "WARNING: Final fiducial set FAILS.".

(** The value of a search that ended on the weights [w], selecting [fids],
    with the dictionary [d]. *)
Definition result_of (o : options) (fids : list gatestring) (w : list bool)
    (d : gmap (list bool) float) : result :=
  if returnAll o then RAll fids w d else RFids fids.

(** ** The keyword dictionary of a call *)

(** The dictionary [algorithm_kwargs] holds once [generate_fiducials] has
    filled in its defaults: the one it copies for the two optimizer calls. *)
Definition merged_kwargs (kw0 : gmap string pyval) (availableFidList : list gatestring)
    (verbosity : nat) : gmap string pyval :=
  let kw1 :=
    if bool_decide (kw0 !! "slackFrac"%string = None)
       && bool_decide (kw0 !! "fixedSlack"%string = None)
    then <["slackFrac"%string := VFloat 1%float]> kw0 else kw0 in
  let kw2 :=
    if bool_decide (kw1 !! "fidList"%string = None)
    then <["fidList"%string := VFidList availableFidList]> kw1 else kw1 in
  if bool_decide (kw2 !! "verbosity"%string = None)
  then <["verbosity"%string := VInt (Z.of_nat verbosity)]> kw2 else kw2.

(** ** The moves of a search *)

(** The numbers of fiducials of the moves a run logs ("Found better
    neighbor: nFids = ..."), in order. *)
Definition found_counts (evs : list event) : list nat :=
  omap (fun e => match e with FoundBetter n _ => Some n | _ => None end) evs.

(** Each number is smaller than the one before, the first smaller than
    [l1]. *)
Fixpoint descending_from (l1 : nat) (ns : list nat) : Prop :=
  match ns with
  | [] => True
  | n :: ns' => (n < l1)%nat /\ descending_from n ns'
  end.

(** What a computation adds to the log, in moves: the state [s'] extends
    the log of [s] by events whose moves descend from [a] and end on [b]
    ([b] is [a] when there is no move). *)
Definition descends (s s' : ostate) (a b : nat) : Prop :=
  exists evs, events s' = events s ++ evs
              /\ descending_from a (found_counts evs)
              /\ b = default a (last (found_counts evs)).

(** ** The exceptions of the optimizer *)

Definition index_exn (e : exn) : Prop := e = IndexError.

(** What a local search may raise: an index out of range (weights of
    another length than the candidate list) and the assertion that the
    slack is positive. *)
Definition local_exn (e : exn) : Prop := e = IndexError \/ e = AssertionError.

(** ** Counting the log lines of the main loop *)

Definition is_log (m : string) (e : event) : bool :=
  match e with
  | Logged l => String.eqb l m
  | _ => false
  end.

Definition count_log (m : string) (evs : list event) : nat :=
  length (List.filter (is_log m) evs).

Definition moving : string := "Moving to better neighbor".
Definition stationary : string := "Stationary point found!".
Definition hit_max : string := "Hit max. iterations".

(** The three counts of a main loop that ran [n] iterations at most. *)
Definition loop_tally (n : nat) (oc : outcome) (evs : list event) : Prop :=
  match oc with
  | HitMaxIter =>
      count_log moving evs = n /\ count_log hit_max evs = 1%nat
      /\ count_log stationary evs = 0%nat
  | Stationary =>
      (count_log moving evs < n)%nat /\ count_log hit_max evs = 0%nat
      /\ count_log stationary evs = 1%nat
  end.

(** What the pass of the fixed-size search holds after the candidates [P],
    whatever their scores: nothing yet, every score so far being NaN, or one
    of [P] with its score. *)
Definition pass_holds (f : list bool -> float) (P : list (list bool))
    (best_score : float) (best_weights : list bool) : Prop :=
  (best_score = infinity /\ best_weights = [] /\ forall c, In c P -> f c = nan)
  \/ (In best_weights P /\ best_score = f best_weights).

(** * Facts about binary64 comparisons *)

Section FloatFacts.
Local Open Scope float_scope.

Lemma SFcompare_antisym a b :
  SFcompare a b = option_map CompOpp (SFcompare b a).
Proof.
  destruct a as [sa|sa| |sa ma ea], b as [sb|sb| |sb mb eb]; simpl; try reflexivity;
    try (destruct sa; reflexivity); try (destruct sb; reflexivity);
    try (destruct sa, sb; reflexivity).
  destruct sa, sb; simpl; try reflexivity.
  - rewrite (Z.compare_antisym ea eb). destruct (ea ?= eb)%Z; simpl; try reflexivity.
    f_equal. rewrite CompOpp_involutive.
    change (PosDef.Pos.compare_cont Eq mb ma) with (Pos.compare_cont (CompOpp Eq) mb ma).
    rewrite <- Pos.compare_cont_antisym. reflexivity.
  - rewrite (Z.compare_antisym ea eb). destruct (ea ?= eb)%Z; simpl; try reflexivity.
    f_equal.
    change (PosDef.Pos.compare_cont Eq mb ma) with (Pos.compare_cont (CompOpp Eq) mb ma).
    rewrite <- Pos.compare_cont_antisym. rewrite CompOpp_involutive. reflexivity.
Qed.

Ltac cmp_cases :=
  repeat match goal with
  | H : context [(?a ?= ?b)%Z] |- _ => destruct (Z.compare_spec a b)
  | |- context [(?a ?= ?b)%Z] => destruct (Z.compare_spec a b)
  | H : context [(?a ?= ?b)%positive] |- _ => destruct (Pos.compare_spec a b)
  | |- context [(?a ?= ?b)%positive] => destruct (Pos.compare_spec a b)
  end.

Lemma SFltb_trans a b c : SFltb a b = true -> SFltb b c = true -> SFltb a c = true.
Proof.
  unfold SFltb.
  destruct a as [sa|sa| |sa ma ea], b as [sb|sb| |sb mb eb], c as [sc|sc| |sc mc ec];
    simpl; try discriminate; try reflexivity;
    repeat match goal with s : bool |- _ => destruct s end;
    simpl; try discriminate; try reflexivity;
    change (PosDef.Pos.compare_cont Eq) with Pos.compare;
    cmp_cases; simpl; try discriminate; try reflexivity; intros; subst; try lia.
Qed.

Lemma float_ltb_trans a b c : (a <? b) = true -> (b <? c) = true -> (a <? c) = true.
Proof. rewrite !FloatAxioms.ltb_spec. apply SFltb_trans. Qed.

Lemma float_ltb_asym a b : (a <? b) = true -> (b <? a) = false.
Proof.
  rewrite !FloatAxioms.ltb_spec. unfold SFltb.
  rewrite (SFcompare_antisym (Prim2SF b) (Prim2SF a)).
  destruct (SFcompare (Prim2SF a) (Prim2SF b)) as [[]|]; simpl; congruence.
Qed.

Lemma Prim2SF_is (x : float) (v : spec_float) : Prim2SF x = v -> x = SF2Prim v.
Proof. intros <-. symmetry. apply SF2Prim_Prim2SF. Qed.

(** Two floats, neither NaN, that no [<?] separates are equal or both zero. *)
Lemma float_ltb_total a b : a <> nan -> b <> nan ->
  (a <? b) = false -> (b <? a) = false ->
  a = b \/ ((a =? 0) = true /\ (b =? 0) = true).
Proof.
  intros Ha Hb. rewrite !FloatAxioms.ltb_spec. unfold SFltb.
  rewrite (SFcompare_antisym (Prim2SF b) (Prim2SF a)).
  destruct (SFcompare (Prim2SF a) (Prim2SF b)) as [[]|] eqn:E; simpl; try discriminate.
  - intros _ _.
    destruct (Prim2SF a) as [sa|sa| |sa ma ea] eqn:Ea, (Prim2SF b) as [sb|sb| |sb mb eb] eqn:Eb;
     simpl in E; try discriminate;
     repeat match goal with s : bool |- _ => destruct s end; try discriminate.
    all: try (right; split; rewrite FloatAxioms.eqb_spec, ?Ea, ?Eb; reflexivity).
    all: try (left; apply Prim2SF_inj; congruence).
    all: left; apply Prim2SF_inj; rewrite Ea, Eb;
      change (PosDef.Pos.compare_cont Eq) with Pos.compare in E;
      revert E; cmp_cases; simpl; try discriminate; intros; subst; reflexivity.
  - intros _ _. exfalso.
    destruct (Prim2SF a) as [sa|sa| |sa ma ea] eqn:Ea, (Prim2SF b) as [sb|sb| |sb mb eb] eqn:Eb;
     simpl in E; try discriminate.
    all: try (apply Ha; apply Prim2SF_is in Ea; exact Ea).
    all: try (apply Hb; apply Prim2SF_is in Eb; exact Eb).
Qed.

(** Nothing is within the tolerance of +infinity. *)
Lemma tied_infinity_r a : tied a infinity = false.
Proof.
  unfold tied. rewrite FloatAxioms.ltb_spec, FloatAxioms.abs_spec, FloatAxioms.sub_spec.
  unfold SF64sub. change (Prim2SF infinity) with (S754_infinity false).
  destruct (Prim2SF a) as [s|s| |s m e]; try reflexivity.
  destruct s; reflexivity.
Qed.

(** A float other than NaN and +infinity is below +infinity. *)
Lemma float_ltb_infinity a : a <> nan -> a <> infinity -> (a <? infinity) = true.
Proof.
  intros Hn Hi. rewrite FloatAxioms.ltb_spec. unfold SFltb.
  change (Prim2SF infinity) with (S754_infinity false).
  destruct (Prim2SF a) as [s|s| |s m e] eqn:Ea; simpl; try reflexivity.
  - destruct s; [reflexivity|]. exfalso. apply Hi. apply Prim2SF_is in Ea. exact Ea.
  - exfalso. apply Hn. apply Prim2SF_is in Ea. exact Ea.
Qed.

(** The verdict of [test_fiducial_list] when neither number is NaN. *)
Lemma test_verdict_not_nan score threshold :
  score <> nan -> threshold <> nan ->
  test_verdict score threshold = true <->
  (0 <? score) = true /\ (score <=? threshold) = true /\ isinf score = false.
Proof.
  intros Hs Ht. unfold test_verdict, isinf, is_infinity.
  rewrite !FloatAxioms.ltb_spec, !FloatAxioms.leb_spec, FloatAxioms.eqb_spec,
    FloatAxioms.abs_spec.
  unfold SFltb, SFleb, SFeqb.
  rewrite (SFcompare_antisym (Prim2SF threshold) (Prim2SF score)).
  change (Prim2SF 0) with (S754_zero false).
  change (Prim2SF infinity) with (S754_infinity false).
  destruct (Prim2SF score) as [s|s| |s m e] eqn:Es.
  4: destruct (SFcompare (S754_finite s m e) (Prim2SF threshold)) as [[]|] eqn:E.
  all: try (exfalso; apply Hs; apply Prim2SF_is in Es; exact Es).
  all: destruct (Prim2SF threshold) as [s'|s'| |s' m' e'] eqn:Et.
  all: try (exfalso; apply Ht; apply Prim2SF_is in Et; exact Et).
  all: simpl in *; try discriminate;
    repeat match goal with s : bool |- _ => destruct s end; simpl in *;
    try discriminate; try (split; [discriminate | intros (? & ? & ?); discriminate]);
    try (split; [intros _; repeat split; reflexivity | reflexivity]).
Qed.

End FloatFacts.

(** * Reasoning about results and the optimizer's monad *)

Section Footprints.

Lemma rfoot_ok {A} Q (a : A) : rfoot Q (Ok a).
Proof. intros e He. discriminate. Qed.

Lemma rfoot_raise {A} (Q : exn -> Prop) e : Q e -> rfoot Q (@Raise A e).
Proof. intros HQ e' [= <-]. exact HQ. Qed.

Lemma rfoot_bind {A B} Q (r : res A) (k : A -> res B) :
  rfoot Q r -> (forall a, r = Ok a -> rfoot Q (k a)) -> rfoot Q (rbind r k).
Proof.
  intros Hr Hk. destruct r as [a|e]; simpl.
  - apply Hk. reflexivity.
  - intros e' [= <-]. apply Hr. reflexivity.
Qed.

Lemma rfoot_rfold {A B} Q (body : A -> B -> res A) xs acc :
  (forall a x, rfoot Q (body a x)) -> rfoot Q (rfold body xs acc).
Proof.
  intros Hb. revert acc. induction xs as [|x xs IH]; intros acc; simpl.
  - apply rfoot_ok.
  - apply rfoot_bind; [apply Hb | intros; apply IH].
Qed.

Lemma rfoot_rmap {A B} Q (f : A -> res B) xs :
  (forall x, rfoot Q (f x)) -> rfoot Q (rmap f xs).
Proof.
  intros Hf. induction xs as [|x xs IH]; simpl.
  - apply rfoot_ok.
  - apply rfoot_bind; [apply Hf | intros].
    apply rfoot_bind; [apply IH | intros; apply rfoot_ok].
Qed.

Lemma rfoot_weaken {A} (Q Q' : exn -> Prop) (r : res A) :
  (forall e, Q e -> Q' e) -> rfoot Q r -> rfoot Q' r.
Proof. intros HQ Hr e He. apply HQ, Hr, He. Qed.

Lemma mfoot_ret {A} P Q (a : A) : mfoot P Q (mret a).
Proof.
  intros s r s' [= <- <-]. split; [|apply rfoot_ok].
  exists []. rewrite app_nil_r. auto.
Qed.

Lemma mfoot_raise {A} P (Q : exn -> Prop) e : Q e -> mfoot P Q (@raise A e).
Proof.
  intros HQ s r s' [= <- <-]. split; [|apply rfoot_raise, HQ].
  exists []. rewrite app_nil_r. auto.
Qed.

Lemma mfoot_lift {A} P Q (r : res A) : rfoot Q r -> mfoot P Q (lift r).
Proof.
  intros Hr s r' s' [= <- <-]. split; [|exact Hr].
  exists []. rewrite app_nil_r. auto.
Qed.

Lemma mfoot_emit (P : event -> Prop) Q e : P e -> mfoot P Q (emit e).
Proof.
  intros HP s r s' [= <- <-]. split; [|apply rfoot_ok].
  exists [e]. simpl. auto.
Qed.

Lemma mfoot_get P Q : mfoot P Q get_scoreD.
Proof.
  intros s r s' [= <- <-]. split; [|apply rfoot_ok].
  exists []. rewrite app_nil_r. auto.
Qed.

Lemma mfoot_put P Q d : mfoot P Q (put_scoreD d).
Proof.
  intros s r s' [= <- <-]. split; [|apply rfoot_ok].
  exists []. simpl. rewrite app_nil_r. auto.
Qed.

Lemma mfoot_bind {A B} P Q (m : M A) (k : A -> M B) :
  mfoot P Q m -> (forall a, mfoot P Q (k a)) -> mfoot P Q (mbind m k).
Proof.
  intros Hm Hk s r s'. unfold mbind.
  destruct (m s) as [[a|e] s1] eqn:Em.
  - intros Ek. destruct (Hm _ _ _ Em) as [(evs1 & E1 & F1) _].
    destruct (Hk a _ _ _ Ek) as [(evs2 & E2 & F2) HQ]. split; [|exact HQ].
    exists (evs1 ++ evs2). rewrite E2, E1, app_assoc. split; [reflexivity|].
    apply Forall_app; auto.
  - intros [= <- <-]. destruct (Hm _ _ _ Em) as [Hev HQ]. split; [exact Hev|].
    apply rfoot_raise, HQ. reflexivity.
Qed.

Lemma mfoot_mfold {A B} P Q (body : A -> B -> M A) xs acc :
  (forall a x, mfoot P Q (body a x)) -> mfoot P Q (mfold body xs acc).
Proof.
  intros Hb. revert acc. induction xs as [|x xs IH]; intros acc; simpl.
  - apply mfoot_ret.
  - apply mfoot_bind; [apply Hb | intros; apply IH].
Qed.

Lemma mfoot_weaken {A} (P P' : event -> Prop) (Q Q' : exn -> Prop) (m : M A) :
  (forall e, P e -> P' e) -> (forall e, Q e -> Q' e) -> mfoot P Q m -> mfoot P' Q' m.
Proof.
  intros HP HQ Hm s r s' E. destruct (Hm _ _ _ E) as [(evs & E1 & F1) Hr]. split.
  - exists evs. split; [exact E1|]. eapply Forall_impl; eauto.
  - eapply rfoot_weaken; eauto.
Qed.

End Footprints.

Ltac foot_step :=
  first
    [ apply mfoot_ret
    | apply mfoot_get
    | apply mfoot_put
    | apply mfoot_bind; [|intros ?]
    | apply mfoot_emit
    | apply mfoot_lift
    | apply mfoot_raise
    | apply rfoot_ok
    | apply rfoot_raise
    | apply rfoot_bind; [|intros ? ?]
    | match goal with
      | |- mfoot _ _ (if ?c then _ else _) => destruct c
      | |- mfoot _ _ (match ?x with _ => _ end) => destruct x
      | |- mfoot _ _ (let '(_, _) := ?x in _) => destruct x
      | |- rfoot _ (if ?c then _ else _) => destruct c
      | |- rfoot _ (match ?x with _ => _ end) => destruct x
      end ].

Ltac foot := repeat foot_step; simpl; auto.

(** * What the optimizer emits and raises *)

Section OptimizerFootprints.
Context `{LinAlg}.
Variable py3 : bool.
Variable reclimit : nat.
Variable gs : GateSet.
Variable fidList : list gatestring.
Variable o : options.
Variable arrs : list matrix.

Lemma get_neighbor_foot w i : rfoot search_exn (get_neighbor w i).
Proof. unfold get_neighbor. foot. Qed.

Lemma select_columns_foot loc m : rfoot search_exn (select_columns loc m).
Proof.
  unfold select_columns. apply rfoot_rmap. intros row.
  apply rfoot_rmap. intros j. foot.
Qed.

Lemma select_fids_foot w : rfoot search_exn (select_fids fidList w).
Proof. unfold select_fids. apply rfoot_rmap. intros j. foot. Qed.

Lemma raw_score_foot w : rfoot search_exn (raw_score gs o arrs w).
Proof.
  unfold raw_score. apply rfoot_bind; [|intros; apply rfoot_ok].
  apply rfoot_rmap. intros m. apply select_columns_foot.
Qed.

Lemma compute_score_foot w c :
  mfoot scan_event search_exn (compute_score gs o arrs w c).
Proof.
  unfold compute_score. apply mfoot_bind.
  { destruct (forced_out o w); [apply mfoot_ret|].
    apply mfoot_bind; [apply mfoot_lift, raw_score_foot|intros s]. foot. }
  intros s. foot.
Qed.

Lemma lookup_score_foot key : mfoot scan_event search_exn (lookup_score key).
Proof. unfold lookup_score. foot. Qed.

Lemma neighbor_score_foot keys n :
  mfoot scan_event search_exn (neighbor_score py3 gs o arrs keys n).
Proof.
  unfold neighbor_score. apply mfoot_bind; [apply mfoot_get|intros d].
  destruct (if py3 then _ else _);
    [apply lookup_score_foot | apply compute_score_foot].
Qed.

Lemma scan_step_foot keys lwo w0 st i :
  mfoot scan_event search_exn (scan_step py3 gs o arrs keys lwo w0 st i).
Proof.
  unfold scan_step.
  apply mfoot_bind; [apply mfoot_lift, get_neighbor_foot|intros n].
  apply mfoot_bind; [apply neighbor_score_foot|intros s]. foot.
Qed.

Lemma rescan_step_foot w0 st i :
  mfoot scan_event search_exn (rescan_step w0 st i).
Proof.
  unfold rescan_step.
  apply mfoot_bind; [apply mfoot_lift, get_neighbor_foot|intros n].
  destruct (_ <? _)%nat; [|apply mfoot_ret].
  apply mfoot_bind; [apply lookup_score_foot|intros s].
  destruct (_ <? _)%float; [|apply mfoot_ret].
  apply mfoot_bind; [apply lookup_score_foot|intros s']. foot.
Qed.

Lemma scan_event_search e : scan_event e -> search_event e.
Proof. destruct e; simpl; tauto. Qed.

Lemma scan_foot_search {A} (m : M A) :
  mfoot scan_event search_exn m -> mfoot search_event search_exn m.
Proof. apply mfoot_weaken; auto using scan_event_search. Qed.

Lemma relax_foot s : rfoot search_exn (relax o s).
Proof. unfold relax, slack_of. foot. Qed.

Lemma iteration_foot lwo st :
  mfoot search_event search_exn (iteration py3 gs fidList o arrs lwo st).
Proof.
  unfold iteration. apply mfoot_bind; [apply mfoot_get|intros d].
  apply mfoot_bind;
    [apply mfoot_mfold; intros; apply scan_foot_search, scan_step_foot|intros st1].
  destruct (bFoundBetterNeighbor st1); [foot|].
  apply mfoot_bind; [apply mfoot_lift, relax_foot|intros r].
  apply mfoot_bind; [apply mfoot_emit; exact I|intros _].
  apply mfoot_bind;
    [apply mfoot_mfold; intros; apply scan_foot_search, rescan_step_foot|intros st3].
  foot.
Qed.

Lemma main_loop_foot n lwo st :
  mfoot search_event search_exn (main_loop py3 gs fidList o arrs n lwo st).
Proof.
  revert lwo st. induction n as [|n IH]; intros lwo st; simpl.
  - foot.
  - apply mfoot_bind; [apply iteration_foot|intros [[lwo' st'] broke]].
    destruct broke; [apply mfoot_ret|apply IH].
Qed.

Lemma local_search_foot :
  mfoot search_event search_exn (local_search py3 gs fidList o arrs).
Proof.
  unfold local_search. destruct (initialWeights o).
  all: apply mfoot_bind;
    [apply scan_foot_search, compute_score_foot|intros s; apply main_loop_foot].
Qed.

Lemma np_index_foot len i : rfoot fixed_exn (np_index len i).
Proof. unfold np_index. foot. Qed.

Lemma set_row_bits_foot mx c locs : rfoot fixed_exn (set_row_bits mx c locs).
Proof.
  unfold set_row_bits. destruct (mx !! c); [|foot].
  apply rfoot_bind; [|intros; apply rfoot_ok].
  apply rfoot_rmap. intros. apply np_index_foot.
Qed.

Lemma build_mx_foot fuel k diff prev i st :
  rfoot fixed_exn (build_mx fuel k diff prev i st).
Proof.
  revert prev i st. induction fuel as [|fuel IH]; intros prev i st; simpl.
  - foot.
  - destruct (i =? 0).
    + apply rfoot_bind; [apply set_row_bits_foot|intros; apply rfoot_ok].
    + destruct (last prev); [|foot].
      apply rfoot_rfold. intros. apply IH.
Qed.

Lemma build_bitvec_mx_foot n k : rfoot fixed_exn (build_bitvec_mx reclimit n k).
Proof.
  unfold build_bitvec_mx. destruct (n <? 0); [foot|].
  apply rfoot_bind; [|intros; apply rfoot_ok].
  apply rfoot_rfold. intros. apply build_mx_foot.
Qed.

Lemma fixed_num_step_foot best w :
  mfoot body_event body_exn (fixed_num_step gs fidList o arrs best w).
Proof.
  unfold fixed_num_step. destruct best as [bs bw].
  apply mfoot_bind.
  { eapply mfoot_weaken; [| |apply compute_score_foot]; unfold body_event, body_exn;
      auto using scan_event_search. }
  intros s. destruct (_ <? _)%float.
  - apply mfoot_bind.
    { apply mfoot_lift. eapply rfoot_weaken; [|apply select_fids_foot].
      unfold body_exn; auto. }
    intros bf. apply mfoot_bind.
    { apply mfoot_lift. eapply rfoot_weaken; [|apply select_fids_foot].
      unfold body_exn; auto. }
    intros tf. destruct (_ <? _)%nat; foot. right. exact I.
  - foot.
Qed.

Lemma fixed_num_search_foot n :
  mfoot body_event body_exn (fixed_num_search reclimit gs fidList o arrs n).
Proof.
  unfold fixed_num_search.
  repeat (apply mfoot_bind; [apply mfoot_emit; right; exact I|intros _]).
  apply mfoot_bind.
  { apply mfoot_lift. eapply rfoot_weaken; [|apply build_bitvec_mx_foot].
    unfold body_exn; auto. }
  intros rows. apply mfoot_bind; [apply mfoot_mfold; intros; apply fixed_num_step_foot|].
  intros best. apply mfoot_bind.
  { apply mfoot_lift. eapply rfoot_weaken; [|apply select_fids_foot].
    unfold body_exn; auto. }
  intros fids. foot.
Qed.

End OptimizerFootprints.

(** * The slack options at entry (C7) *)

Section Entry.
Context `{LinAlg}.
Variable py3 : bool.
Variable reclimit : nat.
Variable gs : GateSet.
Variable fidList : list gatestring.
Variable o : options.

Lemma fid_arrays_foot mode e : rfoot (fun e' => e' = e) (fid_arrays gs fidList mode e).
Proof. unfold fid_arrays. foot. Qed.

Lemma test_fiducial_list_foot mode sf thr :
  rfoot (fun e => e = invalid_mode) (test_fiducial_list gs fidList mode sf thr).
Proof.
  unfold test_fiducial_list. apply rfoot_bind; [apply fid_arrays_foot|].
  intros. apply rfoot_ok.
Qed.

Lemma body_exn_not_slack e : body_exn e -> not_slack_error e.
Proof.
  unfold body_exn, not_slack_error, slack_error.
  intros [He|He] ->; simpl in He; [exact He|discriminate].
Qed.

(** Past the entry check, nothing raises the slack error. *)
Lemma past_entry_no_slack_error s :
  xor [truthy (fixedSlack o); truthy (slackFrac o)] = true ->
  fst (optimize_integer_fiducials_slack py3 reclimit gs fidList o s) <> Raise slack_error.
Proof.
  intros Hx. unfold optimize_integer_fiducials_slack. rewrite Hx. simpl negb. cbv iota.
  match goal with |- fst (?m s) <> _ =>
    assert (F : mfoot (fun _ => True) not_slack_error m) end.
  { apply mfoot_bind.
    { apply mfoot_lift. eapply rfoot_weaken; [|apply test_fiducial_list_foot].
      intros e ->. unfold not_slack_error, invalid_mode, slack_error. discriminate. }
    intros t. apply mfoot_bind; [apply mfoot_emit; exact I|intros _].
    destruct (negb (fst (fst t))); [foot|].
    do 4 (apply mfoot_bind; [first [apply mfoot_emit; exact I|apply mfoot_put]|intros _]).
    apply mfoot_bind.
    { apply mfoot_lift. eapply rfoot_weaken; [|apply fid_arrays_foot].
      intros e ->. unfold not_slack_error, must_specify, slack_error. discriminate. }
    intros arrs. apply mfoot_bind; [apply mfoot_emit; exact I|intros _].
    destruct (fixedNum o) as [n|].
    - eapply mfoot_weaken; [| |apply fixed_num_search_foot]; auto using body_exn_not_slack.
    - apply mfoot_bind.
      { eapply mfoot_weaken; [| |apply local_search_foot]; auto.
        intros e He. apply body_exn_not_slack. left. exact He. }
      intros r.
      do 3 (apply mfoot_bind; [apply mfoot_emit; exact I|intros _]).
      apply mfoot_bind.
      { apply mfoot_lift. eapply rfoot_weaken; [|apply select_fids_foot].
        intros e He. apply body_exn_not_slack. left. exact He. }
      intros fids. foot. }
  destruct (_ s) as [r s'] eqn:E. destruct (F _ _ _ E) as [_ HQ].
  simpl. intros ->. apply (HQ slack_error); reflexivity.
Qed.

(** C7, as amended: the optimizer raises its configuration error exactly
    when the number of true values among [bool(fixedSlack)] and
    [bool(slackFrac)] is not one (a slack of [None] or of zero is false),
    and when it does, nothing has been scored, built or printed: the state
    is the one the call started in. *)
Theorem slack_error_iff_truth_values s :
  (fst (optimize_integer_fiducials_slack py3 reclimit gs fidList o s) = Raise slack_error
   <-> xor [truthy (fixedSlack o); truthy (slackFrac o)] = false)
  /\ (fst (optimize_integer_fiducials_slack py3 reclimit gs fidList o s) = Raise slack_error
      -> snd (optimize_integer_fiducials_slack py3 reclimit gs fidList o s) = s).
Proof.
  assert (R : xor [truthy (fixedSlack o); truthy (slackFrac o)] = false ->
              optimize_integer_fiducials_slack py3 reclimit gs fidList o s
              = (Raise slack_error, s)).
  { intros Hx. unfold optimize_integer_fiducials_slack. rewrite Hx. reflexivity. }
  assert (L : fst (optimize_integer_fiducials_slack py3 reclimit gs fidList o s)
              = Raise slack_error ->
              xor [truthy (fixedSlack o); truthy (slackFrac o)] = false).
  { intros Hr. destruct (xor _) eqn:Hx; [|reflexivity].
    exfalso. eapply past_entry_no_slack_error; eauto. }
  split.
  - split; [exact L|]. intros Hx. rewrite (R Hx). reflexivity.
  - intros Hr. rewrite (R (L Hr)). reflexivity.
Qed.

End Entry.

(** * Concrete runs *)

Section Runs.
Local Existing Instance diag_linalg.
Local Open Scope float_scope.

Ltac run_facts := vm_compute; repeat split; try reflexivity; try discriminate;
  try (intros Hin; repeat (destruct Hin as [Hin|Hin]; [discriminate Hin|]); exact Hin).

(** C1 (evaluated where the code departs from it): with [fixedSlack = 1]
    configured and the all-ones vector of score 1.6 rejecting every
    neighbour, the threshold for the cached re-scan becomes
    1.6 + (1.6 + 1) = 4.2 and not 1.6 + 1 = 2.6; the neighbour of score 4,
    which the documented threshold rejects, is accepted and returned. *)
Theorem fixed_slack_relaxation_counts_score_twice (py3 : bool) (reclimit : nat) :
  let o := set_fixedSlack (Some 1) prep_options in
  let arrs := make_prep_mxs gs_half fids_pair in
  let run := optimize_integer_fiducials_slack py3 reclimit gs_half fids_pair o fresh in
  score_of gs_half o arrs [true; true] = Ok 1.6000000000000001
  /\ score_of gs_half o arrs [true; false] = Ok 4
  /\ relax o 1.6000000000000001 = Ok 4.2000000000000002
  /\ 1.6000000000000001 + 1 = 2.6000000000000001
  /\ (4 <? 2.6000000000000001) = false
  /\ In (Relaxing 1.6000000000000001 4.2000000000000002) (events (snd run))
  /\ In (FoundBetter 1 4) (events (snd run))
  /\ fst run = Ok (RFids [[]]).
Proof.
  destruct py3; vm_compute; repeat split; auto 20.
Qed.

(** C3 (evaluated where the code departs from it): threshold 3, full list
    of score 1.6.  The search ends on the subset made of the empty sequence,
    whose own score is 4 and fails the test, and still prints the success
    line and no warning. *)
Theorem final_message_repeats_initial_test (py3 : bool) (reclimit : nat) :
  let o := set_threshold 3 (set_slackFrac (Some 2) prep_options) in
  let run := optimize_integer_fiducials_slack py3 reclimit gs_half fids_pair o fresh in
  fst run = Ok (RFids [[]])
  /\ test_fiducial_list gs_half [[]] (Some "prep"%string) score_all 3
     = Ok (false, [0.25], 4)
  /\ last (events (snd run)) = Some (Printed "Final fiducial set succeeds.")
  /\ ~ In (Printed "WARNING: Final fiducial set FAILS.") (events (snd run)).
Proof.
  destruct py3; run_facts.
Qed.

(** C5 (evaluated where the code departs from it): on the empty candidate
    list the score is 0 * infinity = NaN, which passes all three
    comparisons, and the list is reported complete. *)
Theorem empty_list_is_reported_complete (sf : score_func) :
  test_fiducial_list gs_unit [] (Some "prep"%string) sf 1e6 = Ok (true, [0], nan)
  /\ test_verdict nan 1e6 = true.
Proof.
  destruct sf; vm_compute; split; reflexivity.
Qed.

(** C7, refuted as stated: [fixedSlack = 0.0] alone is one supplied option
    and raises the configuration error; [fixedSlack = 0.0] together with
    [slackFrac = 0.5] is two supplied options and raises nothing. *)
Lemma zero_slack_counts_as_absent :
  let o1 := set_fixedSlack (Some 0) prep_options in
  let o2 := set_slackFrac (Some 0.5) (set_fixedSlack (Some 0) prep_options) in
  (fixedSlack o1 = Some 0 /\ slackFrac o1 = None
   /\ fst (optimize_integer_fiducials_slack true 1000 gs_unit fids_pair o1 fresh)
      = Raise slack_error)
  /\ (fixedSlack o2 = Some 0 /\ slackFrac o2 = Some 0.5
      /\ fst (optimize_integer_fiducials_slack true 1000 gs_unit fids_pair o2 fresh)
         = Ok (RFids [[]])).
Proof.
  vm_compute. repeat split.
Qed.

(** C2, refuted as stated: on the empty candidate list (all defaults, force
    empty on) [test_fiducial_list] computes the score NaN and lets the
    search start; [compute_score] then gives the all-ones vector, which is
    the empty vector, the forced score 1e100. *)
Lemma all_ones_score_differs_on_empty_list :
  let o := set_slackFrac (Some 1) prep_options in
  let run := optimize_integer_fiducials_slack true 1000 gs_unit [] o fresh in
  test_fiducial_list gs_unit [] (prepOrMeas o) (scoreFunc o) (threshold o)
  = Ok (true, [0], nan)
  /\ score_of gs_unit o (make_prep_mxs gs_unit []) (all_ones 0) = Ok 1e100
  /\ scoreD (snd run) !! all_ones 0 = Some 1e100
  /\ (nan =? 1e100) = false.
Proof.
  vm_compute. repeat split.
Qed.

(** C8, refuted as stated: columns 1 and 0.5 under the [all] aggregation.
    Both fiducials score 2 * (1 / 1.25) = 1.6; with bit 1 cleared the score
    is 1 * (1 / 1) = 1, strictly smaller. *)
Lemma removing_a_fiducial_can_lower_the_score :
  let o := set_slackFrac (Some 1) prep_options in
  let arrs := make_prep_mxs gs_unit fids_pair in
  scoreFunc o = score_all
  /\ [true; true] !! 1%nat = Some true
  /\ score_of gs_unit o arrs [true; true] = Ok 1.6000000000000001
  /\ score_of gs_unit o arrs (<[1%nat := false]> [true; true]) = Ok 1
  /\ (1.6000000000000001 <=? 1) = false
  /\ (1 <? 1.6000000000000001) = true.
Proof.
  vm_compute. repeat split.
Qed.

(** C4, refuted as stated: an identity gate makes both subsets score 1.
    From all ones, with [maxIter = 3] and [slackFrac = 1], the search stops
    at the stationary point [1, 0].  Started again from [1, 0] it is allowed
    to grow, accepts a move in each of its three iterations, runs out of
    iterations and returns the other subset. *)
Lemma rerun_from_stationary_point_moves :
  let o := set_returnAll true (set_maxIter 3 (set_slackFrac (Some 1) prep_options)) in
  let run1 := optimize_integer_fiducials_slack true 1000 gs_idle fids_idle o fresh in
  let run2 := optimize_integer_fiducials_slack true 1000 gs_idle fids_idle
                (set_initialWeights (Some [true; false]) o) fresh in
  match fst run1, fst run2 with
  | Ok (RAll fids1 w1 _), Ok (RAll fids2 w2 _) =>
      w1 = [true; false] /\ fids1 = [[]]
      /\ In (Logged "Stationary point found!") (events (snd run1))
      /\ w2 = [true; true] /\ fids2 = [[]; ["Gi"%string]]
      /\ In (Logged "Hit max. iterations") (events (snd run2))
      /\ In (FoundBetter 2 1) (events (snd run2))
  | _, _ => False
  end.
Proof.
  vm_compute. repeat split; auto 20.
Qed.

(** C9, refuted as stated: three single-sequence candidates of lengths 3, 2
    and 1 scoring 1, 1.000000009 and 1.000000018.  Each is within 1e-8 of
    the one before and shorter, so the pass switches twice and returns the
    third; the first scores strictly less and is not within 1e-8 of it. *)
Lemma near_ties_chain_away_from_minimum :
  let o := set_fixedNum (Some 1%Z) (set_forceEmpty false
             (set_slackFrac (Some 1) prep_options)) in
  let run := optimize_integer_fiducials_slack true 1000 gs_chain fids_chain o fresh in
  fst run = Ok (RFids [["Gb"%string]])
  /\ scoreD (snd run) !! [true; false; false] = Some 1
  /\ scoreD (snd run) !! [false; true; false] = Some 1.0000000090000001
  /\ scoreD (snd run) !! [false; false; true] = Some 1.0000000180000002
  /\ tied 1.0000000180000002 1 = false
  /\ (1 <? 1.0000000180000002) = true.
Proof.
  vm_compute. repeat split.
Qed.

End Runs.

(** * build_bitvec_mx (C6) *)

Section BitVectors.

Lemma rbind_ret {A} (r : res A) : rbind r Ok = r.
Proof. destruct r; reflexivity. Qed.

Lemma rfold_ext {A B} (f g : A -> B -> res A) xs acc :
  (forall a x, f a x = g a x) -> rfold f xs acc = rfold g xs acc.
Proof.
  intros E. revert acc. induction xs as [|x xs IH]; intros acc; simpl; [reflexivity|].
  rewrite E. destruct (g acc x); simpl; auto.
Qed.

Lemma rfold_app {A B} (f : A -> B -> res A) xs ys acc :
  rfold f (xs ++ ys) acc = rbind (rfold f xs acc) (rfold f ys).
Proof.
  revert acc. induction xs as [|x xs IH]; intros acc; simpl; [reflexivity|].
  destruct (f acc x); simpl; auto.
Qed.

Lemma rfold_flat_map {A B C} (f : A -> B -> res A) (g : C -> list B) xs acc :
  rfold f (flat_map g xs) acc = rfold (fun a x => rfold f (g x) a) xs acc.
Proof.
  revert acc. induction xs as [|x xs IH]; intros acc; simpl; [reflexivity|].
  rewrite rfold_app. destruct (rfold f (g x) acc); simpl; auto.
Qed.

Lemma range_nil lo hi : hi <= lo -> range lo hi = [].
Proof. intros Hle. unfold range. replace (Z.to_nat (hi - lo)) with 0%nat by lia. reflexivity. Qed.

Lemma range_cons lo hi : lo < hi -> range lo hi = lo :: range (lo + 1) hi.
Proof.
  intros Hlt. unfold range.
  replace (Z.to_nat (hi - lo)) with (S (Z.to_nat (hi - (lo + 1)))) by lia.
  simpl. f_equal; [lia|].
  rewrite <- seq_shift, map_map. apply map_ext. intros j. lia.
Qed.

(** ** Weight 0: the recursion never reaches its base case *)

Lemma build_mx_below_zero fuel k diff prev l i st :
  i < 0 -> last prev = Some l -> l < diff + k - i ->
  build_mx fuel k diff prev i st = Raise RecursionError.
Proof.
  revert prev l i st. induction fuel as [|fuel IH]; intros prev l i st Hi Hl Hb; simpl.
  - reflexivity.
  - destruct (Z.eqb_spec i 0); [lia|]. rewrite Hl.
    rewrite range_cons by lia. simpl.
    rewrite (IH _ (1 + l)); [reflexivity|lia|apply last_snoc|lia].
Qed.

(** C6 (evaluated where the code departs from it): for weight 0 and any
    length [n >= 0], whatever the recursion allowance, [build_bitvec_mx]
    raises RecursionError instead of returning the single all-zero row. *)
Theorem build_bitvec_mx_weight_zero_overflows (reclimit n : nat) :
  build_bitvec_mx reclimit (Z.of_nat n) 0 = Raise RecursionError
  /\ binom (Z.of_nat n) 0 = 1.
Proof.
  split.
  - unfold build_bitvec_mx. destruct (Z.ltb_spec (Z.of_nat n) 0); [lia|].
    rewrite range_cons by lia. simpl.
    rewrite (build_mx_below_zero _ _ _ _ 0); [reflexivity|lia|reflexivity|lia].
  - unfold binom. replace (Z.to_nat 0) with 0%nat by reflexivity.
    destruct (Z.leb_spec 0 (Z.of_nat n)); [|lia]. simpl.
    destruct (Z.to_nat (Z.of_nat n)); reflexivity.
Qed.

(** ** The loops and Pascal's rule give the same tuples *)

Lemma combs_empty m i lo : (m < i)%nat -> combs m i lo = [].
Proof.
  revert i lo. induction m as [|m IH]; intros i lo Hlt; destruct i as [|i]; simpl;
    try lia; try reflexivity.
  rewrite !IH by lia. reflexivity.
Qed.

Lemma loop_combs_combs i : forall m lo,
  loop_combs (lo + Z.of_nat m) i lo = combs m i lo.
Proof.
  induction i as [|i IHi]; intros m lo.
  - destruct m; reflexivity.
  - induction m as [|m IHm] in lo |- *.
    + simpl. rewrite range_nil by lia. reflexivity.
    + destruct (le_lt_dec i m) as [Hle|Hgt].
      * cbn [loop_combs combs]. rewrite range_cons by lia. cbn [flat_map].
        f_equal.
        -- f_equal. replace (lo + Z.of_nat (S m)) with ((lo + 1) + Z.of_nat m) by lia.
           apply IHi.
        -- specialize (IHm (lo + 1)). cbn [loop_combs] in IHm.
           replace (lo + 1 + Z.of_nat m) with (lo + Z.of_nat (S m)) in IHm by lia.
           exact IHm.
      * cbn [loop_combs]. rewrite range_nil by lia.
        rewrite combs_empty by lia. reflexivity.
Qed.

Lemma length_combs m : forall i lo, length (combs m i lo) = choose m i.
Proof.
  induction m as [|m IH]; intros i lo; destruct i as [|i]; simpl; try reflexivity.
  rewrite length_app, length_map, !IH. reflexivity.
Qed.

Lemma combs_spec m : forall i lo locs,
  In locs (combs m i lo) ->
  length locs = i /\ increasing_from lo locs /\ Forall (fun x => x < lo + Z.of_nat m) locs.
Proof.
  induction m as [|m IH]; intros i lo locs; destruct i as [|i]; simpl.
  - intros [<-|[]]. simpl. repeat split; auto using Forall_nil.
  - intros [].
  - intros [<-|[]]. simpl. repeat split; auto using Forall_nil.
  - rewrite in_app_iff, in_map_iff. intros [(t & <- & Ht)|Hin].
    + destruct (IH _ _ _ Ht) as (Hlen & Hinc & Hb). simpl. repeat split; auto; try lia.
      constructor; [lia|]. eapply Forall_impl; [exact Hb|]. simpl. intros; lia.
    + destruct (IH _ _ _ Hin) as (Hlen & Hinc & Hb). repeat split; auto.
      * destruct locs as [|x t]; [discriminate|]. simpl in *. split; [lia|tauto].
      * eapply Forall_impl; [exact Hb|]. simpl. intros; lia.
Qed.

Lemma combs_sorted m : forall i lo, StronglySorted lex_lt (combs m i lo).
Proof.
  induction m as [|m IH]; intros i lo; destruct i as [|i]; simpl;
    try (repeat constructor).
  apply StronglySorted_app_2.
  - intros x y Hx Hy. apply list_elem_of_In in Hx, Hy.
    apply in_map_iff in Hx as (t & <- & Ht).
    destruct (combs_spec _ _ _ _ Hy) as (Hlen & Hinc & _).
    destruct y as [|h u]; [discriminate|]. simpl in Hinc.
    apply lex_lt_head. lia.
  - specialize (IH i (lo + 1)). induction IH as [|t l Hs IHs Hf]; simpl; constructor; auto.
    rewrite Forall_forall in *. intros y Hy.
    apply list_elem_of_In, in_map_iff in Hy as (u & <- & Hu).
    apply lex_lt_tail, Hf, list_elem_of_In, Hu.
  - apply IH.
Qed.

(** ** The recursion writes one row per tuple *)

Lemma build_mx_loop_combs (n k : Z) i : forall fuel prev l st,
  (i < fuel)%nat -> last prev = Some l ->
  build_mx fuel k (n - k) prev (Z.of_nat i) st
  = rfold write_row (map (app prev) (loop_combs n i (l + 1))) st.
Proof.
  induction i as [|i IH]; intros fuel prev l st Hf Hl;
    (destruct fuel as [|fuel]; [lia|]).
  - simpl. rewrite app_nil_r. unfold write_row. destruct (set_row_bits _ _ _); reflexivity.
  - cbn [build_mx]. destruct (Z.eqb_spec (Z.of_nat (S i)) 0); [lia|]. rewrite Hl.
    cbn [loop_combs].
    replace (1 + l) with (l + 1) by lia.
    replace (n - k + (k - Z.of_nat (S i)) + 1) with (n - Z.of_nat (S i) + 1) by lia.
    rewrite flat_map_concat_map, concat_map, map_map, <- flat_map_concat_map.
    rewrite rfold_flat_map. apply rfold_ext. intros a b.
    replace (Z.of_nat (S i) - 1) with (Z.of_nat i) by lia.
    rewrite (IH fuel (prev ++ [b]) b) by (try lia; apply last_snoc).
    rewrite map_map. f_equal. apply map_ext. intros t. rewrite <- app_assoc. reflexivity.
Qed.

Lemma np_index_in_range len x :
  0 <= x < Z.of_nat len -> np_index len x = Ok (Z.to_nat x).
Proof.
  intros Hx. unfold np_index.
  destruct (Z.leb_spec 0 x); [|lia]. destruct (Z.ltb_spec x (Z.of_nat len)); [|lia].
  reflexivity.
Qed.

Lemma rmap_np_index len locs :
  Forall (fun x => 0 <= x < Z.of_nat len) locs ->
  rmap (np_index len) locs = Ok (map Z.to_nat locs).
Proof.
  induction 1 as [|x locs Hx _ IH]; simpl; [reflexivity|].
  rewrite np_index_in_range by exact Hx. simpl. rewrite IH. reflexivity.
Qed.

Lemma write_rows n (L : list (list Z)) : forall (done : bitmx) (r : nat),
  Forall (Forall (fun x => 0 <= x < Z.of_nat n)) L ->
  (length L <= r)%nat ->
  rfold write_row L (done ++ replicate r (replicate n false), length done)
  = Ok (done ++ map (indicator n) L ++ replicate (r - length L) (replicate n false),
        (length done + length L)%nat).
Proof.
  induction L as [|locs L IH]; intros done r HL Hr; simpl.
  - rewrite Nat.sub_0_r, Nat.add_0_r. reflexivity.
  - destruct r as [|r]; [simpl in Hr; lia|].
    inversion HL as [|? ? Hlocs HL']; subst.
    unfold bitmx in *.
    unfold write_row at 1. cbn [fst snd]. unfold set_row_bits. cbn [replicate].
    rewrite (list_lookup_middle done _ (replicate n false) (length done) eq_refl).
    rewrite length_replicate, rmap_np_index by exact Hlocs. cbn [rbind].
    replace (<[length done := _]> (done ++ replicate n false :: replicate r (replicate n false)))
      with (done ++ indicator n locs :: replicate r (replicate n false)).
    2:{ replace (length done) with (length done + 0)%nat at 1 by lia.
        rewrite (insert_app_r done). reflexivity. }
    specialize (IH (done ++ [indicator n locs]) r HL' ltac:(simpl in Hr; lia)).
    rewrite length_app in IH. simpl in IH.
    rewrite <- !app_assoc in IH. simpl in IH.
    replace (S (length done)) with (length done + 1)%nat by lia.
    refine (eq_trans IH _). cbn [Nat.sub]. f_equal. f_equal. lia.
Qed.

(** ** The ones of an indicator row *)

Lemma popcount_where off w : popcount w = length (where_from off w).
Proof.
  unfold popcount. revert off. induction w as [|b w IH]; intros off; [reflexivity|].
  destruct b.
  - rewrite filter_cons_True by reflexivity. simpl. f_equal. apply IH.
  - rewrite filter_cons_False by discriminate. simpl. apply IH.
Qed.

Lemma where_from_no_ones off w :
  (forall j, w !! j <> Some true) -> where_from off w = [].
Proof.
  revert off. induction w as [|b w IH]; intros off Hw; [reflexivity|].
  destruct b; [exfalso; apply (Hw 0%nat); reflexivity|].
  simpl. apply IH. intros j. apply (Hw (S j)).
Qed.

Lemma where_from_set_beyond w : forall off j,
  (j < length w)%nat ->
  (forall j', (j <= j')%nat -> w !! j' <> Some true) ->
  where_from off (<[j := true]> w) = where_from off w ++ [(off + j)%nat].
Proof.
  induction w as [|b w IH]; intros off j Hj Hw; [simpl in Hj; lia|].
  destruct j as [|j].
  - destruct b; [exfalso; apply (Hw 0%nat); [lia|reflexivity]|].
    simpl. rewrite where_from_no_ones; [simpl; f_equal; lia|].
    intros j. apply (Hw (S j)). lia.
  - simpl in Hj. simpl.
    rewrite (IH (S off) j) by (try lia; intros j' Hj'; apply (Hw (S j')); lia).
    replace (S off + j)%nat with (off + S j)%nat by lia.
    destruct b; reflexivity.
Qed.

Lemma where_set_increasing js : forall lo w,
  increasing_nat_from lo js ->
  Forall (fun j => (j < length w)%nat) js ->
  (forall j, (lo <= j)%nat -> w !! j <> Some true) ->
  where_ (fold_left (fun r j => <[j := true]> r) js w) = where_ w ++ js.
Proof.
  induction js as [|j js IH]; intros lo w Hinc Hlen Hw; simpl.
  - rewrite app_nil_r. reflexivity.
  - destruct Hinc as [Hlo Hinc]. inversion Hlen as [|? ? Hj Hlen']; subst.
    rewrite (IH (S j)).
    + unfold where_. rewrite where_from_set_beyond; [|exact Hj|].
      * rewrite <- app_assoc. reflexivity.
      * intros j' Hj'. apply Hw. lia.
    + exact Hinc.
    + rewrite length_insert. exact Hlen'.
    + intros j' Hj'. rewrite list_lookup_insert_ne by lia. apply Hw. lia.
Qed.

Lemma increasing_to_nat locs : forall lo,
  0 <= lo -> increasing_from lo locs ->
  increasing_nat_from (Z.to_nat lo) (map Z.to_nat locs)
  /\ map Z.of_nat (map Z.to_nat locs) = locs.
Proof.
  induction locs as [|x locs IH]; intros lo Hlo Hinc; simpl; [auto|].
  destruct Hinc as [Hx Hinc]. destruct (IH (x + 1) ltac:(lia) Hinc) as [H1 H2].
  repeat split; [lia| |].
  - replace (S (Z.to_nat x)) with (Z.to_nat (x + 1)) by lia. exact H1.
  - rewrite H2. f_equal. lia.
Qed.

Lemma length_indicator n locs : length (indicator n locs) = n.
Proof.
  unfold indicator. generalize (map Z.to_nat locs) as js.
  assert (G : forall js w, length (fold_left (fun r j => <[j := true]> r) js w) = length w).
  { induction js as [|j js IH]; intros w; simpl; [reflexivity|].
    rewrite IH, length_insert. reflexivity. }
  intros js. rewrite G, length_replicate. reflexivity.
Qed.

Lemma increasing_from_lower lo locs :
  increasing_from lo locs -> Forall (fun x => lo <= x) locs.
Proof.
  revert lo. induction locs as [|x locs IH]; intros lo Hinc; constructor.
  - apply Hinc.
  - destruct Hinc as [Hx Hinc]. eapply Forall_impl; [apply (IH _ Hinc)|].
    simpl. intros; lia.
Qed.

Lemma one_positions_indicator n locs :
  increasing_from 0 locs -> Forall (fun x => x < Z.of_nat n) locs ->
  one_positions (indicator n locs) = locs.
Proof.
  intros Hinc Hlt. destruct (increasing_to_nat locs 0 ltac:(lia) Hinc) as [Hn Hback].
  pose proof (increasing_from_lower _ _ Hinc) as Hlow.
  unfold one_positions, indicator.
  rewrite (where_set_increasing _ 0%nat).
  - unfold where_. rewrite where_from_no_ones; [exact Hback|].
    intros j. rewrite lookup_replicate. intros [? _]. discriminate.
  - exact Hn.
  - rewrite length_replicate. clear Hn Hback Hinc.
    induction locs as [|x locs IH]; simpl; constructor.
    + inversion Hlt; inversion Hlow; subst. lia.
    + inversion Hlt; inversion Hlow; subst. auto.
  - intros j _. rewrite lookup_replicate. intros [? _]. discriminate.
Qed.

Lemma lex_lt_irrefl l : ~ lex_lt l l.
Proof.
  induction l as [|x l IH]; intros Hl; inversion Hl; subst; [lia|auto].
Qed.

Lemma StronglySorted_lex_NoDup (L : list (list Z)) :
  StronglySorted lex_lt L -> NoDup L.
Proof.
  induction 1 as [|x L HS IH HF]; constructor; auto.
  intros Hin. rewrite Forall_forall in HF. apply (lex_lt_irrefl x), HF, Hin.
Qed.

(** For a weight between 1 and the length, and a recursion allowance of at
    least the weight, [build_bitvec_mx] returns the indicator rows of the
    position tuples in lexicographic order. *)
Lemma build_bitvec_mx_rows (reclimit n k : nat) :
  (1 <= k <= n)%nat -> (k <= reclimit)%nat ->
  build_bitvec_mx reclimit (Z.of_nat n) (Z.of_nat k)
  = Ok (map (indicator n) (combs n k 0)).
Proof.
  intros Hk Hf. unfold build_bitvec_mx.
  destruct (Z.ltb_spec (Z.of_nat n) 0); [lia|].
  assert (Hb : binom (Z.of_nat n) (Z.of_nat k) = Z.of_nat (choose n k)).
  { unfold binom. destruct (Z.leb_spec 0 (Z.of_nat k)); [|lia].
    destruct (Z.leb_spec (Z.of_nat k) (Z.of_nat n)); [|lia].
    simpl. rewrite !Nat2Z.id. reflexivity. }
  rewrite Hb, !Nat2Z.id.
  destruct k as [|k]; [lia|].
  erewrite rfold_ext.
  2:{ intros a b. replace (Z.of_nat (S k) - 1) with (Z.of_nat k) by lia.
      apply (build_mx_loop_combs (Z.of_nat n) (Z.of_nat (S k)) k reclimit [b] b a);
        [lia|reflexivity]. }
  rewrite <- (rfold_flat_map write_row
               (fun b => map (app [b]) (loop_combs (Z.of_nat n) k (b + 1)))).
  change (flat_map _ (range 0 (Z.of_nat n - Z.of_nat (S k) + 1)))
    with (loop_combs (Z.of_nat n) (S k) 0).
  pose proof (loop_combs_combs (S k) n 0) as Hc. rewrite Z.add_0_l in Hc. rewrite Hc.
  pose proof (write_rows n (combs n (S k) 0) [] (choose n (S k))) as Hw.
  rewrite length_combs, Nat.sub_diag in Hw. simpl in Hw. rewrite app_nil_r in Hw.
  unfold bitmx in *. rewrite Hw; [reflexivity| |lia].
  rewrite Forall_forall. intros locs Hin. apply list_elem_of_In in Hin.
  destruct (combs_spec _ _ _ _ Hin) as (_ & Hinc & Hlt).
  pose proof (increasing_from_lower _ _ Hinc) as Hlow.
  clear -Hlt Hlow. induction locs; constructor;
    inversion Hlt; inversion Hlow; subst; [lia|auto].
Qed.

Lemma map_one_positions_combs n k :
  map one_positions (map (indicator n) (combs n k 0)) = combs n k 0.
Proof.
  rewrite map_map. rewrite <- (map_id (combs n k 0)) at 2.
  apply map_ext_in. intros locs Hin.
  destruct (combs_spec _ _ _ _ Hin) as (_ & Hinc & Hlt).
  apply one_positions_indicator; [exact Hinc|].
  eapply Forall_impl; [exact Hlt|]. simpl. intros; lia.
Qed.

(** The part of C6 the code meets: for every length [n] and weight [k] with
    1 <= k <= n (and a recursion allowance of at least [k] nested calls),
    [build_bitvec_mx] returns exactly C(n,k) rows, each of length [n] with
    exactly [k] ones, without duplicates, and the rows' tuples of one
    positions come in strictly increasing lexicographic order. *)
Theorem build_bitvec_mx_enumerates (reclimit n k : nat) :
  (1 <= k <= n)%nat -> (k <= reclimit)%nat ->
  exists rows,
    build_bitvec_mx reclimit (Z.of_nat n) (Z.of_nat k) = Ok rows
    /\ length rows = choose n k
    /\ Forall (fun row => length row = n /\ popcount row = k) rows
    /\ NoDup rows
    /\ StronglySorted lex_lt (map one_positions rows).
Proof.
  intros Hk Hf. exists (map (indicator n) (combs n k 0)).
  split; [apply build_bitvec_mx_rows; assumption|].
  split; [rewrite length_map; apply length_combs|].
  split; [|split].
  - rewrite Forall_forall. intros row Hrow.
    apply list_elem_of_In, in_map_iff in Hrow as (locs & <- & Hin).
    split; [apply length_indicator|].
    destruct (combs_spec _ _ _ _ Hin) as (Hlen & Hinc & Hlt).
    rewrite (popcount_where 0).
    change (where_from 0 (indicator n locs)) with (where_ (indicator n locs)).
    rewrite <- (length_map Z.of_nat).
    change (map Z.of_nat (where_ (indicator n locs))) with (one_positions (indicator n locs)).
    rewrite one_positions_indicator; [exact Hlen|exact Hinc|].
    eapply Forall_impl; [exact Hlt|]. simpl. intros; lia.
  - apply (NoDup_fmap_1 one_positions).
    change (NoDup (map one_positions (map (indicator n) (combs n k 0)))).
    rewrite map_one_positions_combs.
    apply StronglySorted_lex_NoDup, combs_sorted.
  - rewrite map_one_positions_combs. apply combs_sorted.
Qed.

Lemma build_bitvec_mx_enumerates_witness :
  ((1 <= 2 <= 4)%nat /\ (2 <= 10)%nat)
  /\ exists rows,
       build_bitvec_mx 10 4 2 = Ok rows
       /\ length rows = 6%nat
       /\ Forall (fun row => length row = 4%nat /\ popcount row = 2%nat) rows
       /\ NoDup rows
       /\ StronglySorted lex_lt (map one_positions rows).
Proof.
  split; [lia|]. apply (build_bitvec_mx_enumerates 10 4 2); lia.
Defined.

End BitVectors.

(** * The score of a weight vector (C2) *)

Section ScoreFacts.
Context `{LinAlg}.
Variable gs : GateSet.
Variable fidList : list gatestring.
Variable o : options.

Lemma fid_arrays_ok_any mode e e' arrs :
  fid_arrays gs fidList mode e = Ok arrs -> fid_arrays gs fidList mode e' = Ok arrs.
Proof.
  unfold fid_arrays. destruct (mode_is mode "prep"); [auto|].
  destruct (mode_is mode "meas"); [auto|discriminate].
Qed.

Lemma length_mx_of_columns_row d cols row :
  In row (mx_of_columns d cols) -> length row = length cols.
Proof.
  unfold mx_of_columns. rewrite in_map_iff. intros (r & <- & _). apply length_map.
Qed.

(** Every array of [fid_arrays] has one column per fiducial. *)
Lemma fid_arrays_width mode e arrs m row :
  fid_arrays gs fidList mode e = Ok arrs -> In m arrs -> In row m ->
  length row = length fidList.
Proof.
  unfold fid_arrays, make_prep_mxs, make_meas_mxs.
  destruct (mode_is mode "prep"); [|destruct (mode_is mode "meas"); [|discriminate]].
  all: intros [= <-]; rewrite in_map_iff; intros (v & <- & _) Hrow.
  all: apply length_mx_of_columns_row in Hrow; rewrite Hrow; apply length_map.
Qed.

Lemma where_from_all_ones n off : where_from off (replicate n true) = seq off n.
Proof.
  revert off. induction n as [|n IH]; intros off; simpl; [reflexivity|].
  rewrite IH. reflexivity.
Qed.

Lemma popcount_all_ones n : popcount (all_ones n) = n.
Proof.
  unfold all_ones. rewrite (popcount_where 0), where_from_all_ones. apply length_seq.
Qed.

Lemma rmap_lookup_all (row pre : list float) :
  rmap (fun j => match (pre ++ row) !! j with
                 | Some x => Ok x
                 | None => Raise IndexError
                 end) (seq (length pre) (length row)) = Ok row.
Proof.
  revert pre. induction row as [|x row IH]; intros pre; simpl; [reflexivity|].
  rewrite (list_lookup_middle pre row x (length pre) eq_refl). simpl.
  specialize (IH (pre ++ [x])). rewrite length_app in IH. simpl in IH.
  rewrite Nat.add_1_r, <- app_assoc in IH. simpl in IH. rewrite IH. reflexivity.
Qed.

Lemma rmap_id_on {A} (f : A -> res A) (xs : list A) :
  (forall x, In x xs -> f x = Ok x) -> rmap f xs = Ok xs.
Proof.
  induction xs as [|x xs IH]; intros Hf; simpl; [reflexivity|].
  rewrite Hf by (left; reflexivity). simpl. rewrite IH; [reflexivity|].
  intros y Hy. apply Hf. right. exact Hy.
Qed.

Lemma select_all_columns n (m : matrix) :
  (forall row, In row m -> length row = n) ->
  select_columns (seq 0 n) m = Ok m.
Proof.
  intros Hm. unfold select_columns. apply rmap_id_on. intros row Hrow.
  rewrite <- (Hm row Hrow). apply (rmap_lookup_all row []).
Qed.

Lemma raw_score_aggregate arrs wts :
  raw_score gs o arrs wts
  = try a <- aggregate gs o arrs wts; Ok (float_of_nat (popcount wts) * a)%float.
Proof.
  unfold raw_score, aggregate. destruct (rmap _ arrs); reflexivity.
Qed.

Lemma score_of_parts arrs wts :
  score_of gs o arrs wts
  = if forced_out o wts then Ok (forceEmptyScore o)
    else try a <- aggregate gs o arrs wts;
         Ok (clamp (float_of_nat (popcount wts) * a)%float).
Proof.
  unfold score_of. rewrite raw_score_aggregate.
  destruct (forced_out o wts); [reflexivity|].
  destruct (aggregate gs o arrs wts); reflexivity.
Qed.

Lemma forced_out_all_ones :
  fidList <> [] \/ forceEmpty o = false ->
  forced_out o (all_ones (length fidList)) = false.
Proof.
  unfold forced_out. intros [Hne| ->]; [|reflexivity].
  destruct fidList; [congruence|]. simpl. apply andb_false_r.
Qed.

Lemma map_abs_id (spectrum : list float) :
  Forall (fun x => abs x = x) spectrum -> map abs spectrum = spectrum.
Proof. induction 1 as [|x l Hx _ IH]; simpl; [reflexivity|]. rewrite Hx, IH. reflexivity. Qed.

(** C2, as amended: when the candidate list is not empty (or force-empty is
    off), the spectrum [test_fiducial_list] computes for the full list has
    no entry that [abs] changes, and the score it computes is positive and
    not infinite, [compute_score] returns that same score for the all-ones
    vector: the two build the same score matrix and Gram spectrum.  (The
    scores part ways where [compute_score] substitutes a sentinel: 1e10 for
    a non-positive or infinite score, the forced score for the empty
    list.) *)
Theorem all_ones_score_matches_test mode e arrs threshold verdict spectrum score :
  fid_arrays gs fidList mode e = Ok arrs ->
  test_fiducial_list gs fidList mode (scoreFunc o) threshold = Ok (verdict, spectrum, score) ->
  fidList <> [] \/ forceEmpty o = false ->
  Forall (fun x => abs x = x) spectrum ->
  (score <=? 0)%float || isinf score = false ->
  score_of gs o arrs (all_ones (length fidList)) = Ok score.
Proof.
  intros Harr Htest Hne Habs Hpos.
  unfold test_fiducial_list in Htest.
  rewrite (fid_arrays_ok_any _ _ invalid_mode _ Harr) in Htest. simpl in Htest.
  injection Htest as _ Hsp Hsc.
  unfold score_of. rewrite (forced_out_all_ones Hne).
  unfold raw_score. rewrite popcount_all_ones.
  unfold where_, all_ones. rewrite where_from_all_ones.
  rewrite rmap_id_on.
  2:{ intros m Hm. apply select_all_columns. intros row Hrow.
      eapply fid_arrays_width; eauto. }
  rewrite Hsp in Hsc. rewrite (map_abs_id _ Habs) in Hsc.
  simpl. rewrite Hsp, Hsc, Hpos. reflexivity.
Qed.

Lemma popcount_clear w : forall i,
  w !! i = Some true -> S (popcount (<[i := false]> w)) = popcount w.
Proof.
  unfold popcount. induction w as [|b w IH]; intros i Hi; [discriminate|].
  destruct i as [|i].
  - injection Hi as ->. change (<[0%nat:=false]> (true :: w)) with (false :: w).
    rewrite filter_cons_False by discriminate.
    rewrite filter_cons_True by reflexivity. reflexivity.
  - simpl in Hi. specialize (IH i Hi).
    change (<[S i:=false]> (b :: w)) with (b :: <[i:=false]> w). destruct b.
    + rewrite !filter_cons_True by reflexivity. simpl. rewrite IH. reflexivity.
    + rewrite !filter_cons_False by discriminate. exact IH.
Qed.

End ScoreFacts.

Section ScoreWitnesses.
Local Existing Instance diag_linalg.
Local Open Scope float_scope.

Lemma all_ones_score_matches_test_witness :
  let o := set_slackFrac (Some 1) prep_options in
  let arrs := make_prep_mxs gs_unit fids_pair in
  (fid_arrays gs_unit fids_pair (Some "prep"%string) must_specify = Ok arrs
   /\ test_fiducial_list gs_unit fids_pair (Some "prep"%string) (scoreFunc o) 1e6
      = Ok (true, [1.25], 1.6000000000000001)
   /\ (fids_pair <> [] \/ forceEmpty o = false)
   /\ Forall (fun x => abs x = x) [1.25]
   /\ (1.6000000000000001 <=? 0) || isinf 1.6000000000000001 = false)
  /\ score_of gs_unit o arrs (all_ones (length fids_pair)) = Ok 1.6000000000000001.
Proof.
  assert (H1 : fid_arrays gs_unit fids_pair (Some "prep"%string) must_specify
               = Ok (make_prep_mxs gs_unit fids_pair)) by reflexivity.
  assert (H2 : test_fiducial_list gs_unit fids_pair (Some "prep"%string)
                 (scoreFunc (set_slackFrac (Some 1) prep_options)) 1e6
               = Ok (true, [1.25], 1.6000000000000001)) by (vm_compute; reflexivity).
  assert (H3 : fids_pair <> [] \/ forceEmpty (set_slackFrac (Some 1) prep_options) = false)
    by (left; discriminate).
  assert (H4 : Forall (fun x => abs x = x) [1.25])
    by (constructor; [vm_compute; reflexivity|constructor]).
  assert (H5 : (1.6000000000000001 <=? 0) || isinf 1.6000000000000001 = false)
    by (vm_compute; reflexivity).
  split; [repeat split; assumption|].
  exact (all_ones_score_matches_test gs_unit fids_pair _ _ _ _ _ _ _ _ H1 H2 H3 H4 H5).
Defined.

End ScoreWitnesses.

(** * generate_fiducials and its keyword dictionary (C10) *)

Section GenerateFacts.
Context `{LinAlg}.
Variable py3 : bool.
Variable reclimit : nat.

(** The dictionary the slack branch stores back. *)
Lemma store_after_slack st gs omit maxlen kwargs verbosity kw0 :
  st !! default default_kwargs_ref kwargs = Some kw0 ->
  exists kw,
    store_after py3 reclimit st gs omit maxlen "slack" kwargs verbosity
    = <[default default_kwargs_ref kwargs := kw]> st
    /\ kw !! "slackFrac"%string
       = (if bool_decide (kw0 !! "slackFrac"%string = None)
             && bool_decide (kw0 !! "fixedSlack"%string = None)
          then Some (VFloat 1%float) else kw0 !! "slackFrac"%string)
    /\ kw !! "fidList"%string
       = Some (default (VFidList (available_fids gs omit maxlen)) (kw0 !! "fidList"%string))
    /\ kw !! "verbosity"%string
       = Some (default (VInt (Z.of_nat verbosity)) (kw0 !! "verbosity"%string))
    /\ (forall key, key <> "slackFrac"%string -> key <> "fidList"%string ->
                    key <> "verbosity"%string -> kw !! key = kw0 !! key).
Proof.
  intros Hst. unfold store_after, generate_fiducials. rewrite Hst.
  change (String.eqb "slack" "slack") with true. cbv iota.
  set (kw1 := if bool_decide (kw0 !! "slackFrac"%string = None)
                 && bool_decide (kw0 !! "fixedSlack"%string = None)
              then <["slackFrac"%string := VFloat 1%float]> kw0 else kw0).
  set (kw2 := fold_left _ _ kw1).
  exists kw2. split.
  { destruct (call_optimizer _ _ _ _ _) as [[r1|e1] evs1]; [|reflexivity].
    destruct (call_optimizer _ _ _ _ _) as [[r2|e2] evs2]; reflexivity. }
  assert (E1 : kw1 !! "slackFrac"%string
               = (if bool_decide (kw0 !! "slackFrac"%string = None)
                     && bool_decide (kw0 !! "fixedSlack"%string = None)
                  then Some (VFloat 1%float) else kw0 !! "slackFrac"%string)).
  { subst kw1. destruct (_ && _); [apply lookup_insert_eq|reflexivity]. }
  assert (N1 : forall key, key <> "slackFrac"%string -> kw1 !! key = kw0 !! key).
  { intros key Hk. subst kw1. destruct (_ && _); [|reflexivity].
    rewrite lookup_insert_ne by congruence. reflexivity. }
  subst kw2. clearbody kw1. cbn [fold_left fst snd].
  fold (available_fids gs omit maxlen).
  assert (Ef : kw0 !! "fidList"%string = kw1 !! "fidList"%string)
    by (rewrite N1 by discriminate; reflexivity).
  assert (Ev : kw0 !! "verbosity"%string = kw1 !! "verbosity"%string)
    by (rewrite N1 by discriminate; reflexivity).
  rewrite Ef, Ev, <- E1. 
  assert (N1' : forall key, key <> "slackFrac"%string -> key <> "fidList"%string ->
                  key <> "verbosity"%string -> kw1 !! key = kw0 !! key) by auto.
  clear E1 N1 Ef Ev.
  destruct (kw1 !! "fidList"%string) as [vf|] eqn:Hf;
    [rewrite (bool_decide_false (Some vf = None)) by discriminate
    |rewrite (bool_decide_true (None = None)) by reflexivity].
  - destruct (kw1 !! "verbosity"%string) as [vv|] eqn:Hv;
      [rewrite (bool_decide_false (Some vv = None)) by discriminate
      |rewrite (bool_decide_true (None = None)) by reflexivity].
    + repeat split; auto.
    + repeat split; auto.
      * rewrite lookup_insert_ne by discriminate. reflexivity.
      * rewrite lookup_insert_ne by discriminate. exact Hf.
      * apply lookup_insert_eq.
      * intros key K1 K2 K3. rewrite lookup_insert_ne by congruence. auto.
  - rewrite lookup_insert_ne by discriminate.
    destruct (kw1 !! "verbosity"%string) as [vv|] eqn:Hv;
      [rewrite (bool_decide_false (Some vv = None)) by discriminate
      |rewrite (bool_decide_true (None = None)) by reflexivity].
    + repeat split.
      * rewrite lookup_insert_ne by discriminate. reflexivity.
      * apply lookup_insert_eq.
      * rewrite lookup_insert_ne by discriminate. exact Hv.
      * intros key K1 K2 K3. rewrite lookup_insert_ne by congruence. auto.
    + repeat split.
      * rewrite !lookup_insert_ne by discriminate. reflexivity.
      * rewrite lookup_insert_ne by discriminate. apply lookup_insert_eq.
      * apply lookup_insert_eq.
      * intros key K1 K2 K3. rewrite !lookup_insert_ne by congruence. auto.
Qed.

Lemma store_after_slack_entries st gs omit maxlen kwargs verbosity kw0 :
  st !! default default_kwargs_ref kwargs = Some kw0 ->
  exists kw,
    store_after py3 reclimit st gs omit maxlen "slack" kwargs verbosity
    = <[default default_kwargs_ref kwargs := kw]> st
    /\ kw0 ⊆ kw
    /\ kw !! "fidList"%string
       = Some (default (VFidList (available_fids gs omit maxlen)) (kw0 !! "fidList"%string))
    /\ kw !! "verbosity"%string
       = Some (default (VInt (Z.of_nat verbosity)) (kw0 !! "verbosity"%string))
    /\ (kw0 !! "slackFrac"%string = None -> kw0 !! "fixedSlack"%string = None ->
        kw !! "slackFrac"%string = Some (VFloat 1%float))
    /\ kw !! "prepOrMeas"%string = kw0 !! "prepOrMeas"%string.
Proof.
  intros Hst.
  destruct (store_after_slack st gs omit maxlen kwargs verbosity kw0 Hst)
    as (kw & Hstore & Hs & Hf & Hv & Ho).
  exists kw. split; [exact Hstore|]. split; [|split; [exact Hf|split; [exact Hv|split]]].
  - apply map_subseteq_spec. intros key v Hkv.
    destruct (decide (key = "slackFrac"%string)) as [->|K1].
    { rewrite Hs, Hkv, (bool_decide_false (Some v = None)) by discriminate. reflexivity. }
    destruct (decide (key = "fidList"%string)) as [->|K2].
    { rewrite Hf, Hkv. reflexivity. }
    destruct (decide (key = "verbosity"%string)) as [->|K3].
    { rewrite Hv, Hkv. reflexivity. }
    rewrite Ho by assumption. exact Hkv.
  - intros H1 H2. rewrite Hs, H1, H2. reflexivity.
  - apply Ho; discriminate.
Qed.

(** C10: a call with the slack algorithm writes into the dictionary it was
    given.  Afterwards that dictionary still has every entry it had, has
    entries for [fidList] and [verbosity] (the offered list and the call's
    verbosity where it had none), has [slackFrac] = 1.0 where it had neither
    slack entry, and has not received [prepOrMeas], which goes to copies.
    When the argument is omitted the dictionary is the default object of the
    function, so a second call without the argument, whatever its other
    arguments, finds and keeps the entries of the first. *)
Theorem generate_fiducials_writes_kwargs st gs omit maxlen kwargs verbosity kw0 :
  st !! default default_kwargs_ref kwargs = Some kw0 ->
  exists kw,
    store_after py3 reclimit st gs omit maxlen "slack" kwargs verbosity
      !! default default_kwargs_ref kwargs = Some kw
    /\ kw0 ⊆ kw
    /\ kw !! "fidList"%string
       = Some (default (VFidList (available_fids gs omit maxlen)) (kw0 !! "fidList"%string))
    /\ kw !! "verbosity"%string
       = Some (default (VInt (Z.of_nat verbosity)) (kw0 !! "verbosity"%string))
    /\ (kw0 !! "slackFrac"%string = None -> kw0 !! "fixedSlack"%string = None ->
        kw !! "slackFrac"%string = Some (VFloat 1%float))
    /\ kw !! "prepOrMeas"%string = kw0 !! "prepOrMeas"%string
    /\ (kwargs = None ->
        forall gs2 omit2 maxlen2 verbosity2,
        exists kw2,
          store_after py3 reclimit
            (store_after py3 reclimit st gs omit maxlen "slack" None verbosity)
            gs2 omit2 maxlen2 "slack" None verbosity2
            !! default_kwargs_ref = Some kw2
          /\ kw ⊆ kw2
          /\ kw2 !! "fidList"%string = kw !! "fidList"%string
          /\ kw2 !! "verbosity"%string = kw !! "verbosity"%string).
Proof.
  intros Hst.
  destruct (store_after_slack_entries st gs omit maxlen kwargs verbosity kw0 Hst)
    as (kw & Hstore & Hsub & Hf & Hv & Hs & Hp).
  exists kw. rewrite Hstore, lookup_insert_eq.
  repeat (split; [assumption || reflexivity|]).
  intros ->. simpl in *. intros gs2 omit2 maxlen2 verbosity2.
  rewrite Hstore.
  destruct (store_after_slack_entries (<[default_kwargs_ref := kw]> st) gs2 omit2 maxlen2
              None verbosity2 kw (lookup_insert_eq _ _ _))
    as (kw2 & Hstore2 & Hsub2 & Hf2 & Hv2 & _ & _).
  exists kw2. simpl in Hstore2. rewrite Hstore2, lookup_insert_eq.
  split; [reflexivity|]. split; [exact Hsub2|].
  rewrite Hf2, Hv2, Hf, Hv. split; reflexivity.
Qed.

(** With any other algorithm name the call raises and writes nothing. *)
Lemma generate_fiducials_other_algorithm st gs omit maxlen algorithm kwargs verbosity :
  String.eqb algorithm "slack" = false ->
  store_after py3 reclimit st gs omit maxlen algorithm kwargs verbosity = st.
Proof.
  intros Ha. unfold store_after, generate_fiducials. rewrite Ha.
  destruct (st !! _); reflexivity.
Qed.

End GenerateFacts.

Section GenerateWitness.
Local Existing Instance diag_linalg.

Lemma generate_fiducials_writes_kwargs_witness :
  let st : store := {[ default_kwargs_ref := ∅ ]} in
  st !! default default_kwargs_ref None = Some ∅
  /\ exists kw,
       store_after true 1000 st gs_unit [] 1 "slack" None 0 !! default_kwargs_ref = Some kw
       /\ kw !! "fidList"%string = Some (VFidList [[]; ["Gx"%string]])
       /\ kw !! "verbosity"%string = Some (VInt 0)
       /\ kw !! "slackFrac"%string = Some (VFloat 1%float).
Proof.
  assert (H0 : ({[ default_kwargs_ref := ∅ ]} : store) !! default default_kwargs_ref None
               = Some ∅) by apply lookup_singleton_eq.
  split; [exact H0|].
  destruct (generate_fiducials_writes_kwargs true 1000 {[ default_kwargs_ref := ∅ ]}
              gs_unit [] 1 None 0 ∅ H0)
    as (kw & Hstore & _ & Hf & Hv & Hs & _).
  exists kw. split; [exact Hstore|]. split; [exact Hf|]. split; [exact Hv|].
  apply Hs; reflexivity.
Defined.

End GenerateWitness.

(** * The local search (C4) *)

Section MonadRuns.

Lemma mbind_run {A B} (m : M A) (k : A -> M B) s a s1 :
  m s = (Ok a, s1) -> mbind m k s = k a s1.
Proof. intros E. unfold mbind. rewrite E. reflexivity. Qed.

Lemma mbind_fail {A B} (m : M A) (k : A -> M B) s e s1 :
  m s = (Raise e, s1) -> mbind m k s = (Raise e, s1).
Proof. intros E. unfold mbind. rewrite E. reflexivity. Qed.

Lemma mbind_ok_inv {A B} (m : M A) (k : A -> M B) s b s2 :
  mbind m k s = (Ok b, s2) ->
  exists a s1, m s = (Ok a, s1) /\ k a s1 = (Ok b, s2).
Proof.
  unfold mbind. destruct (m s) as [[a|e] s1]; [eauto|discriminate].
Qed.

Lemma lift_ok_inv {A} (r : res A) s a s' : lift r s = (Ok a, s') -> r = Ok a /\ s' = s.
Proof. unfold lift. intros [= -> ->]. auto. Qed.

End MonadRuns.

Section SearchFacts.
Context `{LinAlg}.
Variable py3 : bool.
Variable gs : GateSet.
Variable fidList : list gatestring.
Variable o : options.
Variable arrs : list matrix.

Local Abbreviation okD := (consistent gs o arrs).
Local Abbreviation coh := (coherent gs o arrs).
Local Abbreviation grow := (grows gs o arrs).
Local Abbreviation sc_of := (score_of gs o arrs).

Lemma grows_refl P s : okD (scoreD s) -> grow P s s.
Proof.
  intros Hc. split; [exact Hc|]. split; [reflexivity|].
  exists []. rewrite app_nil_r. auto.
Qed.

Lemma grows_trans P s1 s2 s3 : grow P s1 s2 -> grow P s2 s3 -> grow P s1 s3.
Proof.
  intros (_ & S12 & evs1 & E1 & F1) (C3 & S23 & evs2 & E2 & F2).
  split; [exact C3|]. split; [etransitivity; eauto|].
  exists (evs1 ++ evs2). rewrite E2, E1, app_assoc. split; [reflexivity|].
  apply Forall_app; auto.
Qed.

Lemma grows_weaken (P Q : event -> Prop) s s' :
  (forall e, P e -> Q e) -> grow P s s' -> grow Q s s'.
Proof.
  intros HPQ (C & S & evs & E & F). split; [exact C|]. split; [exact S|].
  exists evs. split; [exact E|]. eapply Forall_impl; eauto.
Qed.

Lemma consistent_insert d k v :
  okD d -> sc_of k = Ok v -> okD (<[k := v]> d).
Proof.
  intros Hc Hk k' v'. rewrite lookup_insert. case_decide as E.
  - subst k'. intros [= <-]. exact Hk.
  - apply Hc.
Qed.

Lemma consistent_insert_subseteq d k v :
  okD d -> sc_of k = Ok v -> d ⊆ <[k := v]> d.
Proof.
  intros Hc Hk. apply map_subseteq_spec. intros k' v' Hk'.
  rewrite lookup_insert. case_decide as E; [|exact Hk'].
  subst k'. apply Hc in Hk'. congruence.
Qed.

(** ** compute_score and the dictionary *)

Lemma compute_score_run w s :
  compute_score gs o arrs w true s
  = match sc_of w with
    | Ok v => (Ok v, {| scoreD := <[w := v]> (scoreD s);
                        events := if forced_out o w then events s
                                  else events s ++ [Scored w] |})
    | Raise e => (Raise e, s)
    end.
Proof.
  unfold compute_score, score_of.
  destruct (forced_out o w); [destruct s; reflexivity|].
  unfold mbind, lift. destruct (raw_score gs o arrs w) as [v|e]; reflexivity.
Qed.

Lemma compute_score_grows w v s :
  okD (scoreD s) -> sc_of w = Ok v ->
  exists s', compute_score gs o arrs w true s = (Ok v, s')
             /\ grow scored_event s s' /\ scoreD s' !! w = Some v.
Proof.
  intros Hc Hw. rewrite compute_score_run, Hw. eexists. split; [reflexivity|].
  split; [|apply lookup_insert_eq].
  split; [apply consistent_insert; assumption|].
  split; [apply consistent_insert_subseteq; assumption|]. simpl.
  destruct (forced_out o w);
    [exists []; rewrite app_nil_r; auto | exists [Scored w]; split; [reflexivity|]].
  repeat constructor.
Qed.

Lemma lookup_score_run key s :
  lookup_score key s
  = match scoreD s !! key with
    | Some v => (Ok v, s)
    | None => (Raise KeyError, s)
    end.
Proof. unfold lookup_score, mbind, get_scoreD. destruct (scoreD s !! key); reflexivity. Qed.

(** ** One neighbour of the first scan *)

Lemma neighbor_score_spec keys n s :
  okD (scoreD s) -> keys ⊆ dom (scoreD s) ->
  match sc_of n with
  | Ok v => exists s', neighbor_score py3 gs o arrs keys n s = (Ok v, s')
                       /\ grow scored_event s s' /\ scoreD s' !! n = Some v
  | Raise _ => exists e s', neighbor_score py3 gs o arrs keys n s = (Raise e, s')
  end.
Proof.
  intros Hc Hk. unfold neighbor_score, mbind, get_scoreD.
  set (known := if py3 then bool_decide (n ∈ dom (scoreD s))
                else bool_decide (n ∈ keys)).
  assert (Hknown : known = true -> exists v, scoreD s !! n = Some v).
  { subst known. intros Hb. apply elem_of_dom.
    destruct py3; apply bool_decide_eq_true in Hb; [exact Hb|apply Hk, Hb]. }
  destruct known.
  - destruct (Hknown eq_refl) as [v Hv]. rewrite (Hc _ _ Hv).
    exists s. rewrite lookup_score_run, Hv.
    split; [reflexivity|]. split; [apply grows_refl, Hc|reflexivity].
  - destruct (sc_of n) as [v|e] eqn:En.
    + apply compute_score_grows; assumption.
    + rewrite compute_score_run, En. eauto.
Qed.

Lemma grows_keys P keys s s' :
  keys ⊆ dom (scoreD s) -> grow P s s' -> keys ⊆ dom (scoreD s').
Proof.
  intros Hk (_ & Hsub & _). etransitivity; [exact Hk|]. apply subseteq_dom, Hsub.
Qed.

Lemma grows_lookup P s s' k v :
  grow P s s' -> scoreD s !! k = Some v -> scoreD s' !! k = Some v.
Proof. intros (_ & Hsub & _) Hk. eapply lookup_weaken; eauto. Qed.

Lemma scan_step_spec keys lwo w0 st i s :
  okD (scoreD s) -> keys ⊆ dom (scoreD s) ->
  match get_neighbor w0 i with
  | Ok n =>
      match sc_of n with
      | Ok sn =>
          exists s',
            scan_step py3 gs o arrs keys lwo w0 st i s
            = (Ok (if accepts lwo (score st) (L1 st) n sn then moved n sn else st), s')
            /\ grow scan_event s s'
            /\ (accepts lwo (score st) (L1 st) n sn = false -> grow scored_event s s')
            /\ scoreD s' !! n = Some sn
      | Raise _ => exists e s', scan_step py3 gs o arrs keys lwo w0 st i s = (Raise e, s')
      end
  | Raise _ => exists e s', scan_step py3 gs o arrs keys lwo w0 st i s = (Raise e, s')
  end.
Proof.
  intros Hc Hk. unfold scan_step.
  destruct (get_neighbor w0 i) as [n|e]; [|eexists _, _; reflexivity].
  rewrite (mbind_run _ _ s n s eq_refl).
  pose proof (neighbor_score_spec keys n s Hc Hk) as Hn.
  destruct (sc_of n) as [sn|e].
  - destruct Hn as (s1 & Hrun & Hg & Hl). rewrite (mbind_run _ _ _ _ _ Hrun).
    fold (accepts lwo (score st) (L1 st) n sn).
    destruct (accepts lwo (score st) (L1 st) n sn).
    + eexists. split; [reflexivity|]. split; [|split; [discriminate|exact Hl]].
      apply (grows_trans _ s s1).
      * eapply grows_weaken; [|exact Hg]. intros []; simpl; tauto.
      * destruct Hg as (C1 & _). split; [exact C1|]. split; [reflexivity|].
        eexists [_]. split; [reflexivity|]. repeat constructor.
    + exists s1. split; [reflexivity|]. split; [|split; [intros _; exact Hg|exact Hl]].
      eapply grows_weaken; [|exact Hg]. intros []; simpl; tauto.
  - destruct Hn as (e' & s1 & Hrun). rewrite (mbind_fail _ _ _ _ _ Hrun). eauto.
Qed.

(** ** The first scan *)

Lemma scan_fold_inv keys lwo w0 idx : forall st s st' s',
  mfold (scan_step py3 gs o arrs keys lwo w0) idx st s = (Ok st', s') ->
  okD (scoreD s) -> keys ⊆ dom (scoreD s) -> coh st ->
  grow scan_event s s' /\ coh st'
  /\ (forall i, In i idx -> exists n sn,
        get_neighbor w0 i = Ok n /\ sc_of n = Ok sn /\ scoreD s' !! n = Some sn)
  /\ (bFoundBetterNeighbor st = true -> bFoundBetterNeighbor st' = true)
  /\ (bFoundBetterNeighbor st' = false ->
      st' = st /\ grow scored_event s s'
      /\ forall i, In i idx -> exists n sn,
           get_neighbor w0 i = Ok n /\ sc_of n = Ok sn
           /\ accepts lwo (score st) (L1 st) n sn = false).
Proof.
  induction idx as [|i idx IH]; intros st s st' s' Hrun Hc Hk Hst.
  - simpl in Hrun. injection Hrun as <- <-.
    split; [apply grows_refl, Hc|]. split; [exact Hst|].
    split; [intros i []|]. split; [auto|]. intros _.
    split; [reflexivity|]. split; [apply grows_refl, Hc|intros i []].
  - simpl in Hrun. apply mbind_ok_inv in Hrun as (st1 & s1 & Hstep & Hrest).
    pose proof (scan_step_spec keys lwo w0 st i s Hc Hk) as Hspec.
    destruct (get_neighbor w0 i) as [n|e] eqn:En;
      [|destruct Hspec as (? & ? & Hf); congruence].
    destruct (sc_of n) as [sn|e] eqn:Esn;
      [|destruct Hspec as (? & ? & Hf); congruence].
    destruct Hspec as (s1' & Hstep' & Hg1 & Hq1 & Hl1).
    rewrite Hstep in Hstep'. injection Hstep' as -> <-.
    assert (Hst1 : coh (if accepts lwo (score st) (L1 st) n sn then moved n sn else st)).
    { destruct (accepts _ _ _ _ _); [split; [exact Esn|reflexivity]|exact Hst]. }
    destruct (IH _ _ _ _ Hrest (proj1 Hg1) (grows_keys _ _ _ _ Hk Hg1) Hst1)
      as (Hg2 & Hst' & Hall & Hmono & Hstill).
    split; [eapply grows_trans; eauto|]. split; [exact Hst'|].
    split; [|split].
    + intros j [<-|Hj]; [|apply Hall, Hj].
      exists n, sn. rewrite En. repeat split; auto. eapply grows_lookup; eauto.
    + intros Hb. apply Hmono. destruct (accepts _ _ _ _ _); [reflexivity|exact Hb].
    + intros Hb. destruct (Hstill Hb) as (E1 & Hq2 & Hrej).
      destruct (accepts lwo (score st) (L1 st) n sn) eqn:Eacc.
      { subst st'. discriminate Hb. }
      split; [exact E1|]. split; [eapply grows_trans; eauto|].
      intros j [<-|Hj]; [|apply Hrej, Hj].
      exists n, sn. rewrite En. auto.
Qed.

Lemma scan_fold_still keys lwo w0 idx : forall st s,
  okD (scoreD s) -> keys ⊆ dom (scoreD s) ->
  (forall i, In i idx -> exists n sn,
     get_neighbor w0 i = Ok n /\ sc_of n = Ok sn
     /\ accepts lwo (score st) (L1 st) n sn = false) ->
  exists s',
    mfold (scan_step py3 gs o arrs keys lwo w0) idx st s = (Ok st, s')
    /\ grow scored_event s s'
    /\ forall i, In i idx -> exists n sn,
         get_neighbor w0 i = Ok n /\ sc_of n = Ok sn /\ scoreD s' !! n = Some sn.
Proof.
  induction idx as [|i idx IH]; intros st s Hc Hk Hrej.
  - exists s. split; [reflexivity|]. split; [apply grows_refl, Hc|intros i []].
  - destruct (Hrej i (or_introl eq_refl)) as (n & sn & En & Esn & Eacc).
    pose proof (scan_step_spec keys lwo w0 st i s Hc Hk) as Hspec.
    rewrite En, Esn, Eacc in Hspec. destruct Hspec as (s1 & Hstep & _ & Hq1 & Hl1).
    specialize (Hq1 eq_refl).
    destruct (IH st s1 (proj1 Hq1) (grows_keys _ _ _ _ Hk Hq1)
                (fun j Hj => Hrej j (or_intror Hj))) as (s' & Hrest & Hq2 & Hall).
    exists s'. simpl. rewrite (mbind_run _ _ _ _ _ Hstep).
    split; [exact Hrest|]. split; [eapply grows_trans; eauto|].
    intros j [<-|Hj]; [|apply Hall, Hj].
    exists n, sn. repeat split; auto. eapply grows_lookup; eauto.
Qed.

(** ** The relaxed re-scan *)

Lemma rescan_step_run w0 st i s :
  rescan_step w0 st i s
  = match get_neighbor w0 i with
    | Raise e => (Raise e, s)
    | Ok n =>
        if (popcount n <? L1 st)%nat then
          match scoreD s !! n with
          | None => (Raise KeyError, s)
          | Some v =>
              if (v <? score st)%float
              then (Ok (moved n v),
                    {| scoreD := scoreD s;
                       events := events s ++ [FoundBetter (popcount n) v] |})
              else (Ok st, s)
          end
        else (Ok st, s)
    end.
Proof.
  unfold rescan_step. destruct (get_neighbor w0 i) as [n|e]; [|reflexivity].
  rewrite (mbind_run _ _ s n s eq_refl).
  destruct (popcount n <? L1 st)%nat; [|reflexivity].
  unfold mbind at 1. rewrite lookup_score_run.
  destruct (scoreD s !! n) as [v|] eqn:Ev; [|reflexivity].
  destruct (v <? score st)%float; [|reflexivity].
  unfold mbind at 1. rewrite lookup_score_run, Ev. reflexivity.
Qed.

Lemma rescan_fold_inv w0 idx : forall st s st' s',
  mfold (rescan_step w0) idx st s = (Ok st', s') ->
  okD (scoreD s) ->
  scoreD s' = scoreD s
  /\ (bFoundBetterNeighbor st = true -> bFoundBetterNeighbor st' = true)
  /\ ((bFoundBetterNeighbor st = true -> coh st) ->
      bFoundBetterNeighbor st' = true -> coh st')
  /\ (bFoundBetterNeighbor st' = false ->
      st' = st /\ s' = s
      /\ forall i, In i idx -> exists n,
           get_neighbor w0 i = Ok n
           /\ ((popcount n <? L1 st)%nat = true ->
               exists v, scoreD s !! n = Some v /\ (v <? score st)%float = false)).
Proof.
  induction idx as [|i idx IH]; intros st s st' s' Hrun Hc.
  - simpl in Hrun. injection Hrun as <- <-.
    split; [reflexivity|]. split; [auto|]. split; [auto|]. intros _.
    split; [reflexivity|]. split; [reflexivity|]. intros i [].
  - simpl in Hrun. apply mbind_ok_inv in Hrun as (st1 & s1 & Hstep & Hrest).
    rewrite rescan_step_run in Hstep.
    destruct (get_neighbor w0 i) as [n|e] eqn:En; [|discriminate].
    assert (Hkeep : st1 = st -> s1 = s ->
              ((popcount n <? L1 st)%nat = true ->
               exists v, scoreD s !! n = Some v /\ (v <? score st)%float = false) ->
              scoreD s' = scoreD s
              /\ (bFoundBetterNeighbor st = true -> bFoundBetterNeighbor st' = true)
              /\ ((bFoundBetterNeighbor st = true -> coh st) ->
                  bFoundBetterNeighbor st' = true -> coh st')
              /\ (bFoundBetterNeighbor st' = false ->
                  st' = st /\ s' = s
                  /\ forall j, In j (i :: idx) -> exists n',
                       get_neighbor w0 j = Ok n'
                       /\ ((popcount n' <? L1 st)%nat = true ->
                           exists v, scoreD s !! n' = Some v
                                     /\ (v <? score st)%float = false))).
    { intros -> -> Hhead.
      destruct (IH _ _ _ _ Hrest Hc) as (Hd & Hmono & Hcoh & Hstill).
      split; [exact Hd|]. split; [exact Hmono|]. split; [exact Hcoh|].
      intros Hb. destruct (Hstill Hb) as (E1 & E2 & Hrej).
      split; [exact E1|]. split; [exact E2|].
      intros j [<-|Hj]; [|apply Hrej, Hj]. exists n. split; [exact En|exact Hhead]. }
    destruct (popcount n <? L1 st)%nat eqn:Elt.
    + destruct (scoreD s !! n) as [v|] eqn:Ev; [|discriminate].
      destruct (v <? score st)%float eqn:Ecmp.
      * injection Hstep as <- <-.
        destruct (IH _ _ _ _ Hrest Hc) as (Hd & Hmono & Hcoh & Hstill).
        split; [exact Hd|]. split; [intros _; apply Hmono; reflexivity|].
        split.
        { intros _. apply Hcoh. intros _. split; [apply Hc, Ev|reflexivity]. }
        intros Hb. rewrite (Hmono eq_refl) in Hb. discriminate.
      * injection Hstep as <- <-. apply Hkeep; auto. intros _. exists v. auto.
    + injection Hstep as <- <-. apply Hkeep; auto. discriminate.
Qed.

Lemma rescan_fold_still w0 idx st s :
  (forall i, In i idx -> exists n sn,
     get_neighbor w0 i = Ok n /\ scoreD s !! n = Some sn
     /\ accepts_relaxed (score st) (L1 st) n sn = false) ->
  mfold (rescan_step w0) idx st s = (Ok st, s).
Proof.
  induction idx as [|i idx IH]; intros Hrej; [reflexivity|].
  destruct (Hrej i (or_introl eq_refl)) as (n & sn & En & Esn & Eacc).
  simpl. erewrite mbind_run.
  - apply IH. intros j Hj. apply Hrej. right. exact Hj.
  - rewrite rescan_step_run, En. unfold accepts_relaxed in Eacc.
    destruct (popcount n <? L1 st)%nat; [|reflexivity].
    rewrite Esn. simpl in Eacc. rewrite Eacc. reflexivity.
Qed.

(** ** One iteration *)

Lemma emit_run e s :
  emit e s = (Ok tt, {| scoreD := scoreD s; events := events s ++ [e] |}).
Proof. reflexivity. Qed.

Lemma in_seq_nFids i : In i (seq 0 (nFids fidList)) <-> (i < length fidList)%nat.
Proof. unfold nFids. rewrite in_seq. lia. Qed.

Lemma iteration_inv lwo st s lwo' st' broke s' :
  iteration py3 gs fidList o arrs lwo st s = (Ok (lwo', st', broke), s') ->
  okD (scoreD s) -> coh st ->
  okD (scoreD s')
  /\ (broke = false -> coh st')
  /\ (broke = true ->
      weights st' = weights st /\ stationary_at gs fidList o arrs lwo (weights st)).
Proof.
  intros Hrun Hc Hst. unfold iteration in Hrun.
  rewrite (mbind_run get_scoreD _ s (scoreD s) s eq_refl) in Hrun.
  apply mbind_ok_inv in Hrun as (st1 & s1 & Hscan & Hrun).
  set (st0 := {| weights := weights st; score := score st; L1 := L1 st;
                 bFoundBetterNeighbor := false |}) in *.
  assert (Hst0 : coh st0) by exact Hst.
  destruct (scan_fold_inv _ _ _ _ _ _ _ _ Hscan Hc (reflexivity _) Hst0)
    as (Hg1 & Hst1 & Hall & _ & Hstill).
  destruct (bFoundBetterNeighbor st1) eqn:Hb1.
  - rewrite (mbind_run _ _ _ _ _ (emit_run _ s1)) in Hrun.
    injection Hrun as <- <- <- <-.
    split; [exact (proj1 Hg1)|]. split; [intros _; exact Hst1|discriminate].
  - destruct (Hstill eq_refl) as (E1 & _ & Hrej). subst st1.
    apply mbind_ok_inv in Hrun as (relaxed & s1' & Hrelax & Hrun).
    apply lift_ok_inv in Hrelax as [Hrelax ->].
    rewrite (mbind_run _ _ _ _ _ (emit_run _ s1)) in Hrun.
    apply mbind_ok_inv in Hrun as (st3 & s3 & Hrescan & Hrun).
    destruct (rescan_fold_inv _ _ _ _ _ _ Hrescan (proj1 Hg1))
      as (Hd3 & _ & Hcoh3 & Hstill3).
    simpl in Hd3.
    destruct (bFoundBetterNeighbor st3) eqn:Hb3.
    + rewrite (mbind_run _ _ _ _ _ (emit_run _ s3)) in Hrun.
      injection Hrun as <- <- <- <-. simpl. rewrite Hd3.
      split; [exact (proj1 Hg1)|]. split; [|discriminate].
      intros _. apply Hcoh3; [discriminate|reflexivity].
    + rewrite (mbind_run _ _ _ _ _ (emit_run _ s3)) in Hrun.
      injection Hrun as <- <- <- <-. simpl. rewrite Hd3.
      split; [exact (proj1 Hg1)|]. split; [discriminate|]. intros _.
      destruct (Hstill3 eq_refl) as (E3 & _ & Hrej3). subst st3. simpl.
      split; [reflexivity|].
      exists (score st), relaxed. split; [exact (proj1 Hst)|]. split; [exact Hrelax|].
      intros i Hi. apply in_seq_nFids in Hi.
      destruct (Hall i Hi) as (n & sn & En & Esn & Eln).
      destruct (Hrej i Hi) as (n' & sn' & En' & Esn' & Eacc).
      destruct (Hrej3 i Hi) as (n'' & En'' & Hlow).
      simpl in En', En'', Eacc, Hlow, En.
      rewrite En in En', En''. injection En' as <-. injection En'' as <-.
      rewrite Esn in Esn'. injection Esn' as <-.
      exists n, sn. split; [exact En|]. split; [exact Esn|].
      rewrite <- (proj2 Hst). split; [exact Eacc|].
      unfold accepts_relaxed. destruct (popcount n <? L1 st)%nat eqn:Elt; [|reflexivity].
      destruct (Hlow eq_refl) as (v & Hv & Hcmp). simpl in Hv.
      rewrite Eln in Hv. injection Hv as <-. exact Hcmp.
Qed.

Lemma iteration_still lwo w b s :
  stationary_at gs fidList o arrs lwo w -> okD (scoreD s) ->
  exists sw relaxed s',
    sc_of w = Ok sw /\ relax o sw = Ok relaxed
    /\ iteration py3 gs fidList o arrs lwo
         {| weights := w; score := sw; L1 := popcount w; bFoundBetterNeighbor := b |} s
       = (Ok (true, {| weights := w; score := relaxed; L1 := popcount w;
                       bFoundBetterNeighbor := false |}, true), s')
    /\ grow still_event s s'
    /\ In (Logged "Stationary point found!") (events s').
Proof.
  intros (sw & relaxed & Hsw & Hrelax & Hnb) Hc.
  exists sw, relaxed. unfold iteration.
  rewrite (mbind_run get_scoreD _ s (scoreD s) s eq_refl). cbn [weights score L1].
  set (st0 := {| weights := w; score := sw; L1 := popcount w;
                 bFoundBetterNeighbor := false |}).
  destruct (scan_fold_still (dom (scoreD s)) lwo w (seq 0 (nFids fidList)) st0 s Hc
              (reflexivity _)) as (s1 & Hscan & Hg1 & Hall).
  { intros i Hi. apply in_seq_nFids in Hi.
    destruct (Hnb i Hi) as (n & sn & En & Esn & Eacc & _). exists n, sn. auto. }
  rewrite (mbind_run _ _ _ _ _ Hscan). cbn [bFoundBetterNeighbor st0 weights score L1].
  rewrite (mbind_run _ _ s1 relaxed s1) by (unfold lift; rewrite Hrelax; reflexivity).
  rewrite (mbind_run _ _ _ _ _ (emit_run _ s1)).
  erewrite mbind_run.
  2:{ apply rescan_fold_still. intros i Hi. apply in_seq_nFids in Hi.
      destruct (Hnb i Hi) as (n & sn & En & Esn & _ & Erel).
      destruct (Hall i (proj2 (in_seq_nFids i) Hi)) as (n' & sn' & En' & Esn' & Eln).
      rewrite En in En'. injection En' as <-. rewrite Esn in Esn'. injection Esn' as <-.
      exists n, sn. auto. }
  cbn [bFoundBetterNeighbor]. rewrite (mbind_run _ _ _ _ _ (emit_run _ _)).
  eexists. split; [exact Hsw|]. split; [exact Hrelax|]. split; [reflexivity|].
  destruct Hg1 as (C1 & S1 & evs & E1 & F1).
  split; [split; [exact C1|split; [exact S1|]]|].
  - simpl. exists (evs ++ [Relaxing sw relaxed; Logged "Stationary point found!"]).
    rewrite E1, <- !app_assoc. split; [reflexivity|].
    apply Forall_app. split.
    + eapply Forall_impl; [exact F1|]. intros []; simpl; tauto.
    + repeat constructor.
  - simpl. apply in_or_app. right. left. reflexivity.
Qed.

(** ** The loop *)

Lemma main_loop_stationary n : forall lwo st s st' s',
  main_loop py3 gs fidList o arrs n lwo st s = (Ok (st', Stationary), s') ->
  okD (scoreD s) -> coh st ->
  exists lwo', stationary_at gs fidList o arrs lwo' (weights st').
Proof.
  induction n as [|n IH]; intros lwo st s st' s' Hrun Hc Hst.
  - simpl in Hrun. rewrite (mbind_run _ _ _ _ _ (emit_run _ s)) in Hrun. discriminate.
  - simpl in Hrun. apply mbind_ok_inv in Hrun as ([[lwo1 st1] broke] & s1 & Hit & Hrun).
    destruct (iteration_inv _ _ _ _ _ _ _ Hit Hc Hst) as (Hc1 & Hcoh & Hbrk).
    destruct broke.
    + injection Hrun as <- <-. destruct (Hbrk eq_refl) as (Ew & Hs).
      exists lwo. rewrite Ew. exact Hs.
    + eapply IH; eauto.
Qed.

Lemma main_loop_still n lwo w b s :
  stationary_at gs fidList o arrs lwo w -> okD (scoreD s) ->
  exists sw st' s',
    sc_of w = Ok sw
    /\ main_loop py3 gs fidList o arrs (S n) lwo
         {| weights := w; score := sw; L1 := popcount w; bFoundBetterNeighbor := b |} s
       = (Ok (st', Stationary), s')
    /\ weights st' = w
    /\ grow still_event s s'
    /\ In (Logged "Stationary point found!") (events s').
Proof.
  intros Hs Hc. destruct (iteration_still lwo w b s Hs Hc)
    as (sw & relaxed & s' & Hsw & _ & Hit & Hg & Hin).
  exists sw. eexists. exists s'. split; [exact Hsw|].
  simpl. rewrite (mbind_run _ _ _ _ _ Hit). split; [reflexivity|].
  split; [reflexivity|]. split; [exact Hg|exact Hin].
Qed.

Lemma popcount_set w : forall i,
  w !! i = Some false -> popcount (<[i := true]> w) = S (popcount w).
Proof.
  unfold popcount. induction w as [|b w IH]; intros i Hi; [discriminate|].
  destruct i as [|i].
  - injection Hi as ->. change (<[0%nat:=true]> (false :: w)) with (true :: w).
    rewrite filter_cons_True by reflexivity.
    rewrite filter_cons_False by discriminate. reflexivity.
  - simpl in Hi. specialize (IH i Hi).
    change (<[S i:=true]> (b :: w)) with (b :: <[i:=true]> w). destruct b.
    + rewrite !filter_cons_True by reflexivity. simpl. rewrite IH. reflexivity.
    + rewrite !filter_cons_False by discriminate. exact IH.
Qed.

(** A neighbour has one fiducial less or one more. *)
Lemma popcount_neighbor w i n :
  get_neighbor w i = Ok n ->
  S (popcount n) = popcount w \/ popcount n = S (popcount w).
Proof.
  unfold get_neighbor. destruct (w !! i) as [[]|] eqn:Ei; intros [= <-].
  - left. apply popcount_clear, Ei.
  - right. apply popcount_set, Ei.
Qed.

(** A point that is stationary for a search that may only shrink is
    stationary for one that may grow, when no larger neighbour scores at
    most as much. *)
Lemma stationary_at_free lwo w :
  stationary_at gs fidList o arrs lwo w ->
  (forall i n sn sw,
     get_neighbor w i = Ok n -> (popcount w < popcount n)%nat ->
     sc_of n = Ok sn -> sc_of w = Ok sw -> (sn <=? sw)%float = false) ->
  stationary_at gs fidList o arrs false w.
Proof.
  intros (sw & relaxed & Hsw & Hrelax & Hnb) Hgrow.
  exists sw, relaxed. split; [exact Hsw|]. split; [exact Hrelax|].
  intros i Hi. destruct (Hnb i Hi) as (n & sn & En & Esn & Eacc & Erel).
  exists n, sn. split; [exact En|]. split; [exact Esn|]. split; [|exact Erel].
  unfold accepts in *. destruct (sn <=? sw)%float eqn:Ele; [|reflexivity].
  exfalso. destruct lwo; [|simpl in Eacc; rewrite orb_true_r in Eacc; discriminate].
  simpl in Eacc. rewrite orb_false_r in Eacc. apply Nat.ltb_ge in Eacc.
  destruct (popcount_neighbor w i n En) as [Hp|Hp]; [lia|].
  rewrite (Hgrow i n sn sw En ltac:(lia) Esn Hsw) in Ele. discriminate.
Qed.

End SearchFacts.

Section Rerun.
Context `{LinAlg}.
Variable py3 : bool.
Variable gs : GateSet.
Variable fidList : list gatestring.
Variable o : options.
Variable arrs : list matrix.

(** The search reads [initialWeights] only to choose its starting point. *)
Lemma iteration_initialWeights iw lwo st :
  iteration py3 gs fidList (set_initialWeights iw o) arrs lwo st
  = iteration py3 gs fidList o arrs lwo st.
Proof. reflexivity. Qed.

Lemma main_loop_initialWeights iw n : forall lwo st s,
  main_loop py3 gs fidList (set_initialWeights iw o) arrs n lwo st s
  = main_loop py3 gs fidList o arrs n lwo st s.
Proof.
  induction n as [|n IH]; intros lwo st s; [reflexivity|].
  cbn [main_loop]. rewrite iteration_initialWeights.
  unfold mbind.
  destruct (iteration py3 gs fidList o arrs lwo st s) as [[[[lwo' st'] broke]|e] s'];
    [|reflexivity].
  destruct broke; [reflexivity|]. rewrite IH. reflexivity.
Qed.

(** The search started again from the point it stopped at. *)
Lemma local_search_rerun s0 st1 s1 :
  consistent gs o arrs (scoreD s0) ->
  local_search py3 gs fidList o arrs s0 = (Ok (st1, Stationary), s1) ->
  (forall i n sn sw,
     get_neighbor (weights st1) i = Ok n ->
     (popcount (weights st1) < popcount n)%nat ->
     score_of gs o arrs n = Ok sn -> score_of gs o arrs (weights st1) = Ok sw ->
     (sn <=? sw)%float = false) ->
  exists st2 s2,
    local_search py3 gs fidList (set_initialWeights (Some (weights st1)) o) arrs s0
    = (Ok (st2, Stationary), s2)
    /\ weights st2 = weights st1
    /\ grows gs o arrs still_event s0 s2
    /\ In (Logged "Stationary point found!") (events s2).
Proof.
  intros Hc Hrun Hgrow. unfold local_search in Hrun.
  destruct (match initialWeights o with
            | Some iw => (iw, false)
            | None => (all_ones (nFids fidList), true)
            end) as [w0 lwo0].
  apply mbind_ok_inv in Hrun as (sc0 & s0' & Hsc & Hloop).
  rewrite compute_score_run in Hsc.
  destruct (score_of gs o arrs w0) as [v0|e0] eqn:Ev0; [|discriminate].
  injection Hsc as <- <-.
  assert (Hc0 : consistent gs o arrs (<[w0 := v0]> (scoreD s0)))
    by (apply consistent_insert; assumption).
  assert (Hn : exists n, maxIter o = S n).
  { destruct (maxIter o); [|eauto]. simpl in Hloop.
    rewrite (mbind_run _ _ _ _ _ (emit_run _ _)) in Hloop. discriminate. }
  destruct Hn as [n Hn].
  destruct (main_loop_stationary py3 gs fidList o arrs _ _ _ _ _ _ Hloop Hc0
              (conj Ev0 eq_refl)) as (lwo' & Hstat).
  pose proof (stationary_at_free gs fidList o arrs lwo' _ Hstat Hgrow) as Hfree.
  set (w := weights st1) in *.
  destruct Hfree as (sw & relaxed & Hsw & Hfree').
  destruct (compute_score_grows gs o arrs w sw s0 Hc Hsw) as (sa & Hrun_a & Hga & _).
  destruct (main_loop_still py3 gs fidList o arrs n false w false sa
              (ex_intro _ sw (ex_intro _ relaxed (conj Hsw Hfree'))) (proj1 Hga))
    as (sw' & st2 & s2 & Hsw' & Hloop2 & Hw2 & Hg2 & Hin2).
  rewrite Hsw in Hsw'. injection Hsw' as <-.
  exists st2, s2. unfold local_search. cbn [initialWeights set_initialWeights].
  change (compute_score gs (set_initialWeights (Some w) o) arrs w true)
    with (compute_score gs o arrs w true).
  rewrite (mbind_run _ _ _ _ _ Hrun_a).
  rewrite main_loop_initialWeights. cbn [maxIter set_initialWeights]. rewrite Hn.
  split; [exact Hloop2|]. split; [exact Hw2|]. split; [|exact Hin2].
  eapply grows_trans; [|exact Hg2].
  eapply grows_weaken; [|exact Hga]. intros []; simpl; tauto.
Qed.

End Rerun.

(** * Running the optimizer again from its result (C4) *)

Section RerunOptimizer.
Context `{LinAlg}.
Variable py3 : bool.
Variable reclimit : nat.
Variable gs : GateSet.
Variable fidList : list gatestring.
Variable o : options.

Lemma foot_events {A} P Q (m : M A) s r s' :
  mfoot P Q m -> m s = (r, s') -> exists evs, events s' = events s ++ evs /\ Forall P evs.
Proof. intros Hm E. apply (Hm _ _ _ E). Qed.

Lemma scan_event_unbroken e : scan_event e -> unbroken_event e.
Proof. destruct e; simpl; tauto. Qed.

Lemma iteration_unbroken arrs lwo st s lwo' st' s' :
  iteration py3 gs fidList o arrs lwo st s = (Ok (lwo', st', false), s') ->
  exists evs, events s' = events s ++ evs /\ Forall unbroken_event evs.
Proof.
  intros Hrun. unfold iteration in Hrun.
  rewrite (mbind_run get_scoreD _ s (scoreD s) s eq_refl) in Hrun.
  apply mbind_ok_inv in Hrun as (st1 & s1 & Hscan & Hrun).
  destruct (foot_events _ _ _ _ _ _
              (mfoot_mfold _ _ _ _ _ (scan_step_foot py3 gs o arrs _ _ _)) Hscan)
    as (evs1 & E1 & F1).
  destruct (bFoundBetterNeighbor st1).
  - rewrite (mbind_run _ _ _ _ _ (emit_run _ s1)) in Hrun.
    injection Hrun as _ _ <-. simpl.
    exists (evs1 ++ [Logged "Moving to better neighbor"]).
    rewrite E1, app_assoc. split; [reflexivity|]. apply Forall_app. split.
    + eapply Forall_impl; [exact F1|]. apply scan_event_unbroken.
    + constructor; [simpl; auto|constructor].
  - apply mbind_ok_inv in Hrun as (relaxed & s1' & Hrelax & Hrun).
    apply lift_ok_inv in Hrelax as [Hrelax ->].
    rewrite (mbind_run _ _ _ _ _ (emit_run _ s1)) in Hrun.
    apply mbind_ok_inv in Hrun as (st3 & s3 & Hrescan & Hrun).
    destruct (foot_events _ _ _ _ _ _
                (mfoot_mfold _ _ _ _ _ (rescan_step_foot _)) Hrescan)
      as (evs3 & E3 & F3).
    destruct (bFoundBetterNeighbor st3).
    + rewrite (mbind_run _ _ _ _ _ (emit_run _ s3)) in Hrun.
      injection Hrun as _ _ <-. simpl. rewrite E3. simpl.
      exists (evs1 ++ [Relaxing (score st1) relaxed] ++ evs3
              ++ [Logged "Moving to better neighbor"]).
      rewrite E1, <- !app_assoc. split; [reflexivity|].
      apply Forall_app. split; [eapply Forall_impl; [exact F1|]; apply scan_event_unbroken|].
      constructor; [exact I|]. apply Forall_app. split.
      * eapply Forall_impl; [exact F3|]. apply scan_event_unbroken.
      * constructor; [simpl; auto|constructor].
    + rewrite (mbind_run _ _ _ _ _ (emit_run _ s3)) in Hrun. discriminate.
Qed.

Lemma main_loop_hit_events arrs n : forall lwo st s st' s',
  main_loop py3 gs fidList o arrs n lwo st s = (Ok (st', HitMaxIter), s') ->
  exists evs, events s' = events s ++ evs /\ Forall unbroken_event evs.
Proof.
  induction n as [|n IH]; intros lwo st s st' s' Hrun.
  - simpl in Hrun. rewrite (mbind_run _ _ _ _ _ (emit_run _ s)) in Hrun.
    injection Hrun as _ <-. simpl. exists [Logged "Hit max. iterations"].
    split; [reflexivity|]. constructor; [simpl; auto|constructor].
  - simpl in Hrun. apply mbind_ok_inv in Hrun as ([[lwo1 st1] broke] & s1 & Hit & Hrun).
    destruct broke; [discriminate|].
    destruct (iteration_unbroken _ _ _ _ _ _ _ Hit) as (evs1 & E1 & F1).
    destruct (IH _ _ _ _ _ Hrun) as (evs2 & E2 & F2).
    exists (evs1 ++ evs2). rewrite E2, E1, app_assoc. split; [reflexivity|].
    apply Forall_app. auto.
Qed.

Lemma local_search_hit_events arrs s st' s' :
  local_search py3 gs fidList o arrs s = (Ok (st', HitMaxIter), s') ->
  exists evs, events s' = events s ++ evs /\ Forall unbroken_event evs.
Proof.
  intros Hrun. unfold local_search in Hrun.
  destruct (match initialWeights o with
            | Some iw => (iw, false)
            | None => (all_ones (nFids fidList), true)
            end) as [w0 lwo0].
  apply mbind_ok_inv in Hrun as (sc0 & s0' & Hsc & Hloop).
  destruct (foot_events _ _ _ _ _ _ (compute_score_foot gs o arrs _ _) Hsc)
    as (evs1 & E1 & F1).
  destruct (main_loop_hit_events _ _ _ _ _ _ _ Hloop) as (evs2 & E2 & F2).
  exists (evs1 ++ evs2). rewrite E2, E1, app_assoc. split; [reflexivity|].
  apply Forall_app. split; [|exact F2].
  eapply Forall_impl; [exact F1|]. apply scan_event_unbroken.
Qed.

Lemma consistent_empty arrs : consistent gs o arrs ∅.
Proof. intros k v Hk. rewrite lookup_empty in Hk. discriminate. Qed.

(** C4, as amended: let a run of the optimizer (no fixed size) log that it
    found a stationary point and log [w] as its final weights.  If no
    neighbour of [w] with one fiducial more scores at most as much as [w],
    then the run with the same arguments and [initialWeights = w] returns
    the same list, logs the stationary point and the same weights, and
    accepts no move.  (The first run may have been confined to shrinking;
    the second starts free to grow, so a larger neighbour that scores no
    worse makes it move.) *)
Theorem rerun_from_converged_point d0 r1 s1 w :
  fixedNum o = None ->
  optimize_integer_fiducials_slack py3 reclimit gs fidList o
    {| scoreD := d0; events := [] |} = (Ok r1, s1) ->
  In (Logged "Stationary point found!") (events s1) ->
  In (LoggedWeights w) (events s1) ->
  (forall arrs i n sn sw,
     fid_arrays gs fidList (prepOrMeas o) must_specify = Ok arrs ->
     get_neighbor w i = Ok n -> (popcount w < popcount n)%nat ->
     score_of gs o arrs n = Ok sn -> score_of gs o arrs w = Ok sw ->
     (sn <=? sw)%float = false) ->
  exists r2 s2,
    optimize_integer_fiducials_slack py3 reclimit gs fidList
      (set_initialWeights (Some w) o) {| scoreD := d0; events := [] |} = (Ok r2, s2)
    /\ result_fids r2 = result_fids r1
    /\ In (Logged "Stationary point found!") (events s2)
    /\ In (LoggedWeights w) (events s2)
    /\ forall nf sc, ~ In (FoundBetter nf sc) (events s2).
Proof.
  intros Hfixed Hrun Hstat Hw Hgrow.
  unfold optimize_integer_fiducials_slack in *.
  cbn [fixedSlack slackFrac prepOrMeas scoreFunc threshold fixedNum returnAll
       set_initialWeights].
  rewrite Hfixed in *.
  destruct (negb (xor [truthy (fixedSlack o); truthy (slackFrac o)])); [discriminate|].
  cbv [mbind emit mret lift put_scoreD get_scoreD] in Hrun.
  cbv [mbind emit mret lift put_scoreD get_scoreD].
  cbn [scoreD events app] in *.
  destruct (test_fiducial_list gs fidList (prepOrMeas o) (scoreFunc o) (threshold o))
    as [t|e]; [|discriminate].
  destruct (fst (fst t)); cbn [negb] in *; cbv beta iota in *; cbn [scoreD events app] in *.
  2:{ injection Hrun as _ <-. simpl in Hstat.
      repeat (destruct Hstat as [Hstat|Hstat]; [discriminate Hstat|]). contradiction. }
  destruct (fid_arrays gs fidList (prepOrMeas o) must_specify) as [arrs|e] eqn:Harr;
    [|discriminate].
  destruct (local_search py3 gs fidList o arrs _) as [[[st oc]|e] sL] eqn:Hls;
    [|discriminate].
  cbn [fst] in Hrun.
  destruct (select_fids fidList (weights st)) as [fids|e] eqn:Hsel; [|discriminate].
  destruct (foot_events _ _ _ _ _ _ (local_search_foot py3 gs fidList o arrs) Hls)
    as (evsL & EL & FL). cbn [events] in EL.
  assert (Hs1 : events s1 = events sL ++ [LoggedScore (score st); LoggedWeights (weights st);
                                          LoggedL1 (popcount (weights st));
                                          Printed "Final fiducial set succeeds."]
                /\ result_fids r1 = Some fids).
  { destruct (returnAll o); injection Hrun as <- <-; cbn [events];
      rewrite <- !app_assoc; split; reflexivity. }
  destruct Hs1 as [Hs1 Hr1]. clear Hrun.
  assert (Ew : weights st = w).
  { rewrite Hs1, EL in Hw. rewrite !in_app_iff in Hw. destruct Hw as [[Hw|Hw]|Hw].
    - simpl in Hw. repeat (destruct Hw as [Hw|Hw]; [discriminate Hw|]). contradiction.
    - apply (proj1 (List.Forall_forall _ _) FL) in Hw. contradiction.
    - simpl in Hw. destruct Hw as [Hw|[Hw|Hw]]; [discriminate| |].
      + injection Hw as ->. reflexivity.
      + repeat (destruct Hw as [Hw|Hw]; [discriminate Hw|]). contradiction. }
  assert (Eoc : oc = Stationary).
  { destruct oc; [reflexivity|]. exfalso.
    destruct (local_search_hit_events _ _ _ _ Hls) as (evsH & EH & FH). cbn [events] in EH.
    rewrite Hs1, EH in Hstat. rewrite !in_app_iff in Hstat.
    destruct Hstat as [[Hstat|Hstat]|Hstat].
    - simpl in Hstat. repeat (destruct Hstat as [Hstat|Hstat]; [discriminate Hstat|]).
      contradiction.
    - apply (proj1 (List.Forall_forall _ _) FH) in Hstat. simpl in Hstat.
      destruct Hstat; discriminate.
    - simpl in Hstat. repeat (destruct Hstat as [Hstat|Hstat]; [discriminate Hstat|]).
      contradiction. }
  subst oc.
  pose proof (fun Hc => local_search_rerun py3 gs fidList o arrs _ st sL Hc Hls) as Hre.
  cbn [scoreD] in Hre. specialize (Hre (consistent_empty arrs)).
  destruct Hre as (st2 & s2 & Hls2 & Hw2 & Hg2 & Hin2).
  { cbn [weights]. rewrite Ew. intros i n sn sw. apply (Hgrow arrs i n sn sw eq_refl). }
  cbn [weights] in Hls2, Hw2. rewrite Ew in Hls2, Hw2.
  rewrite Hls2. cbn [fst]. rewrite Hw2, <- Ew, Hsel.
  destruct Hg2 as (_ & _ & evs2 & E2 & F2). cbn [events] in E2.
  assert (Hev : forall s2',
            events s2' = events s2 ++ [LoggedScore (score st2); LoggedWeights (weights st);
                                       LoggedL1 (popcount (weights st));
                                       Printed "Final fiducial set succeeds."] ->
            In (Logged "Stationary point found!") (events s2')
            /\ In (LoggedWeights (weights st)) (events s2')
            /\ forall nf sc, ~ In (FoundBetter nf sc) (events s2')).
  { intros s2' ->. split; [apply in_or_app; left; exact Hin2|].
    split; [apply in_or_app; right; simpl; auto|].
    intros nf sc Hin. rewrite E2, !in_app_iff in Hin. destruct Hin as [[Hin|Hin]|Hin].
    - simpl in Hin. repeat (destruct Hin as [Hin|Hin]; [discriminate Hin|]). contradiction.
    - apply (proj1 (List.Forall_forall _ _) F2) in Hin. contradiction.
    - simpl in Hin. repeat (destruct Hin as [Hin|Hin]; [discriminate Hin|]). contradiction. }
  destruct (returnAll o); eexists _, _; (split; [reflexivity|]);
    (split; [symmetry; exact Hr1|]); apply Hev; cbn [events];
    rewrite <- !app_assoc; reflexivity.
Qed.

End RerunOptimizer.

Section RerunWitness.
Local Existing Instance diag_linalg.
Local Open Scope float_scope.

Lemma rerun_from_converged_point_witness :
  let o := set_slackFrac (Some 1) prep_options in
  let run1 := optimize_integer_fiducials_slack true 1000 gs_unit fids_pair o fresh in
  (fixedNum o = None
   /\ fst run1 = Ok (RFids [[]])
   /\ In (Logged "Stationary point found!") (events (snd run1))
   /\ In (LoggedWeights [true; false]) (events (snd run1)))
  /\ exists r2 s2,
       optimize_integer_fiducials_slack true 1000 gs_unit fids_pair
         (set_initialWeights (Some [true; false]) o) fresh = (Ok r2, s2)
       /\ result_fids r2 = Some [[]]
       /\ In (Logged "Stationary point found!") (events s2)
       /\ In (LoggedWeights [true; false]) (events s2)
       /\ forall nf sc, ~ In (FoundBetter nf sc) (events s2).
Proof.
  intros o run1.
  assert (H1 : fst run1 = Ok (RFids [[]])) by (vm_compute; reflexivity).
  assert (H2 : In (Logged "Stationary point found!") (events (snd run1)))
    by (vm_compute; auto 20).
  assert (H3 : In (LoggedWeights [true; false]) (events (snd run1)))
    by (vm_compute; auto 20).
  split; [repeat split; assumption|].
  assert (Hrun : optimize_integer_fiducials_slack true 1000 gs_unit fids_pair o
                   {| scoreD := ∅; events := [] |} = (Ok (RFids [[]]), snd run1)).
  { rewrite <- H1. subst run1. unfold fresh.
    destruct (optimize_integer_fiducials_slack _ _ _ _ _ _). reflexivity. }
  apply (rerun_from_converged_point true 1000 gs_unit fids_pair o ∅ (RFids [[]])
           (snd run1) [true; false] eq_refl Hrun H2 H3).
  intros arrs i n sn sw Harr Hn Hlt Hsn Hsw.
  injection Harr as <-.
  destruct i as [|[|i]]; [| |discriminate Hn]; injection Hn as <-.
  - vm_compute in Hlt. lia.
  - vm_compute in Hsn, Hsw. injection Hsn as <-. injection Hsw as <-.
    vm_compute. reflexivity.
Defined.

End RerunWitness.

(** * Ties in the fixed-size search *)

Section TieFacts.
Local Open Scope float_scope.

Lemma separated_tiesb_sound ss : separated_tiesb ss = true -> separated_ties ss.
Proof.
  unfold separated_tiesb. rewrite forallb_forall. intros Hall.
  assert (H1 : forall a, In a ss -> tied a a = true).
  { intros a Ha. specialize (Hall a Ha). apply andb_prop in Hall. tauto. }
  assert (H2 : forall a b, In a ss -> In b ss ->
            implb (tied a b) (tied b a) = true
            /\ forall c, In c ss ->
                 implb (tied a b && tied b c) (tied a c) = true
                 /\ implb ((a <? b) && negb (tied a b) && tied b c) (a <? c) = true
                 /\ implb ((a <? b) && negb (tied a b) && tied a c) (c <? b) = true).
  { intros a b Ha Hb. specialize (Hall a Ha). apply andb_prop in Hall as [_ Hall].
    rewrite forallb_forall in Hall. specialize (Hall b Hb).
    apply andb_prop in Hall as [Hs Hall]. split; [exact Hs|].
    rewrite forallb_forall in Hall. intros c Hc. specialize (Hall c Hc).
    apply andb_prop in Hall as [Hall H5]. apply andb_prop in Hall as [H3 H4]. auto. }
  constructor.
  - exact H1.
  - intros a b Ha Hb Hab. destruct (H2 a b Ha Hb) as [Hs _]. rewrite Hab in Hs. exact Hs.
  - intros a b c Ha Hb Hc Hab Hbc. destruct (H2 a b Ha Hb) as [_ Hr].
    destruct (Hr c Hc) as (Ht & _ & _). rewrite Hab, Hbc in Ht. exact Ht.
  - intros a b c Ha Hb Hc Hlt Hab Hbc. destruct (H2 a b Ha Hb) as [_ Hr].
    destruct (Hr c Hc) as (_ & Ht & _). rewrite Hlt, Hab, Hbc in Ht. exact Ht.
  - intros a b c Ha Hb Hc Hlt Hab Hac. destruct (H2 a b Ha Hb) as [_ Hr].
    destruct (Hr c Hc) as (_ & _ & Ht). rewrite Hlt, Hab, Hac in Ht. exact Ht.
Qed.

Lemma tied_self_not_nan a : tied a a = true -> a <> nan.
Proof. intros Ht ->. vm_compute in Ht. discriminate. Qed.

Lemma tied_self_not_infinity a : tied a a = true -> a <> infinity.
Proof. intros Ht ->. vm_compute in Ht. discriminate. Qed.

Lemma tied_self_below_infinity a : tied a a = true -> (a <? infinity) = true.
Proof.
  intros Ht. apply float_ltb_infinity;
    [apply tied_self_not_nan|apply tied_self_not_infinity]; exact Ht.
Qed.

Lemma eqb_zero_cases a : (a =? 0) = true -> a = 0 \/ a = -0.
Proof.
  rewrite FloatAxioms.eqb_spec. unfold SFeqb. change (Prim2SF 0) with (S754_zero false).
  destruct (Prim2SF a) as [s|s| |s m e] eqn:Ea; simpl; try discriminate.
  - intros _. apply Prim2SF_is in Ea. destruct s; [right|left]; exact Ea.
  - destruct s; discriminate.
  - destruct s; discriminate.
Qed.

Lemma zeros_tied a b : (a =? 0) = true -> (b =? 0) = true -> tied a b = true.
Proof.
  intros Ha Hb. destruct (eqb_zero_cases a Ha) as [-> | ->],
    (eqb_zero_cases b Hb) as [-> | ->]; vm_compute; reflexivity.
Qed.

(** Two scores that are not tied, each tied with itself, are ordered one
    way or the other. *)
Lemma untied_ordered a b :
  tied a a = true -> tied b b = true -> tied a b = false ->
  (a <? b) = false -> (b <? a) = true.
Proof.
  intros Ha Hb Hab Hlt. destruct (b <? a) eqn:Hgt; [reflexivity|]. exfalso.
  destruct (float_ltb_total a b (tied_self_not_nan a Ha) (tied_self_not_nan b Hb) Hlt Hgt)
    as [->|[Za Zb]].
  - congruence.
  - rewrite (zeros_tied a b Za Zb) in Hab. discriminate.
Qed.

End TieFacts.

Section FixedSearch.
Context `{LinAlg}.
Variable reclimit : nat.
Variable gs : GateSet.
Variable fidList : list gatestring.
Variable o : options.
Variable arrs : list matrix.
Variable f : list bool -> float.
Variable g : list bool -> list gatestring.
Variable cands : list (list bool).

Hypothesis cands_scored : forall c, In c cands ->
  score_of gs o arrs c = Ok (f c) /\ select_fids fidList c = Ok (g c).
Hypothesis cands_separated : separated_ties (map f cands).

Local Open Scope float_scope.

Let fs := map f cands.

Lemma in_fs c : In c cands -> In (f c) fs.
Proof. apply in_map. Qed.

Lemma not_better_self c : In c cands -> not_better f g c c.
Proof.
  intros Hc. left. split; [|lia]. apply (ties_refl _ cands_separated), in_fs, Hc.
Qed.

(** One candidate more. *)
Lemma pass_step P bs bw c :
  (forall x, In x P -> In x cands) -> In c cands ->
  pass_invariant f g P bs bw ->
  exists fb,
    select_fids fidList bw = Ok fb
    /\ let '(bs', bw') :=
         if tied (f c) bs
         then if (total_length (g c) <? total_length fb)%nat then (f c, c) else (bs, bw)
         else if f c <? bs then (f c, c) else (bs, bw) in
       pass_invariant f g (P ++ [c]) bs' bw'.
Proof.
  intros HP Hc [(-> & -> & ->)|(Hbw & -> & Hopt)].
  - exists []. split; [reflexivity|].
    rewrite tied_infinity_r.
    rewrite (tied_self_below_infinity _ (ties_refl _ cands_separated _ (in_fs c Hc))).
    right. simpl. split; [auto|]. split; [reflexivity|].
    intros x [<-|[]]. apply not_better_self, Hc.
  - pose proof (HP _ Hbw) as Hb. exists (g bw).
    split; [apply (cands_scored bw Hb)|].
    pose proof cands_separated as S.
    pose proof (in_fs c Hc) as Fc. pose proof (in_fs bw Hb) as Fb.
    assert (Hnew : (forall x, In x P -> not_better f g c x) ->
                   pass_invariant f g (P ++ [c]) (f c) c).
    { intros Hx. right. split; [apply in_or_app; right; left; reflexivity|].
      split; [reflexivity|]. intros x Hin. apply in_app_or in Hin as [Hin|[<-|[]]];
        [apply Hx, Hin|apply not_better_self, Hc]. }
    assert (Hkeep : not_better f g bw c -> pass_invariant f g (P ++ [c]) (f bw) bw).
    { intros Hx. right. split; [apply in_or_app; left; exact Hbw|].
      split; [reflexivity|]. intros x Hin. apply in_app_or in Hin as [Hin|[<-|[]]];
        [apply Hopt, Hin|exact Hx]. }
    destruct (tied (f c) (f bw)) eqn:Etie.
    + destruct (total_length (g c) <? total_length (g bw))%nat eqn:Elen.
      * apply Nat.ltb_lt in Elen. apply Hnew. intros x Hx.
        pose proof (in_fs x (HP x Hx)) as Fx.
        pose proof (ties_sym _ S _ _ Fc Fb Etie) as Ebc.
        destruct (Hopt x Hx) as [[Ht Hl]|[Ht Hl]].
        -- left. split; [|lia]. exact (ties_trans _ S _ _ _ Fx Fb Fc Ht Ebc).
        -- right. split.
           ++ destruct (tied (f x) (f c)) eqn:Exc; [|reflexivity].
              rewrite (ties_trans _ S _ _ _ Fx Fc Fb Exc Etie) in Ht. discriminate.
           ++ apply (ties_above _ S (f bw) (f x) (f c) Fb Fx Fc Hl); [|exact Ebc].
              destruct (tied (f bw) (f x)) eqn:Ebx; [|reflexivity].
              rewrite (ties_sym _ S _ _ Fb Fx Ebx) in Ht. discriminate.
      * apply Nat.ltb_ge in Elen. apply Hkeep. left. auto.
    + destruct (f c <? f bw) eqn:Elt.
      * apply Hnew. intros x Hx.
        pose proof (in_fs x (HP x Hx)) as Fx.
        right. destruct (Hopt x Hx) as [[Ht Hl]|[Ht Hl]].
        -- pose proof (ties_sym _ S _ _ Fx Fb Ht) as Ebx. split.
           ++ destruct (tied (f x) (f c)) eqn:Exc; [|reflexivity].
              pose proof (ties_sym _ S _ _ Fx Fc Exc) as Ecx.
              rewrite (ties_trans _ S _ _ _ Fc Fx Fb Ecx Ht) in Etie. discriminate.
           ++ exact (ties_below _ S _ _ _ Fc Fb Fx Elt Etie Ebx).
        -- split.
           ++ destruct (tied (f x) (f c)) eqn:Exc; [|reflexivity]. exfalso.
              assert (Ebx : tied (f bw) (f x) = false).
              { destruct (tied (f bw) (f x)) eqn:E; [|reflexivity].
                rewrite (ties_sym _ S _ _ Fb Fx E) in Ht. discriminate. }
              pose proof (ties_below _ S _ _ _ Fb Fx Fc Hl Ebx Exc) as Hbc.
              rewrite (float_ltb_asym _ _ Hbc) in Elt. discriminate.
           ++ exact (float_ltb_trans _ _ _ Elt Hl).
      * apply Hkeep. right. split; [exact Etie|].
        apply untied_ordered;
          [apply (ties_refl _ S), Fc|apply (ties_refl _ S), Fb|exact Etie|exact Elt].
Qed.

End FixedSearch.

(** * The relaxation and the verdict in general *)

Section RelaxFacts.
Variable o : options.
Local Open Scope float_scope.

(** With a non-zero [fixedSlack = f] and [score + f] positive, the relaxed
    score is [score + (score + f)]: [slack] is set to [score + fixedSlack]
    and then added to the score. *)
Theorem relax_fixed_slack score f :
  fixedSlack o = Some f -> float_truthy f = true -> (0 <? score + f) = true ->
  relax o score = Ok (score + (score + f)).
Proof.
  intros Hf Ht Hpos. unfold relax, slack_of, truthy. rewrite Hf, Ht. simpl.
  rewrite Hpos. reflexivity.
Qed.

(** With no (or a zero) [fixedSlack], a non-zero [slackFrac = f] and
    [score * f] positive, the relaxed score is [score + score * f]. *)
Theorem relax_slack_frac score f :
  truthy (fixedSlack o) = false -> slackFrac o = Some f -> float_truthy f = true ->
  (0 <? score * f) = true ->
  relax o score = Ok (score + score * f).
Proof.
  intros Hn Hf Ht Hpos. unfold relax, slack_of. rewrite Hn. unfold truthy.
  rewrite Hf, Ht. simpl. rewrite Hpos. reflexivity.
Qed.

End RelaxFacts.

Section ExtraWitnesses.
Local Open Scope float_scope.

Lemma relax_fixed_slack_witness :
  let o := set_fixedSlack (Some 1) prep_options in
  (fixedSlack o = Some 1 /\ float_truthy 1 = true /\ (0 <? 1.5 + 1) = true)
  /\ relax o 1.5 = Ok (1.5 + (1.5 + 1)).
Proof.
  intros o. split; [repeat split|].
  apply (relax_fixed_slack o 1.5 1); reflexivity.
Defined.

Lemma relax_slack_frac_witness :
  let o := set_slackFrac (Some 0.5) prep_options in
  (truthy (fixedSlack o) = false /\ slackFrac o = Some 0.5 /\ float_truthy 0.5 = true
   /\ (0 <? 1.5 * 0.5) = true)
  /\ relax o 1.5 = Ok (1.5 + 1.5 * 0.5).
Proof.
  intros o. split; [repeat split|].
  apply (relax_slack_frac o 1.5 0.5); reflexivity.
Defined.

Lemma test_verdict_not_nan_witness :
  (1.5 <> nan /\ 1e6 <> nan)
  /\ (test_verdict 1.5 1e6 = true
      <-> (0 <? 1.5) = true /\ (1.5 <=? 1e6) = true /\ isinf 1.5 = false).
Proof.
  assert (H1 : 1.5 <> nan).
  { intros E. apply (f_equal is_nan) in E. vm_compute in E. discriminate E. }
  assert (H2 : 1e6 <> nan).
  { intros E. apply (f_equal is_nan) in E. vm_compute in E. discriminate E. }
  split; [split; assumption|].
  apply (test_verdict_not_nan 1.5 1e6 H1 H2).
Defined.

End ExtraWitnesses.
(** * The small functions: xor, get_neighbors, the selection of fiducials *)

Section Basics.

Lemma popcount_cons b w : popcount (b :: w) = ((if b then 1 else 0) + popcount w)%nat.
Proof.
  unfold popcount. destruct b.
  - rewrite filter_cons_True by reflexivity. reflexivity.
  - rewrite filter_cons_False by discriminate. reflexivity.
Qed.

Lemma popcount_zero w : popcount w = 0%nat <-> forall j, w !! j <> Some true.
Proof.
  induction w as [|b w IH]; [split; [intros _ j; rewrite lookup_nil; discriminate|reflexivity]|].
  rewrite popcount_cons. split.
  - intros Hz. destruct b; [discriminate|]. simpl in Hz.
    intros [|j]; simpl; [discriminate|]. apply IH, Hz.
  - intros Hn. destruct b; [exfalso; apply (Hn 0%nat); reflexivity|]. simpl.
    apply IH. intros j. apply (Hn (S j)).
Qed.

Lemma popcount_one w :
  popcount w = 1%nat <->
  exists i, w !! i = Some true /\ forall j, w !! j = Some true -> j = i.
Proof.
  induction w as [|b w IH].
  - split; [discriminate|]. intros (i & Hi & _). rewrite lookup_nil in Hi. discriminate.
  - rewrite popcount_cons. destruct b; simpl.
    + split.
      * intros [= Hz]. exists 0%nat. split; [reflexivity|].
        intros [|j] Hj; [reflexivity|]. simpl in Hj.
        exfalso. exact (proj1 (popcount_zero w) Hz j Hj).
      * intros (i & Hi & Hu). f_equal. apply popcount_zero. intros j Hj.
        pose proof (Hu 0%nat eq_refl) as <-. discriminate (Hu (S j) Hj).
    + rewrite IH. split.
      * intros (i & Hi & Hu). exists (S i). split; [exact Hi|].
        intros [|j] Hj; [discriminate Hj|]. f_equal. apply Hu, Hj.
      * intros (i & Hi & Hu). destruct i as [|i]; [discriminate Hi|].
        exists i. split; [exact Hi|]. intros j Hj.
        specialize (Hu (S j) Hj). congruence.
Qed.

(** [xor] is true exactly when one and only one of its arguments is true
    (it is not the parity of the number of true arguments). *)
Theorem xor_exactly_one args :
  xor args = true <->
  exists i, args !! i = Some true /\ forall j, args !! j = Some true -> j = i.
Proof.
  rewrite <- popcount_one. unfold xor, popcount. apply Nat.eqb_eq.
Qed.

(** The [i]-th neighbour exists exactly for the positions of the vector; it
    has the length of the vector and differs from it at position [i] and
    nowhere else, so its number of fiducials is one more or one less. *)
Theorem get_neighbor_flips_one_entry w i :
  (forall n, get_neighbor w i = Ok n ->
     length n = length w
     /\ (exists b, w !! i = Some b /\ n !! i = Some (negb b))
     /\ (forall j, j <> i -> n !! j = w !! j)
     /\ (S (popcount n) = popcount w \/ popcount n = S (popcount w)))
  /\ (get_neighbor w i = Raise IndexError <-> (length w <= i)%nat)
  /\ ((i < length w)%nat -> exists n, get_neighbor w i = Ok n).
Proof.
  split; [|split].
  - intros n Hn. pose proof (popcount_neighbor w i n Hn) as Hp.
    unfold get_neighbor in Hn. destruct (w !! i) as [b|] eqn:Hb; [|discriminate].
    injection Hn as <-. split; [apply length_insert|].
    split.
    + exists b. split; [reflexivity|]. apply list_lookup_insert_eq.
      apply lookup_lt_is_Some. eauto.
    + split; [|exact Hp]. intros j Hj. apply list_lookup_insert_ne. auto.
  - unfold get_neighbor. destruct (w !! i) as [b|] eqn:Hb.
    + split; [discriminate|]. intros Hle. apply lookup_ge_None in Hle. congruence.
    + split; [|reflexivity]. intros _. apply lookup_ge_None. exact Hb.
  - intros Hlt. unfold get_neighbor. destruct (lookup_lt_is_Some_2 w i Hlt) as [b ->]. eauto.
Qed.

(** Toggling the same position twice gives the vector back. *)
Theorem get_neighbor_involutive w i n :
  get_neighbor w i = Ok n -> get_neighbor n i = Ok w.
Proof.
  unfold get_neighbor. destruct (w !! i) as [b|] eqn:Hb; [|discriminate].
  intros [= <-]. assert (Hlt : (i < length w)%nat) by (apply lookup_lt_is_Some; eauto).
  rewrite list_lookup_insert_eq by exact Hlt. f_equal.
  rewrite list_insert_insert_eq, negb_involutive. apply list_insert_id, Hb.
Qed.

End Basics.
(** * Selected fiducials and their score *)

Section Selection.
Variable fidList : list gatestring.

Lemma where_from_bounds w : forall off j,
  In j (where_from off w) -> (off <= j < off + length w)%nat.
Proof.
  induction w as [|b w IH]; intros off j Hj; simpl in *; [contradiction|].
  destruct b; [destruct Hj as [<-|Hj]; [lia|]|]; apply IH in Hj; lia.
Qed.

Lemma select_fids_from w : forall off l,
  rmap (fun index => match fidList !! index with
                     | Some f => Ok f
                     | None => Raise IndexError
                     end) (where_from off w) = Ok l ->
  l `sublist_of` drop off fidList /\ length l = popcount w.
Proof.
  induction w as [|b w IH]; intros off l Hl; simpl in Hl.
  - injection Hl as <-. split; [apply sublist_nil_l|reflexivity].
  - rewrite popcount_cons. destruct b; simpl in Hl.
    + destruct (fidList !! off) as [f|] eqn:Hf; [|discriminate]. simpl in Hl.
      destruct (rmap _ (where_from (S off) w)) as [l'|] eqn:Hl'; [|discriminate].
      injection Hl as <-. destruct (IH _ _ Hl') as [Hs Hn].
      split; [|simpl; congruence].
      rewrite (drop_S _ _ _ Hf). apply sublist_skip, Hs.
    + destruct (IH _ _ Hl) as [Hs Hn]. split; [|exact Hn].
      destruct (fidList !! off) as [f|] eqn:Hf.
      * rewrite (drop_S _ _ _ Hf). apply sublist_cons, Hs.
      * apply lookup_ge_None in Hf.
        rewrite drop_ge in Hs by lia. rewrite drop_ge by lia. exact Hs.
Qed.

(** What [select_fids] returns is a sublist of the candidate list, in the
    candidates' order, with one sequence per 1 of the weight vector. *)
Lemma select_fids_sublist w l :
  select_fids fidList w = Ok l -> l `sublist_of` fidList /\ length l = popcount w.
Proof. intros Hl. apply (select_fids_from w 0 l Hl). Qed.

Lemma rmap_lookup_seq {A} (l pre : list A) :
  rmap (fun j => match (pre ++ l) !! j with
                 | Some x => Ok x
                 | None => Raise IndexError
                 end) (seq (length pre) (length l)) = Ok l.
Proof.
  revert pre. induction l as [|x l IH]; intros pre; simpl; [reflexivity|].
  rewrite list_lookup_middle by reflexivity. simpl.
  specialize (IH (pre ++ [x])). rewrite <- app_assoc, length_app in IH. simpl in IH.
  rewrite Nat.add_1_r in IH. rewrite IH. reflexivity.
Qed.

Lemma select_fids_all_ones : select_fids fidList (all_ones (length fidList)) = Ok fidList.
Proof.
  unfold select_fids, where_, all_ones. rewrite where_from_all_ones.
  apply (rmap_lookup_seq fidList []).
Qed.

End Selection.
Section SelectedScore.
Context `{LinAlg}.
Variable gs : GateSet.
Variable o : options.

Local Open Scope float_scope.

Lemma score_of_not_infinite arrs w s :
  score_of gs o arrs w = Ok s -> forced_out o w = false -> isinf s = false.
Proof.
  intros Hs Hf. unfold score_of in Hs. rewrite Hf in Hs.
  destruct (raw_score gs o arrs w) as [x|e]; [|discriminate]. injection Hs as <-.
  destruct ((x <=? 0) || isinf x) eqn:Hc; [reflexivity|].
  apply orb_false_elim in Hc. apply Hc.
Qed.

(** A score that [compute_score] computes (one it does not force) is never
    zero or negative and never infinite: it is a positive finite number,
    the sentinel 1e10 among them, or NaN. *)
Theorem computed_score_range arrs w s :
  score_of gs o arrs w = Ok s -> forced_out o w = false ->
  (s <=? 0) = false /\ isinf s = false.
Proof.
  intros Hs Hf. unfold score_of in Hs. rewrite Hf in Hs.
  destruct (raw_score gs o arrs w) as [x|e]; [|discriminate]. injection Hs as <-.
  destruct ((x <=? 0) || isinf x) eqn:Hc.
  - split; vm_compute; reflexivity.
  - apply orb_false_elim in Hc. exact Hc.
Qed.

Lemma compute_score_uncached arrs w s :
  compute_score gs o arrs w false s
  = match score_of gs o arrs w with
    | Ok v => (Ok v, {| scoreD := scoreD s;
                        events := if forced_out o w then events s
                                  else events s ++ [Scored w] |})
    | Raise e => (Raise e, s)
    end.
Proof.
  unfold compute_score, score_of, mbind, lift, mret, emit, get_scoreD, put_scoreD.
  destruct (forced_out o w); [destruct s; reflexivity|].
  destruct (raw_score gs o arrs w); reflexivity.
Qed.

(** [compute_score] returns the score of the vector.  With caching on, the
    dictionary then holds that score under the vector's key, read back by
    [scoreD[key]], and every other entry is as before; with caching off the
    dictionary is unchanged.  A computation that raises leaves the state as
    it was. *)
Theorem compute_score_caches arrs w cache s :
  match score_of gs o arrs w with
  | Ok v =>
      exists s',
        compute_score gs o arrs w cache s = (Ok v, s')
        /\ (cache = true ->
            lookup_score w s' = (Ok v, s')
            /\ forall k, k <> w -> scoreD s' !! k = scoreD s !! k)
        /\ (cache = false -> scoreD s' = scoreD s)
  | Raise e => compute_score gs o arrs w cache s = (Raise e, s)
  end.
Proof.
  destruct cache.
  - rewrite compute_score_run. destruct (score_of gs o arrs w) as [v|e]; [|reflexivity].
    eexists. split; [reflexivity|]. split; [|discriminate]. intros _. split.
    + rewrite lookup_score_run. cbn [scoreD]. rewrite lookup_insert_eq. reflexivity.
    + intros k Hk. cbn [scoreD]. apply lookup_insert_ne. congruence.
  - rewrite compute_score_uncached. destruct (score_of gs o arrs w) as [v|e]; [|reflexivity].
    eexists. split; [reflexivity|]. split; [discriminate|]. reflexivity.
Qed.

Lemma rmap_lookup_fmap {A B} (g : A -> B) (l : list A) idxs sel :
  rmap (fun j => match l !! j with Some x => Ok x | None => Raise IndexError end) idxs
  = Ok sel ->
  rmap (fun j => match (map g l) !! j with Some x => Ok x | None => Raise IndexError end) idxs
  = Ok (map g sel).
Proof.
  revert sel. induction idxs as [|j idxs IH]; intros sel; simpl.
  - intros [= <-]. reflexivity.
  - change (map g l) with (g <$> l). rewrite list_lookup_fmap.
    destruct (l !! j) as [x|]; [|discriminate]. simpl.
    destruct (rmap _ idxs) as [sel'|] eqn:E; [|discriminate]. intros [= <-].
    change (g <$> l) with (map g l). rewrite (IH _ eq_refl). reflexivity.
Qed.

Lemma rmap_map_ok {A B C} (h : B -> res C) (k : A -> C) (F : A -> B) xs :
  (forall x, In x xs -> h (F x) = Ok (k x)) -> rmap h (map F xs) = Ok (map k xs).
Proof.
  induction xs as [|x xs IH]; intros Hh; simpl; [reflexivity|].
  rewrite (Hh x) by (left; reflexivity). simpl. rewrite IH; [reflexivity|].
  intros y Hy. apply Hh. right. exact Hy.
Qed.

Lemma select_columns_mx_of_columns {A} d (f : A -> vec) (l : list A) idxs sel :
  rmap (fun j => match l !! j with Some x => Ok x | None => Raise IndexError end) idxs
  = Ok sel ->
  select_columns idxs (mx_of_columns d (map f l)) = Ok (mx_of_columns d (map f sel)).
Proof.
  intros Hsel. unfold select_columns, mx_of_columns.
  apply rmap_map_ok. intros r _. rewrite !map_map.
  apply (rmap_lookup_fmap (fun x => nth r (f x) 0) l idxs sel Hsel).
Qed.

Lemma select_columns_fid_arrays fidList mode e arrs w sel :
  fid_arrays gs fidList mode e = Ok arrs ->
  select_fids fidList w = Ok sel ->
  exists arrs_sel,
    fid_arrays gs sel mode e = Ok arrs_sel
    /\ rmap (select_columns (where_ w)) arrs = Ok arrs_sel.
Proof.
  unfold fid_arrays, make_prep_mxs, make_meas_mxs, select_fids. intros Ha Hsel.
  destruct (mode_is mode "prep"); [|destruct (mode_is mode "meas"); [|discriminate]].
  all: injection Ha as <-; eexists; split; [reflexivity|].
  all: apply rmap_map_ok; intros v _;
    apply (select_columns_mx_of_columns _ _ fidList _ sel Hsel).
Qed.

(** The score of a weight vector is the score of the fiducials it
    selects: [compute_score] decomposes the same Gram matrix as
    [test_fiducial_list] does when given the selected sublist, and its
    product is the number of selected fiducials times [list_score] of that
    spectrum (which [test_fiducial_list] takes the absolute value of, and
    [compute_score] replaces by 1e10 when it is non-positive or
    infinite). *)
Theorem score_of_selected_sublist fidList mode e arrs w sel thr verdict spectrum score :
  fid_arrays gs fidList mode e = Ok arrs ->
  select_fids fidList w = Ok sel ->
  test_fiducial_list gs sel mode (scoreFunc o) thr = Ok (verdict, spectrum, score) ->
  raw_score gs o arrs w
  = Ok (float_of_nat (length sel) * list_score spectrum (scoreFunc o))
  /\ score = float_of_nat (length sel) * list_score (map abs spectrum) (scoreFunc o)
  /\ (forced_out o w = false ->
      score_of gs o arrs w
      = Ok (clamp (float_of_nat (length sel) * list_score spectrum (scoreFunc o)))).
Proof.
  intros Ha Hsel Ht.
  destruct (select_columns_fid_arrays _ _ _ _ _ _ Ha Hsel) as (arrs_sel & Ha' & Hcols).
  destruct (select_fids_sublist _ _ _ Hsel) as [_ Hlen].
  unfold test_fiducial_list in Ht.
  rewrite (fid_arrays_ok_any gs sel mode e invalid_mode arrs_sel Ha') in Ht.
  simpl in Ht. injection Ht as _ <- <-.
  assert (Hraw : raw_score gs o arrs w
                 = Ok (float_of_nat (length sel)
                       * list_score (eigvalsh (gram (hconcat (get_dimension gs) arrs_sel)))
                           (scoreFunc o))).
  { unfold raw_score. rewrite Hcols. simpl. rewrite Hlen. reflexivity. }
  split; [exact Hraw|]. split; [reflexivity|].
  intros Hf. unfold score_of. rewrite Hf, Hraw. reflexivity.
Qed.

End SelectedScore.
(** * The optimizer around its search *)

Section Around.
Context `{LinAlg}.
Variable py3 : bool.
Variable reclimit : nat.
Variable gs : GateSet.
Variable fidList : list gatestring.
Variable o : options.

Let run := optimize_integer_fiducials_slack py3 reclimit gs fidList o.

(** The run, case by case. *)
Lemma optimizer_cases s :
  run s =
  if xor [truthy (fixedSlack o); truthy (slackFrac o)] then
    match test_fiducial_list gs fidList (prepOrMeas o) (scoreFunc o) (threshold o) with
    | Raise e => (Raise e, s)
    | Ok t =>
        if fst (fst t) then
          match fid_arrays gs fidList (prepOrMeas o) must_specify with
          | Raise e =>
              (Raise e, {| scoreD := ∅; events := events s ++ removelast (entry_events fidList) |})
          | Ok arrs =>
              match fixedNum o with
              | Some n => fixed_num_search reclimit gs fidList o arrs n (search_start fidList s)
              | None =>
                  match local_search py3 gs fidList o arrs (search_start fidList s) with
                  | (Raise e, sL) => (Raise e, sL)
                  | (Ok (st, _), sL) =>
                      match select_fids fidList (weights st) with
                      | Raise e =>
                          (Raise e, {| scoreD := scoreD sL;
                                       events := events sL ++ removelast (report_events st) |})
                      | Ok fids =>
                          (Ok (result_of o fids (weights st) (scoreD sL)),
                           {| scoreD := scoreD sL; events := events sL ++ report_events st |})
                      end
                  end
              end
          end
        else (Ok RNone, {| scoreD := scoreD s; events := events s ++ abort_events fidList |})
    end
  else (Raise slack_error, s).
Proof.
  unfold run, optimize_integer_fiducials_slack.
  destruct (xor _); [|reflexivity]. cbn [negb].
  cbv [mbind emit mret lift put_scoreD get_scoreD]. cbn [scoreD events].
  destruct (test_fiducial_list _ _ _ _ _) as [t|e]; [|reflexivity].
  destruct (fst (fst t)); cbn [negb]; cbv beta iota; cbn [scoreD events].
  2:{ unfold abort_events. rewrite <- !app_assoc. reflexivity. }
  destruct (fid_arrays _ _ _ _) as [arrs|e].
  2:{ unfold entry_events. cbn [removelast]. rewrite <- !app_assoc. reflexivity. }
  assert (Es : {| scoreD := ∅;
                  events := ((((events s ++ [TestedList fidList]) ++
                     [Printed "Complete initial fiducial set succeeds."]) ++
                     [Printed "Now searching for best fiducial set."]) ++
                     [Logged "Starting fiducial set optimization. Lower score is better."]) ++
                     [BuiltMatrices] |} = search_start fidList s).
  { unfold search_start, entry_events. rewrite <- !app_assoc. reflexivity. }
  rewrite Es. destruct (fixedNum o) as [n|]; [reflexivity|].
  destruct (local_search _ _ _ _ _ _) as [[[st oc]|e] sL]; [|reflexivity].
  cbn [fst scoreD events].
  destruct (select_fids fidList (weights st)) as [fids|e].
  - unfold result_of, report_events.
    destruct (returnAll o); cbn [scoreD events]; rewrite <- !app_assoc; reflexivity.
  - unfold report_events. cbn [removelast]. rewrite <- !app_assoc. reflexivity.
Qed.

End Around.
Section AroundFacts.
Context `{LinAlg}.
Variable py3 : bool.
Variable reclimit : nat.
Variable gs : GateSet.
Variable fidList : list gatestring.
Variable o : options.

Let run := optimize_integer_fiducials_slack py3 reclimit gs fidList o.

Lemma test_ok_fid_arrays mode sf thr t e :
  test_fiducial_list gs fidList mode sf thr = Ok t ->
  exists arrs, fid_arrays gs fidList mode e = Ok arrs.
Proof.
  unfold test_fiducial_list. destruct (fid_arrays gs fidList mode invalid_mode) as [arrs|e0] eqn:Ha;
    [|discriminate].
  intros _. exists arrs. exact (fid_arrays_ok_any gs fidList mode _ e arrs Ha).
Qed.

Lemma body_exn_not_must_specify e : body_exn e -> e <> must_specify.
Proof. intros [He|He] ->; exact He. Qed.

(** When the full candidate list fails the initial test, the optimizer
    prints the two lines of the failure and returns [None]; it raises
    nothing, builds no matrices and leaves the score dictionary alone. *)
Theorem failed_initial_test_aborts s spectrum score :
  xor [truthy (fixedSlack o); truthy (slackFrac o)] = true ->
  test_fiducial_list gs fidList (prepOrMeas o) (scoreFunc o) (threshold o)
  = Ok (false, spectrum, score) ->
  run s = (Ok RNone, {| scoreD := scoreD s; events := events s ++ abort_events fidList |}).
Proof.
  intros Hx Ht. unfold run. rewrite optimizer_cases, Hx, Ht. reflexivity.
Qed.

(** A [prepOrMeas] that is neither 'prep' nor 'meas' is reported by
    [test_fiducial_list]'s ValueError, before anything is printed, and the
    optimizer's own [Exception('prepOrMeas must be specified!')] is never
    raised, whatever the arguments. *)
Theorem must_specify_is_never_raised s :
  fst (run s) <> Raise must_specify
  /\ (xor [truthy (fixedSlack o); truthy (slackFrac o)] = true ->
      mode_is (prepOrMeas o) "prep" = false -> mode_is (prepOrMeas o) "meas" = false ->
      run s = (Raise invalid_mode, s)).
Proof.
  split.
  - unfold run. rewrite optimizer_cases.
    destruct (xor _); [|discriminate].
    destruct (test_fiducial_list _ _ _ _ _) as [t|e] eqn:Ht.
    2:{ simpl. intros [= ->]. pose proof (test_fiducial_list_foot gs fidList _ _ _ _ Ht) as E.
        discriminate E. }
    destruct (fst (fst t)); [|discriminate].
    destruct (test_ok_fid_arrays _ _ _ _ must_specify Ht) as [arrs ->].
    destruct (fixedNum o) as [n|].
    + destruct (fixed_num_search _ _ _ _ _ _ _) as [r s'] eqn:E. simpl. intros ->.
      destruct (fixed_num_search_foot reclimit gs fidList o arrs n _ _ _ E) as [_ HQ].
      exact (body_exn_not_must_specify _ (HQ _ eq_refl) eq_refl).
    + destruct (local_search _ _ _ _ _ _) as [[[st oc]|e] sL] eqn:E.
      * destruct (select_fids fidList (weights st)) as [fids|e] eqn:Hs; [discriminate|].
        simpl. intros [= ->]. exact (select_fids_foot fidList _ _ Hs).
      * simpl. intros [= ->].
        destruct (local_search_foot py3 gs fidList o arrs _ _ _ E) as [_ HQ].
        exact (HQ _ eq_refl).
  - intros Hx Hp Hm. unfold run. rewrite optimizer_cases, Hx.
    unfold test_fiducial_list, fid_arrays. rewrite Hp, Hm. reflexivity.
Qed.

Lemma search_event_not_warning e : search_event e -> e <> final_warning.
Proof. intros He ->. exact He. Qed.

Lemma body_event_not_warning e : body_event e -> e <> final_warning.
Proof. intros [He|He] ->; exact He. Qed.

Lemma Forall_not_warning (evs : list event) :
  ~ In final_warning evs -> Forall (fun e => e <> final_warning) evs.
Proof. intros Hn. apply List.Forall_forall. intros e He ->. exact (Hn He). Qed.

Lemma removelast_report st :
  Forall (fun e => e <> final_warning) (removelast (report_events st)).
Proof. repeat constructor; discriminate. Qed.

(** Every event of a run, beyond those of the state it started in, is
    something other than the final warning. *)
Lemma optimizer_events s :
  exists evs, events (snd (run s)) = events s ++ evs
              /\ Forall (fun e => e <> final_warning) evs.
Proof.
  unfold run. rewrite optimizer_cases.
  assert (Hnil : exists evs, events s = events s ++ evs
                             /\ Forall (fun e => e <> final_warning) evs)
    by (exists []; rewrite app_nil_r; auto).
  destruct (xor _); [|exact Hnil].
  destruct (test_fiducial_list _ _ _ _ _) as [t|e]; [|exact Hnil].
  destruct (fst (fst t)).
  2:{ eexists. split; [reflexivity|]. repeat constructor; discriminate. }
  destruct (fid_arrays _ _ _ _) as [arrs|e].
  2:{ eexists. split; [reflexivity|]. repeat constructor; discriminate. }
  assert (Hentry : Forall (fun e => e <> final_warning) (entry_events fidList))
    by (repeat constructor; discriminate).
  destruct (fixedNum o) as [n|].
  - destruct (fixed_num_search _ _ _ _ _ _ _) as [r s'] eqn:E.
    destruct (foot_events _ _ _ _ _ _ (fixed_num_search_foot reclimit gs fidList o arrs n) E)
      as (evs & E1 & F1).
    exists (entry_events fidList ++ evs). cbn [snd]. rewrite E1. cbn [search_start events].
    rewrite app_assoc. split; [reflexivity|]. apply Forall_app. split; [exact Hentry|].
    eapply Forall_impl; [exact F1|]. apply body_event_not_warning.
  - destruct (local_search _ _ _ _ _ _) as [r sL] eqn:E.
    destruct (foot_events _ _ _ _ _ _ (local_search_foot py3 gs fidList o arrs) E)
      as (evs & E1 & F1). cbn [search_start events] in E1.
    assert (F1' : Forall (fun e => e <> final_warning) (entry_events fidList ++ evs)).
    { apply Forall_app. split; [exact Hentry|].
      eapply Forall_impl; [exact F1|]. apply search_event_not_warning. }
    destruct r as [[st oc]|e].
    + destruct (select_fids fidList (weights st)) as [fids|e]; cbn [snd events]; rewrite E1.
      * exists ((entry_events fidList ++ evs) ++ report_events st).
        rewrite !app_assoc. split; [reflexivity|]. apply Forall_app. split; [exact F1'|].
        repeat constructor; discriminate.
      * exists ((entry_events fidList ++ evs) ++ removelast (report_events st)).
        rewrite !app_assoc. split; [reflexivity|]. apply Forall_app. split; [exact F1'|].
        apply removelast_report.
    + cbn [snd]. rewrite E1. exists (entry_events fidList ++ evs).
      rewrite app_assoc. split; [reflexivity|exact F1'].
Qed.

(** The warning that the final fiducial set fails is never printed, and a
    local search that returns a list always ends on the line of success:
    the final message repeats the initial test, which has passed whenever
    the search ran. *)
Theorem final_warning_is_never_printed s :
  (~ In final_warning (events s) -> ~ In final_warning (events (snd (run s))))
  /\ (fixedNum o = None ->
      forall r, fst (run s) = Ok r -> r <> RNone ->
      last (events (snd (run s))) = Some (Printed "Final fiducial set succeeds.")).
Proof.
  split.
  - intros Hs Hin. destruct (optimizer_events s) as (evs & E & F).
    rewrite E in Hin. apply in_app_or in Hin as [Hin|Hin]; [exact (Hs Hin)|].
    exact (proj1 (List.Forall_forall _ _) F _ Hin eq_refl).
  - intros Hn r. unfold run. rewrite optimizer_cases, Hn.
    destruct (xor _); [|discriminate].
    destruct (test_fiducial_list _ _ _ _ _) as [t|e]; [|discriminate].
    destruct (fst (fst t)).
    2:{ simpl. intros [= <-] Hr. contradiction. }
    destruct (fid_arrays _ _ _ _) as [arrs|e]; [|discriminate].
    destruct (local_search _ _ _ _ _ _) as [[[st oc]|e] sL]; [|discriminate].
    destruct (select_fids fidList (weights st)) as [fids|e]; [|discriminate].
    intros _ _. cbn [snd events]. unfold report_events.
    rewrite last_app. reflexivity.
Qed.

End AroundFacts.
(** * What a local search returns *)

Section LocalSearchFacts.
Context `{LinAlg}.
Variable py3 : bool.
Variable reclimit : nat.
Variable gs : GateSet.
Variable fidList : list gatestring.
Variable o : options.

Let run := optimize_integer_fiducials_slack py3 reclimit gs fidList o.

Lemma main_loop_consistent arrs n : forall lwo st s st' oc s',
  main_loop py3 gs fidList o arrs n lwo st s = (Ok (st', oc), s') ->
  consistent gs o arrs (scoreD s) -> coherent gs o arrs st ->
  consistent gs o arrs (scoreD s').
Proof.
  induction n as [|n IH]; intros lwo st s st' oc s' Hrun Hc Hcoh; simpl in Hrun.
  - rewrite (mbind_run _ _ _ _ _ (emit_run _ _)) in Hrun. injection Hrun as _ _ <-. exact Hc.
  - apply mbind_ok_inv in Hrun as ([[lwo1 st1] broke] & s1 & Hit & Hrest).
    destruct (iteration_inv py3 gs fidList o arrs _ _ _ _ _ _ _ Hit Hc Hcoh) as (C1 & Hcoh1 & _).
    destruct broke.
    + injection Hrest as _ _ <-. exact C1.
    + apply (IH _ _ _ _ _ _ Hrest C1 (Hcoh1 eq_refl)).
Qed.

(** The start of a local search. *)
Lemma local_search_start arrs s r sL :
  local_search py3 gs fidList o arrs s = (Ok r, sL) ->
  let w0 := default (all_ones (length fidList)) (initialWeights o) in
  exists score0,
    score_of gs o arrs w0 = Ok score0
    /\ main_loop py3 gs fidList o arrs (maxIter o)
         (match initialWeights o with Some _ => false | None => true end)
         {| weights := w0; score := score0; L1 := popcount w0;
            bFoundBetterNeighbor := false |}
         {| scoreD := <[w0 := score0]> (scoreD s);
            events := if forced_out o w0 then events s else events s ++ [Scored w0] |}
       = (Ok r, sL).
Proof.
  unfold local_search, nFids. intros Hrun.
  destruct (initialWeights o) as [iw|]; cbn [default].
  all: apply mbind_ok_inv in Hrun as (score0 & s1 & Hcs & Hrest).
  all: rewrite compute_score_run in Hcs.
  all: destruct (score_of gs o arrs _) as [v|e]; [|discriminate].
  all: injection Hcs as <- <-; exists v; split; [reflexivity|exact Hrest].
Qed.

Lemma local_search_consistent arrs s st oc sL :
  local_search py3 gs fidList o arrs s = (Ok (st, oc), sL) ->
  consistent gs o arrs (scoreD s) ->
  consistent gs o arrs (scoreD sL)
  /\ (oc = Stationary -> exists lwo, stationary_at gs fidList o arrs lwo (weights st)).
Proof.
  intros Hrun Hc. destruct (local_search_start _ _ _ _ Hrun) as (score0 & Hs0 & Hloop).
  assert (C0 : consistent gs o arrs
                 (<[default (all_ones (length fidList)) (initialWeights o) := score0]> (scoreD s)))
    by (apply consistent_insert; assumption).
  split.
  - eapply main_loop_consistent; [exact Hloop|exact C0|]. split; [exact Hs0|reflexivity].
  - intros ->. eapply main_loop_stationary; [exact Hloop|exact C0|].
    split; [exact Hs0|reflexivity].
Qed.

Lemma stationary_at_shrinking arrs lwo w :
  stationary_at gs fidList o arrs lwo w -> stationary_at gs fidList o arrs true w.
Proof.
  intros (s & relaxed & Hs & Hr & Hn). exists s, relaxed. split; [exact Hs|].
  split; [exact Hr|]. intros i Hi. destruct (Hn i Hi) as (n & sn & Hg & Hsn & Ha & Har).
  exists n, sn. split; [exact Hg|]. split; [exact Hsn|]. split; [|exact Har].
  unfold accepts in *. destruct (sn <=? s)%float; [|reflexivity].
  destruct (popcount n <? popcount w)%nat; [|reflexivity].
  destruct lwo; simpl in Ha; discriminate.
Qed.

(** A run that returns has done so on a weight vector: the list it returns
    is the sublist of the candidates that the vector selects, in the
    candidates' order and with one sequence per 1 of the vector.  With
    [returnAll] the vector and the score dictionary come along, and every
    entry of that dictionary is the score [compute_score] gives its key. *)
Theorem local_search_returns_selection s r s' :
  fixedNum o = None ->
  run s = (Ok r, s') -> r <> RNone ->
  exists arrs w fids,
    fid_arrays gs fidList (prepOrMeas o) must_specify = Ok arrs
    /\ select_fids fidList w = Ok fids
    /\ fids `sublist_of` fidList
    /\ length fids = popcount w
    /\ r = (if returnAll o then RAll fids w (scoreD s') else RFids fids)
    /\ consistent gs o arrs (scoreD s')
    /\ In (LoggedWeights w) (events s').
Proof.
  intros Hn. unfold run. rewrite optimizer_cases, Hn.
  destruct (xor _); [|discriminate].
  destruct (test_fiducial_list _ _ _ _ _) as [t|e]; [|discriminate].
  destruct (fst (fst t)); [|intros [= <- _] Hr; contradiction].
  destruct (fid_arrays _ _ _ _) as [arrs|e]; [|discriminate].
  destruct (local_search _ _ _ _ _ _) as [[[st oc]|e] sL] eqn:Hls; [|discriminate].
  destruct (select_fids fidList (weights st)) as [fids|e] eqn:Hsel; [|discriminate].
  intros [= <- <-] _. exists arrs, (weights st), fids.
  destruct (select_fids_sublist _ _ _ Hsel) as [Hsub Hlen].
  destruct (local_search_consistent _ _ _ _ _ Hls (consistent_empty gs o arrs)) as [C _].
  split; [reflexivity|]. split; [exact Hsel|]. split; [exact Hsub|]. split; [exact Hlen|].
  split; [reflexivity|]. split; [exact C|].
  cbn [events]. apply in_or_app. right. simpl. auto.
Qed.

(** Local optimality: when a run without fixed size reports a stationary
    point, the vector it returns has no neighbour (one entry toggled) with
    fewer fiducials that scores at most as much as it, and none with fewer
    fiducials that scores below its relaxed score; all its neighbours have
    been scored. *)
Theorem stationary_point_is_locally_optimal s r s' :
  fixedNum o = None ->
  run s = (Ok r, s') ->
  ~ In (Logged "Stationary point found!") (events s) ->
  In (Logged "Stationary point found!") (events s') ->
  exists arrs w fids,
    fid_arrays gs fidList (prepOrMeas o) must_specify = Ok arrs
    /\ select_fids fidList w = Ok fids
    /\ r = (if returnAll o then RAll fids w (scoreD s') else RFids fids)
    /\ stationary_at gs fidList o arrs true w.
Proof.
  intros Hn. unfold run. rewrite optimizer_cases, Hn.
  destruct (xor _); [|discriminate].
  destruct (test_fiducial_list _ _ _ _ _) as [t|e]; [|discriminate].
  destruct (fst (fst t)).
  2:{ intros [= _ <-] Hs Hin. cbn [events] in Hin. apply in_app_or in Hin as [Hin|Hin];
        [contradiction|]. simpl in Hin.
      repeat (destruct Hin as [Hin|Hin]; [discriminate Hin|]). contradiction. }
  destruct (fid_arrays _ _ _ _) as [arrs|e]; [|discriminate].
  destruct (local_search _ _ _ _ _ _) as [[[st oc]|e] sL] eqn:Hls; [|discriminate].
  destruct (select_fids fidList (weights st)) as [fids|e] eqn:Hsel; [|discriminate].
  intros [= <- <-] Hs Hin. exists arrs, (weights st), fids.
  split; [reflexivity|]. split; [exact Hsel|]. split; [reflexivity|].
  destruct (local_search_consistent _ _ _ _ _ Hls (consistent_empty gs o arrs)) as [_ Hst].
  destruct oc.
  - destruct (Hst eq_refl) as [lwo Hlwo]. exact (stationary_at_shrinking _ _ _ Hlwo).
  - exfalso. destruct (local_search_hit_events py3 gs fidList o _ _ _ _ Hls) as (evs & E & F).
    cbn [events search_start] in *. rewrite E in Hin. rewrite !in_app_iff in Hin.
    destruct Hin as [[[Hin|Hin]|Hin]|Hin].
    + contradiction.
    + simpl in Hin. repeat (destruct Hin as [Hin|Hin]; [discriminate Hin|]). contradiction.
    + apply (proj1 (List.Forall_forall _ _) F) in Hin. simpl in Hin.
      destruct Hin; discriminate.
    + simpl in Hin. repeat (destruct Hin as [Hin|Hin]; [discriminate Hin|]). contradiction.
Qed.

(** With [maxIter = 0] the loop body never runs: the optimizer scores the
    start vector, logs that it hit the iteration limit and returns the
    start vector's selection, which is the whole candidate list when no
    [initialWeights] are given. *)
Theorem zero_iterations_return_the_start s r s' :
  maxIter o = 0%nat -> fixedNum o = None ->
  run s = (Ok r, s') -> r <> RNone ->
  let w0 := default (all_ones (length fidList)) (initialWeights o) in
  exists fids,
    select_fids fidList w0 = Ok fids
    /\ r = (if returnAll o then RAll fids w0 (scoreD s') else RFids fids)
    /\ In (Logged "Hit max. iterations") (events s')
    /\ (forall e, In e (events s') -> ~ In e (events s) ->
        e <> Logged "Moving to better neighbor" /\ e <> Logged "Stationary point found!")
    /\ (initialWeights o = None -> fids = fidList).
Proof.
  intros Hmax Hn. unfold run. rewrite optimizer_cases, Hn.
  destruct (xor _); [|discriminate].
  destruct (test_fiducial_list _ _ _ _ _) as [t|e]; [|discriminate].
  destruct (fst (fst t)); [|intros [= <- _] Hr; contradiction].
  destruct (fid_arrays _ _ _ _) as [arrs|e]; [|discriminate].
  destruct (local_search _ _ _ _ _ _) as [[[st oc]|e] sL] eqn:Hls; [|discriminate].
  destruct (local_search_start _ _ _ _ Hls) as (score0 & Hs0 & Hloop).
  rewrite Hmax in Hloop. simpl in Hloop.
  rewrite (mbind_run _ _ _ _ _ (emit_run _ _)) in Hloop. injection Hloop as <- <- <-.
  cbn [weights scoreD events].
  destruct (select_fids fidList _) as [fids|e] eqn:Hsel; [|discriminate].
  intros [= <- <-] _. cbv zeta. exists fids. split; [reflexivity|]. split; [reflexivity|].
  cbn [events scoreD search_start]. split; [|split].
  - rewrite !in_app_iff. left. right. left. reflexivity.
  - intros e He Hne. rewrite !in_app_iff in He.
    destruct (forced_out o _); rewrite ?in_app_iff in He; simpl in He.
    all: repeat match goal with
           | H : _ \/ _ |- _ => destruct H as [H|H]
           end; try contradiction; subst e; split; discriminate.
  - intros Hiw. rewrite Hiw in Hsel. cbn [default] in Hsel.
    rewrite select_fids_all_ones in Hsel. congruence.
Qed.

End LocalSearchFacts.
(** * More on the enumeration of fixed-weight vectors *)

Section Enumeration.

Lemma combs_complete m : forall i lo locs,
  length locs = i -> increasing_from lo locs ->
  Forall (fun x => x < lo + Z.of_nat m) locs ->
  In locs (combs m i lo).
Proof.
  induction m as [|m IH]; intros i lo locs Hlen Hinc Hlt.
  - destruct locs as [|x locs]; simpl in *; subst i; [left; reflexivity|].
    exfalso. inversion Hlt; subst. destruct Hinc. lia.
  - destruct locs as [|x locs]; simpl in Hlen; subst i; [left; reflexivity|].
    simpl. destruct Hinc as [Hx Hinc]. inversion Hlt as [|? ? Hxlt Hrest]; subst.
    apply in_or_app. destruct (Z.eq_dec x lo) as [->|Hne].
    + left. apply in_map. apply IH; [reflexivity|exact Hinc|].
      eapply Forall_impl; [exact Hrest|]. simpl. intros; lia.
    + right. apply IH; [reflexivity| |].
      * split; [lia|exact Hinc].
      * constructor; [lia|]. eapply Forall_impl; [exact Hrest|]. simpl. intros; lia.
Qed.

Lemma where_from_increasing w : forall off,
  increasing_from (Z.of_nat off) (map Z.of_nat (where_from off w))
  /\ Forall (fun x => x < Z.of_nat off + Z.of_nat (length w)) (map Z.of_nat (where_from off w)).
Proof.
  induction w as [|b w IH]; intros off; simpl; [split; [exact I|constructor]|].
  destruct (IH (S off)) as [Hinc Hlt].
  assert (Hlt' : Forall (fun x => x < Z.of_nat off + Z.of_nat (S (length w)))
                   (map Z.of_nat (where_from (S off) w))).
  { eapply Forall_impl; [exact Hlt|]. simpl. intros; lia. }
  destruct b; simpl.
  - split; [split; [lia|]|constructor; [lia|exact Hlt']].
    replace (Z.of_nat off + 1) with (Z.of_nat (S off)) by lia. exact Hinc.
  - split; [|exact Hlt']. clear -Hinc.
    destruct (map Z.of_nat (where_from (S off) w)) as [|x l]; [exact I|].
    destruct Hinc. split; [lia|assumption].
Qed.

Lemma set_where w : forall pre,
  fold_left (fun r j => <[j := true]> r) (where_from (length pre) w)
    (pre ++ replicate (length w) false)
  = pre ++ w.
Proof.
  induction w as [|b w IH]; intros pre; [reflexivity|].
  specialize (IH (pre ++ [b])). rewrite length_app, Nat.add_1_r, <- !app_assoc in IH.
  simpl in IH. destruct b; simpl.
  - rewrite insert_app_r_alt, Nat.sub_diag by lia. exact IH.
  - exact IH.
Qed.

Lemma indicator_one_positions w : indicator (length w) (one_positions w) = w.
Proof.
  unfold indicator, one_positions. rewrite map_map.
  erewrite map_ext; [|intros j; apply Nat2Z.id]. rewrite map_id.
  apply (set_where w []).
Qed.

(** The enumeration is complete: for 1 <= k <= n every binary vector of
    length [n] with exactly [k] ones is one of the rows. *)
Theorem build_bitvec_mx_complete (reclimit n k : nat) (v : list bool) :
  (1 <= k <= n)%nat -> (k <= reclimit)%nat ->
  length v = n -> popcount v = k ->
  exists rows,
    build_bitvec_mx reclimit (Z.of_nat n) (Z.of_nat k) = Ok rows /\ In v rows.
Proof.
  intros Hk Hf Hn Hp. eexists. split; [apply build_bitvec_mx_rows; assumption|].
  rewrite <- (indicator_one_positions v), Hn. apply in_map.
  destruct (where_from_increasing v 0) as [Hinc Hlt].
  apply combs_complete.
  - unfold one_positions, where_. rewrite length_map, <- popcount_where. exact Hp.
  - exact Hinc.
  - rewrite Hn in Hlt. exact Hlt.
Qed.

Lemma build_bitvec_mx_empty (reclimit : nat) (n k : Z) :
  0 <= n < k -> build_bitvec_mx reclimit n k = Ok [].
Proof.
  intros Hnk. unfold build_bitvec_mx.
  destruct (Z.ltb_spec n 0); [lia|].
  rewrite range_nil by lia. unfold binom.
  destruct (Z.leb_spec k n); [lia|]. rewrite andb_false_r. reflexivity.
Qed.

(** With more ones asked for than there are positions, the enumeration has
    no rows, as many as the binomial coefficient counts; no recursion takes
    place, so the recursion allowance does not matter. *)
Theorem build_bitvec_mx_too_heavy (reclimit : nat) (n k : Z) :
  0 <= n < k ->
  build_bitvec_mx reclimit n k = Ok [] /\ binom n k = 0.
Proof.
  intros Hnk. unfold build_bitvec_mx, binom.
  destruct (Z.ltb_spec n 0); [lia|]. destruct (Z.leb_spec k n); [lia|].
  rewrite andb_false_r, range_nil by lia. split; reflexivity.
Qed.

(** With a weight of zero or less, the recursion never reaches its base
    case, whatever the allowance. *)
Lemma build_bitvec_mx_no_base_case (reclimit : nat) (n k : Z) :
  0 <= n -> k <= 0 -> build_bitvec_mx reclimit n k = Raise RecursionError.
Proof.
  intros Hn Hk. unfold build_bitvec_mx. destruct (Z.ltb_spec n 0); [lia|].
  rewrite range_cons by lia. simpl.
  rewrite (build_mx_below_zero _ _ _ _ 0); [reflexivity|lia|reflexivity|lia].
Qed.

Lemma choose_pos n : forall k, (k <= n)%nat -> (0 < choose n k)%nat.
Proof.
  induction n as [|n IH]; intros [|k] Hk; simpl; try lia.
  specialize (IH k ltac:(lia)). lia.
Qed.

End Enumeration.
(** * What the fixed-size search returns *)

Section FixedSize.
Context `{LinAlg}.
Variable py3 : bool.
Variable reclimit : nat.
Variable gs : GateSet.
Variable fidList : list gatestring.
Variable o : options.

Local Open Scope float_scope.

Lemma ltb_infinity_false v : (v <? infinity) = false -> isinf v = false -> v = nan.
Proof.
  intros Hlt Hinf. rewrite FloatAxioms.ltb_spec in Hlt. unfold SFltb in Hlt.
  change (Prim2SF infinity) with (S754_infinity false) in Hlt.
  destruct (Prim2SF v) as [s|s| |s m e] eqn:Ea; simpl in Hlt; try discriminate.
  - destruct s; [discriminate|]. apply Prim2SF_is in Ea. subst v.
    vm_compute in Hinf. discriminate.
  - apply Prim2SF_is in Ea. exact Ea.
Qed.

(** One turn of the pass, read backwards. *)
Lemma fixed_num_step_inv arrs bs bw c best' s s' :
  fixed_num_step gs fidList o arrs (bs, bw) c s = (Ok best', s') ->
  exists v,
    score_of gs o arrs c = Ok v
    /\ scoreD s' = <[c := v]> (scoreD s)
    /\ (best' = (v, c) \/ best' = (bs, bw))
    /\ (tied v bs = false -> (v <? bs) = true -> best' = (v, c)).
Proof.
  unfold fixed_num_step. intros Hrun.
  apply mbind_ok_inv in Hrun as (v & s1 & Hcs & Hrest).
  rewrite compute_score_run in Hcs.
  destruct (score_of gs o arrs c) as [v'|e]; [|discriminate].
  injection Hcs as <- <-. exists v'. split; [reflexivity|].
  fold (tied v' bs) in Hrest. destruct (tied v' bs).
  - apply mbind_ok_inv in Hrest as (fb & s2 & Hfb & Hrest).
    apply lift_ok_inv in Hfb as [_ ->].
    apply mbind_ok_inv in Hrest as (fc & s3 & Hfc & Hrest).
    apply lift_ok_inv in Hfc as [_ ->].
    destruct (total_length fc <? total_length fb)%nat.
    + rewrite (mbind_run _ _ _ _ _ (emit_run _ _)) in Hrest.
      injection Hrest as <- <-. simpl. split; [reflexivity|]. split; [auto|discriminate].
    + injection Hrest as <- <-. split; [reflexivity|]. split; [auto|discriminate].
  - destruct (v' <? bs); injection Hrest as <- <-; (split; [reflexivity|]);
      (split; [auto|]); intros _ Hlt; [reflexivity|discriminate].
Qed.

(** The pass ends on one of the candidates, unless every candidate it met
    scored NaN; it caches the score of every candidate. *)
Lemma fixed_fold_inv arrs cands : forall P bs bw s bs' bw' s',
  mfold (fixed_num_step gs fidList o arrs) cands (bs, bw) s = (Ok (bs', bw'), s') ->
  (forall c, In c cands -> forced_out o c = false) ->
  consistent gs o arrs (scoreD s) ->
  (bs = infinity /\ bw = [] /\ (forall c, In c P -> score_of gs o arrs c = Ok nan))
  \/ In bw P ->
  consistent gs o arrs (scoreD s')
  /\ ((bs' = infinity /\ bw' = []
       /\ (forall c, In c (P ++ cands) -> score_of gs o arrs c = Ok nan))
      \/ In bw' (P ++ cands)).
Proof.
  induction cands as [|c cands IH]; intros P bs bw s bs' bw' s' Hrun Hnf Hc Hinv.
  - injection Hrun as <- <- <-. rewrite app_nil_r. auto.
  - simpl in Hrun. apply mbind_ok_inv in Hrun as ([bs1 bw1] & s1 & Hstep & Hrest).
    destruct (fixed_num_step_inv _ _ _ _ _ _ _ Hstep) as (v & Hv & Hd & Hcase & Htake).
    assert (C1 : consistent gs o arrs (scoreD s1))
      by (rewrite Hd; apply consistent_insert; assumption).
    replace (P ++ c :: cands) with ((P ++ [c]) ++ cands) by (rewrite <- app_assoc; reflexivity).
    apply (IH (P ++ [c]) bs1 bw1 s1 bs' bw' s' Hrest); [|exact C1|].
    { intros x Hx. apply Hnf. right. exact Hx. }
    destruct Hinv as [(-> & -> & Hnan)|Hin].
    + destruct (v <? infinity) eqn:Hlt.
      * pose proof (Htake (tied_infinity_r v) eq_refl) as E. injection E as -> ->.
        right. apply in_or_app. right. left. reflexivity.
      * destruct Hcase as [[= -> ->]|[= -> ->]].
        -- right. apply in_or_app. right. left. reflexivity.
        -- left. split; [reflexivity|]. split; [reflexivity|].
           intros x Hx. apply in_app_or in Hx as [Hx|[<-|[]]]; [apply Hnan, Hx|].
           rewrite Hv. f_equal. apply ltb_infinity_false; [exact Hlt|].
           apply (score_of_not_infinite gs o arrs c v Hv). apply Hnf. left. reflexivity.
    + right. apply in_or_app. destruct Hcase as [[= -> ->]|[= -> ->]].
      * right. left. reflexivity.
      * left. exact Hin.
Qed.

(** A pass that returns has scored every candidate it met and left the
    score in the dictionary; it never changes an entry that holds the score
    of its key. *)
Lemma fixed_fold_caches arrs cands : forall best s best' s',
  mfold (fixed_num_step gs fidList o arrs) cands best s = (Ok best', s') ->
  (forall k v, scoreD s !! k = Some v -> score_of gs o arrs k = Ok v ->
     scoreD s' !! k = Some v)
  /\ forall c, In c cands ->
       exists v, score_of gs o arrs c = Ok v /\ scoreD s' !! c = Some v.
Proof.
  induction cands as [|c cands IH]; intros best s best' s' Hrun.
  - injection Hrun as <- <-. split; [auto|intros c []].
  - simpl in Hrun. apply mbind_ok_inv in Hrun as ([bs1 bw1] & s1 & Hstep & Hrest).
    destruct best as [bs bw].
    destruct (fixed_num_step_inv _ _ _ _ _ _ _ Hstep) as (v & Hv & Hd & _).
    destruct (IH _ _ _ _ Hrest) as [Hkeep Hall].
    assert (Hstay : forall k x, scoreD s !! k = Some x -> score_of gs o arrs k = Ok x ->
                      scoreD s1 !! k = Some x).
    { intros k x Hk Hx. rewrite Hd. destruct (decide (k = c)) as [->|Hne].
      - rewrite lookup_insert_eq. congruence.
      - rewrite lookup_insert_ne by congruence. exact Hk. }
    split.
    + intros k x Hk Hx. apply Hkeep; [apply Hstay; assumption|exact Hx].
    + intros x [<-|Hx]; [|apply Hall, Hx].
      exists v. split; [exact Hv|]. apply Hkeep; [|exact Hv].
      rewrite Hd. apply lookup_insert_eq.
Qed.

Lemma candidates_not_forced rows c : In c (candidates o rows) -> forced_out o c = false.
Proof.
  unfold candidates, forced_out. destruct (forceEmpty o); [|reflexivity].
  rewrite in_map_iff. intros (row & <- & _). reflexivity.
Qed.

Lemma candidates_shape n k rows c :
  Forall (fun row => length row = n /\ popcount row = k) rows ->
  In c (candidates o rows) ->
  length c = ((if forceEmpty o then 1 else 0) + n)%nat
  /\ popcount c = ((if forceEmpty o then 1 else 0) + k)%nat
  /\ (forceEmpty o = true -> c !! 0%nat = Some true)
  /\ forced_out o c = false.
Proof.
  intros Hrows Hc. unfold candidates, forced_out in *. rewrite List.Forall_forall in Hrows.
  destruct (forceEmpty o).
  - apply in_map_iff in Hc as (row & <- & Hrow). destruct (Hrows _ Hrow) as [Hl Hp].
    rewrite popcount_cons. simpl. auto.
  - destruct (Hrows _ Hc) as [Hl Hp]. simpl. split; [auto|]. split; [auto|].
    split; [discriminate|reflexivity].
Qed.

Lemma indicator_combs_shape n k locs :
  In locs (combs n k 0) ->
  length (indicator n locs) = n /\ popcount (indicator n locs) = k.
Proof.
  intros Hin. split; [apply length_indicator|].
  destruct (combs_spec _ _ _ _ Hin) as (Hlen & Hinc & Hlt).
  rewrite (popcount_where 0).
  change (where_from 0 (indicator n locs)) with (where_ (indicator n locs)).
  rewrite <- (length_map Z.of_nat).
  change (map Z.of_nat (where_ (indicator n locs))) with (one_positions (indicator n locs)).
  rewrite one_positions_indicator; [exact Hlen|exact Hinc|].
  eapply Forall_impl; [exact Hlt|]. simpl. intros; lia.
Qed.

(** The fixed-size search returns a set of the requested size.  When the
    number of ones to place is between 1 and the number of free positions
    (and within the recursion allowance), a search that returns has scored
    every candidate and the dictionary it leaves holds each candidate's
    score under the candidate's key; the vector it returns has the length
    of the candidate list and exactly [fixedNum] ones, the first of them at
    position 0 under [forceEmpty], and it selects [fixedNum] fiducials.  The
    only other outcome is the empty vector and the empty list, which needs
    every candidate to score NaN. *)
Theorem fixed_num_search_returns_fixed_size arrs fixedNum s r s' :
  let hammingWeight := (if forceEmpty o then fixedNum - 1 else fixedNum)%Z in
  let numBits := (if forceEmpty o then Z.of_nat (length fidList) - 1
                  else Z.of_nat (length fidList))%Z in
  (1 <= hammingWeight <= numBits)%Z -> (hammingWeight <= Z.of_nat reclimit)%Z ->
  consistent gs o arrs (scoreD s) ->
  fixed_num_search reclimit gs fidList o arrs fixedNum s = (Ok r, s') ->
  exists rows w fids,
    build_bitvec_mx reclimit numBits hammingWeight = Ok rows
    /\ rows <> []
    /\ select_fids fidList w = Ok fids
    /\ r = (if returnAll o then RAll fids w (scoreD s') else RFids fids)
    /\ consistent gs o arrs (scoreD s')
    /\ (forall c, In c (candidates o rows) ->
        exists v, score_of gs o arrs c = Ok v /\ scoreD s' !! c = Some v)
    /\ ((In w (candidates o rows)
         /\ length w = length fidList
         /\ Z.of_nat (popcount w) = fixedNum
         /\ Z.of_nat (length fids) = fixedNum
         /\ fids `sublist_of` fidList
         /\ (forceEmpty o = true -> w !! 0%nat = Some true))
        \/ (w = [] /\ fids = []
            /\ forall c, In c (candidates o rows) -> score_of gs o arrs c = Ok nan)).
Proof.
  intros hw nb Hhw Hrec Hc Hrun.
  set (n := Z.to_nat nb). set (k := Z.to_nat hw).
  assert (Hrows : build_bitvec_mx reclimit nb hw = Ok (map (indicator n) (combs n k 0))).
  { rewrite <- (Z2Nat.id nb), <- (Z2Nat.id hw) by lia.
    apply build_bitvec_mx_rows; subst n k; lia. }
  set (rows := map (indicator n) (combs n k 0)) in *.
  assert (Hshape : Forall (fun row => length row = n /\ popcount row = k) rows).
  { apply List.Forall_forall. intros row Hrow. apply in_map_iff in Hrow as (locs & <- & Hin).
    apply indicator_combs_shape, Hin. }
  assert (Hne : rows <> []).
  { intros E. apply (f_equal (@length _)) in E. subst rows.
    rewrite length_map, length_combs in E. simpl in E.
    pose proof (choose_pos n k ltac:(subst n k; lia)). lia. }
  unfold fixed_num_search in Hrun. fold hw nb in Hrun.
  do 3 rewrite (mbind_run _ _ _ _ _ (emit_run _ _)) in Hrun.
  rewrite Hrows in Hrun. rewrite (mbind_run (lift (Ok rows)) _ _ rows _ eq_refl) in Hrun.
  fold (candidates o rows) in Hrun.
  apply mbind_ok_inv in Hrun as ([bs bw] & s1 & Hfold & Hrest).
  cbn [snd] in Hrest.
  apply mbind_ok_inv in Hrest as (fids & s2 & Hsel & Hrest).
  apply lift_ok_inv in Hsel as [Hsel ->].
  assert (Hr : r = (if returnAll o then RAll fids bw (scoreD s') else RFids fids) /\ s1 = s').
  { destruct (returnAll o).
    - cbv [mbind get_scoreD mret] in Hrest. injection Hrest as <- <-. auto.
    - injection Hrest as <- <-. auto. }
  destruct Hr as [-> ->].
  destruct (fixed_fold_inv arrs (candidates o rows) [] infinity [] _ bs bw s' Hfold)
    as [C Hend].
  { intros c Hin. apply (candidates_shape n k rows c Hshape Hin). }
  { exact Hc. }
  { left. split; [reflexivity|]. split; [reflexivity|]. intros c []. }
  destruct (fixed_fold_caches arrs _ _ _ _ _ Hfold) as [_ Hall].
  exists rows, bw, fids. split; [exact Hrows|]. split; [exact Hne|]. split; [exact Hsel|].
  split; [reflexivity|]. split; [exact C|]. split; [exact Hall|].
  cbn [app] in Hend. destruct Hend as [(_ & -> & Hnan)|Hin].
  - right. split; [reflexivity|]. split; [|exact Hnan].
    unfold select_fids, where_ in Hsel. simpl in Hsel. congruence.
  - left. destruct (candidates_shape n k rows bw Hshape Hin) as (Hl & Hp & Hz & _).
    destruct (select_fids_sublist _ _ _ Hsel) as [Hsub Hlen].
    split; [exact Hin|]. split; [|split; [|split; [|split; [exact Hsub|exact Hz]]]].
    + rewrite Hl. subst n nb. destruct (forceEmpty o); lia.
    + rewrite Hp. subst k hw. destruct (forceEmpty o); lia.
    + rewrite Hlen, Hp. subst k hw. destruct (forceEmpty o); lia.
Qed.

Let run := optimize_integer_fiducials_slack py3 reclimit gs fidList o.

(** A fixed size that leaves no one to place (with the default
    [forceEmpty = True], a [fixedNum] of 1, or any smaller one) ends the
    optimizer in RecursionError once the initial test has passed. *)
Theorem fixed_size_without_free_ones_overflows s spectrum score num :
  xor [truthy (fixedSlack o); truthy (slackFrac o)] = true ->
  test_fiducial_list gs fidList (prepOrMeas o) (scoreFunc o) (threshold o)
  = Ok (true, spectrum, score) ->
  fixedNum o = Some num ->
  ((if forceEmpty o then num - 1 else num) <= 0)%Z ->
  (0 <= (if forceEmpty o then Z.of_nat (length fidList) - 1
         else Z.of_nat (length fidList)))%Z ->
  fst (run s) = Raise RecursionError.
Proof.
  intros Hx Ht Hn Hhw Hnb. unfold run. rewrite optimizer_cases, Hx, Ht. cbn [fst].
  destruct (test_ok_fid_arrays gs fidList _ _ _ _ must_specify Ht) as [arrs ->].
  rewrite Hn. unfold fixed_num_search.
  do 3 rewrite (mbind_run _ _ _ _ _ (emit_run _ _)).
  rewrite build_bitvec_mx_no_base_case by assumption. reflexivity.
Qed.

(** A fixed size larger than the candidate list is not an error: the
    enumeration is empty, nothing is scored, and the optimizer returns the
    empty list (with [returnAll], the empty vector and an empty score
    dictionary too). *)
Theorem fixed_size_too_large_returns_nothing s spectrum score num :
  xor [truthy (fixedSlack o); truthy (slackFrac o)] = true ->
  test_fiducial_list gs fidList (prepOrMeas o) (scoreFunc o) (threshold o)
  = Ok (true, spectrum, score) ->
  fixedNum o = Some num ->
  (Z.of_nat (length fidList) < num)%Z ->
  fidList <> [] \/ forceEmpty o = false ->
  run s
  = (Ok (if returnAll o then RAll [] [] ∅ else RFids []),
     {| scoreD := ∅;
        events := events s ++ entry_events fidList
                  ++ [Logged "Output set is required to be of size";
                      Logged "Total number of fiducial sets to be checked is";
                      Warned "If this is very large, you may wish to abort."] |}).
Proof.
  intros Hx Ht Hn Hbig Hne. unfold run. rewrite optimizer_cases, Hx, Ht. cbn [fst].
  destruct (test_ok_fid_arrays gs fidList _ _ _ _ must_specify Ht) as [arrs ->].
  rewrite Hn. unfold fixed_num_search.
  do 3 rewrite (mbind_run _ _ _ _ _ (emit_run _ _)).
  rewrite build_bitvec_mx_empty.
  2:{ assert (Hlen : forceEmpty o = true -> (0 < length fidList)%nat).
      { intros Hfe. destruct Hne as [Hne|Hne]; [|congruence].
        destruct (length fidList) eqn:E; [|lia].
        apply length_zero_iff_nil in E. contradiction. }
      destruct (forceEmpty o); [specialize (Hlen eq_refl)|]; cbv iota; lia. }
  rewrite (mbind_run (lift (Ok (@nil (list bool)))) _ _ [] _ eq_refl).
  replace (if forceEmpty o then map (cons true) [] else []) with (@nil (list bool))
    by (destruct (forceEmpty o); reflexivity).
  cbn [mfold]. cbv [mbind mret lift get_scoreD snd].
  change (select_fids fidList []) with (@Ok (list gatestring) []).
  cbv beta iota. cbn [scoreD events search_start]. rewrite <- !app_assoc.
  destruct (returnAll o); reflexivity.
Qed.

End FixedSize.

(** * The theorems above at concrete inputs *)

Section ConcreteInstances.
Local Existing Instance diag_linalg.
Local Open Scope float_scope.

Lemma run_pair {A} (m : M A) (s : ostate) : m s = (fst (m s), snd (m s)).
Proof. destruct (m s). reflexivity. Qed.

Lemma get_neighbor_involutive_witness :
  get_neighbor [true; false] 1 = Ok [true; true]
  /\ get_neighbor [true; true] 1 = Ok [true; false].
Proof.
  split; [reflexivity|]. apply (get_neighbor_involutive [true; false] 1). reflexivity.
Defined.

Lemma computed_score_range_witness :
  let o := set_slackFrac (Some 1) prep_options in
  let arrs := make_prep_mxs gs_unit fids_pair in
  (score_of gs_unit o arrs [true; true] = Ok 1.6000000000000001
   /\ forced_out o [true; true] = false)
  /\ (1.6000000000000001 <=? 0) = false /\ isinf 1.6000000000000001 = false.
Proof.
  intros o arrs.
  assert (H1 : score_of gs_unit o arrs [true; true] = Ok 1.6000000000000001)
    by (vm_compute; reflexivity).
  assert (H2 : forced_out o [true; true] = false) by reflexivity.
  split; [split; assumption|].
  apply (computed_score_range gs_unit o arrs [true; true] _ H1 H2).
Defined.

Lemma score_of_selected_sublist_witness :
  let o := set_slackFrac (Some 1) prep_options in
  let arrs := make_prep_mxs gs_unit fids_pair in
  (fid_arrays gs_unit fids_pair (Some "prep"%string) must_specify = Ok arrs
   /\ select_fids fids_pair [false; true] = Ok [["Gx"%string]]
   /\ test_fiducial_list gs_unit [["Gx"%string]] (Some "prep"%string) (scoreFunc o) 1e6
      = Ok (true, [0.25], 4))
  /\ raw_score gs_unit o arrs [false; true] = Ok 4.
Proof.
  intros o arrs.
  assert (H1 : fid_arrays gs_unit fids_pair (Some "prep"%string) must_specify = Ok arrs)
    by reflexivity.
  assert (H2 : select_fids fids_pair [false; true] = Ok [["Gx"%string]]) by reflexivity.
  assert (H3 : test_fiducial_list gs_unit [["Gx"%string]] (Some "prep"%string) (scoreFunc o) 1e6
               = Ok (true, [0.25], 4)) by (vm_compute; reflexivity).
  split; [repeat split; assumption|].
  destruct (score_of_selected_sublist gs_unit o fids_pair _ _ arrs _ _ _ _ _ _ H1 H2 H3)
    as (Hraw & _ & _).
  rewrite Hraw. vm_compute. reflexivity.
Defined.

Lemma failed_initial_test_aborts_witness :
  let o := set_threshold 1 (set_slackFrac (Some 1) prep_options) in
  (xor [truthy (fixedSlack o); truthy (slackFrac o)] = true
   /\ test_fiducial_list gs_unit fids_pair (prepOrMeas o) (scoreFunc o) (threshold o)
      = Ok (false, [1.25], 1.6000000000000001))
  /\ optimize_integer_fiducials_slack true 1000 gs_unit fids_pair o fresh
     = (Ok RNone, {| scoreD := ∅; events := abort_events fids_pair |}).
Proof.
  intros o.
  assert (H1 : xor [truthy (fixedSlack o); truthy (slackFrac o)] = true) by reflexivity.
  assert (H2 : test_fiducial_list gs_unit fids_pair (prepOrMeas o) (scoreFunc o) (threshold o)
               = Ok (false, [1.25], 1.6000000000000001)) by (vm_compute; reflexivity).
  split; [split; assumption|].
  apply (failed_initial_test_aborts true 1000 gs_unit fids_pair o fresh _ _ H1 H2).
Defined.

Lemma local_search_returns_selection_witness :
  let o := set_returnAll true (set_slackFrac (Some 1) prep_options) in
  let run := optimize_integer_fiducials_slack true 1000 gs_unit fids_pair o fresh in
  (fixedNum o = None
   /\ fst run = Ok (RAll [[]] [true; false] (scoreD (snd run))))
  /\ exists arrs w fids,
       fid_arrays gs_unit fids_pair (prepOrMeas o) must_specify = Ok arrs
       /\ select_fids fids_pair w = Ok fids
       /\ fids `sublist_of` fids_pair
       /\ length fids = popcount w
       /\ RAll [[]] [true; false] (scoreD (snd run))
          = (if returnAll o then RAll fids w (scoreD (snd run)) else RFids fids)
       /\ consistent gs_unit o arrs (scoreD (snd run))
       /\ In (LoggedWeights w) (events (snd run)).
Proof.
  intros o run.
  assert (H1 : fst run = Ok (RAll [[]] [true; false] (scoreD (snd run))))
    by (vm_compute; reflexivity).
  split; [split; [reflexivity|exact H1]|].
  apply (local_search_returns_selection true 1000 gs_unit fids_pair o fresh _ (snd run) eq_refl).
  - rewrite <- H1. apply run_pair.
  - discriminate.
Defined.

Lemma stationary_point_is_locally_optimal_witness :
  let o := set_slackFrac (Some 1) prep_options in
  let run := optimize_integer_fiducials_slack true 1000 gs_unit fids_pair o fresh in
  (fixedNum o = None
   /\ fst run = Ok (RFids [[]])
   /\ ~ In (Logged "Stationary point found!") (events fresh)
   /\ In (Logged "Stationary point found!") (events (snd run)))
  /\ exists arrs w fids,
       fid_arrays gs_unit fids_pair (prepOrMeas o) must_specify = Ok arrs
       /\ select_fids fids_pair w = Ok fids
       /\ RFids [[]] = (if returnAll o then RAll fids w (scoreD (snd run)) else RFids fids)
       /\ stationary_at gs_unit fids_pair o arrs true w.
Proof.
  intros o run.
  assert (H1 : fst run = Ok (RFids [[]])) by (vm_compute; reflexivity).
  assert (H2 : ~ In (Logged "Stationary point found!") (events fresh)) by (intros []).
  assert (H3 : In (Logged "Stationary point found!") (events (snd run)))
    by (vm_compute; auto 20).
  split; [repeat split; assumption|].
  apply (stationary_point_is_locally_optimal true 1000 gs_unit fids_pair o fresh _ (snd run)
           eq_refl); [|exact H2|exact H3].
  rewrite <- H1. apply run_pair.
Defined.

Lemma zero_iterations_return_the_start_witness :
  let o := set_maxIter 0 (set_slackFrac (Some 1) prep_options) in
  let run := optimize_integer_fiducials_slack true 1000 gs_unit fids_pair o fresh in
  (maxIter o = 0%nat /\ fixedNum o = None /\ fst run = Ok (RFids fids_pair))
  /\ In (Logged "Hit max. iterations") (events (snd run)).
Proof.
  intros o run.
  assert (H1 : fst run = Ok (RFids fids_pair)) by (vm_compute; reflexivity).
  split; [repeat split; assumption|].
  destruct (zero_iterations_return_the_start true 1000 gs_unit fids_pair o fresh
              (RFids fids_pair) (snd run) eq_refl eq_refl)
    as (fids & _ & _ & Hin & _).
  - rewrite <- H1. apply run_pair.
  - discriminate.
  - exact Hin.
Defined.

Lemma build_bitvec_mx_complete_witness :
  ((1 <= 2 <= 4)%nat /\ (2 <= 10)%nat
   /\ length [true; false; true; false] = 4%nat
   /\ popcount [true; false; true; false] = 2%nat)
  /\ exists rows, build_bitvec_mx 10 4 2 = Ok rows /\ In [true; false; true; false] rows.
Proof.
  split; [repeat split; lia|].
  apply (build_bitvec_mx_complete 10 4 2 [true; false; true; false]);
    [lia|lia|reflexivity|reflexivity].
Defined.

Lemma build_bitvec_mx_too_heavy_witness :
  (0 <= 2 < 3)%Z /\ build_bitvec_mx 10 2 3 = Ok [] /\ binom 2 3 = 0%Z.
Proof.
  split; [lia|]. apply (build_bitvec_mx_too_heavy 10 2 3). lia.
Defined.

Lemma fixed_num_search_returns_fixed_size_witness :
  let o := set_fixedNum (Some 1%Z) (set_forceEmpty false
             (set_slackFrac (Some 1) prep_options)) in
  let arrs := make_prep_mxs gs_tie fids_tie in
  let run := fixed_num_search 1000 gs_tie fids_tie o arrs 1 fresh in
  ((1 <= 1 <= 3)%Z /\ (1 <= 1000)%Z
   /\ fst run = Ok (RFids [["Gi"%string]]))
  /\ exists rows w fids,
       build_bitvec_mx 1000 3 1 = Ok rows
       /\ rows <> []
       /\ select_fids fids_tie w = Ok fids
       /\ RFids [["Gi"%string]] = RFids fids
       /\ consistent gs_tie o arrs (scoreD (snd run))
       /\ (forall c, In c rows ->
           exists v, score_of gs_tie o arrs c = Ok v /\ scoreD (snd run) !! c = Some v)
       /\ ((In w rows
            /\ length w = 3%nat
            /\ Z.of_nat (popcount w) = 1%Z
            /\ Z.of_nat (length fids) = 1%Z
            /\ fids `sublist_of` fids_tie
            /\ (false = true -> w !! 0%nat = Some true))
           \/ (w = [] /\ fids = []
               /\ forall c, In c rows -> score_of gs_tie o arrs c = Ok nan)).
Proof.
  intros o arrs run.
  assert (H1 : fst run = Ok (RFids [["Gi"%string]])) by (vm_compute; reflexivity).
  split; [split; [lia|split; [lia|exact H1]]|].
  apply (fixed_num_search_returns_fixed_size 1000 gs_tie fids_tie o arrs 1 fresh
           (RFids [["Gi"%string]]) (snd run)).
  - simpl. lia.
  - simpl. lia.
  - exact (consistent_empty gs_tie o arrs).
  - rewrite <- H1. apply run_pair.
Defined.

Lemma fixed_size_without_free_ones_overflows_witness :
  let o := set_fixedNum (Some 1%Z) (set_slackFrac (Some 1) prep_options) in
  (xor [truthy (fixedSlack o); truthy (slackFrac o)] = true
   /\ test_fiducial_list gs_unit fids_pair (prepOrMeas o) (scoreFunc o) (threshold o)
      = Ok (true, [1.25], 1.6000000000000001)
   /\ fixedNum o = Some 1%Z /\ forceEmpty o = true)
  /\ fst (optimize_integer_fiducials_slack true 1000 gs_unit fids_pair o fresh)
     = Raise RecursionError.
Proof.
  intros o.
  assert (H1 : xor [truthy (fixedSlack o); truthy (slackFrac o)] = true) by reflexivity.
  assert (H2 : test_fiducial_list gs_unit fids_pair (prepOrMeas o) (scoreFunc o) (threshold o)
               = Ok (true, [1.25], 1.6000000000000001)) by (vm_compute; reflexivity).
  split; [repeat split; assumption|].
  apply (fixed_size_without_free_ones_overflows true 1000 gs_unit fids_pair o fresh
           _ _ 1%Z H1 H2 eq_refl); simpl; lia.
Defined.

Lemma fixed_size_too_large_returns_nothing_witness :
  let o := set_fixedNum (Some 5%Z) (set_slackFrac (Some 1) prep_options) in
  (xor [truthy (fixedSlack o); truthy (slackFrac o)] = true
   /\ test_fiducial_list gs_unit fids_pair (prepOrMeas o) (scoreFunc o) (threshold o)
      = Ok (true, [1.25], 1.6000000000000001)
   /\ fixedNum o = Some 5%Z
   /\ (Z.of_nat (length fids_pair) < 5)%Z)
  /\ fst (optimize_integer_fiducials_slack true 1000 gs_unit fids_pair o fresh)
     = Ok (RFids []).
Proof.
  intros o.
  assert (H1 : xor [truthy (fixedSlack o); truthy (slackFrac o)] = true) by reflexivity.
  assert (H2 : test_fiducial_list gs_unit fids_pair (prepOrMeas o) (scoreFunc o) (threshold o)
               = Ok (true, [1.25], 1.6000000000000001)) by (vm_compute; reflexivity).
  assert (H3 : (Z.of_nat (length fids_pair) < 5)%Z) by (simpl; lia).
  split; [repeat split; assumption|].
  rewrite (fixed_size_too_large_returns_nothing true 1000 gs_unit fids_pair o fresh
             _ _ 5%Z H1 H2 eq_refl H3); [reflexivity|].
  left. discriminate.
Defined.

End ConcreteInstances.
(** * More on generate_fiducials *)

Section GenerateMore.
Context `{LinAlg}.
Variable py3 : bool.
Variable reclimit : nat.

Lemma generate_fiducials_slack st gs omit maxlen kwargs verbosity kw0 :
  st !! default default_kwargs_ref kwargs = Some kw0 ->
  generate_fiducials py3 reclimit st gs omit maxlen "slack" kwargs verbosity
  = let kw := merged_kwargs kw0 (available_fids gs omit maxlen) verbosity in
    let st' := <[default default_kwargs_ref kwargs := kw]> st in
    match call_optimizer py3 reclimit gs (<["prepOrMeas"%string := VStr "prep"]> kw) [] with
    | (Raise e, evs) => (Raise e, st', evs)
    | (Ok prepFidList, evs) =>
        match call_optimizer py3 reclimit gs (<["prepOrMeas"%string := VStr "meas"]> kw) evs with
        | (Raise e, evs') => (Raise e, st', evs')
        | (Ok measFidList, evs') => (Ok (prepFidList, measFidList), st', evs')
        end
    end.
Proof.
  intros Hst. unfold generate_fiducials. rewrite Hst.
  change (String.eqb "slack" "slack") with true. reflexivity.
Qed.

Lemma merged_kwargs_insert_prepOrMeas kw0 v avail verbosity :
  merged_kwargs (<["prepOrMeas"%string := v]> kw0) avail verbosity
  = <["prepOrMeas"%string := v]> (merged_kwargs kw0 avail verbosity).
Proof.
  unfold merged_kwargs. rewrite !lookup_insert_ne by discriminate.
  destruct (bool_decide (kw0 !! "slackFrac"%string = None)
            && bool_decide (kw0 !! "fixedSlack"%string = None)); cbv zeta.
  - rewrite (insert_insert_ne _ "slackFrac"%string "prepOrMeas"%string) by discriminate.
    rewrite !lookup_insert_ne by discriminate.
    destruct (bool_decide (_ !! "fidList"%string = None)).
    + rewrite (insert_insert_ne _ "fidList"%string "prepOrMeas"%string) by discriminate.
      rewrite !lookup_insert_ne by discriminate.
      destruct (bool_decide (_ !! "verbosity"%string = None)); [|reflexivity].
      apply insert_insert_ne. discriminate.
    + rewrite !lookup_insert_ne by discriminate.
      destruct (bool_decide (_ !! "verbosity"%string = None)); [|reflexivity].
      apply insert_insert_ne. discriminate.
  - rewrite !lookup_insert_ne by discriminate.
    destruct (bool_decide (_ !! "fidList"%string = None)).
    + rewrite (insert_insert_ne _ "fidList"%string "prepOrMeas"%string) by discriminate.
      rewrite !lookup_insert_ne by discriminate.
      destruct (bool_decide (_ !! "verbosity"%string = None)); [|reflexivity].
      apply insert_insert_ne. discriminate.
    + rewrite !lookup_insert_ne by discriminate.
      destruct (bool_decide (_ !! "verbosity"%string = None)); [|reflexivity].
      apply insert_insert_ne. discriminate.
Qed.

Lemma merged_kwargs_supplied kw0 vf vv avail verbosity :
  kw0 !! "fidList"%string = Some vf -> kw0 !! "verbosity"%string = Some vv ->
  merged_kwargs kw0 avail verbosity
  = if bool_decide (kw0 !! "slackFrac"%string = None)
       && bool_decide (kw0 !! "fixedSlack"%string = None)
    then <["slackFrac"%string := VFloat 1%float]> kw0 else kw0.
Proof.
  intros Hf Hv. unfold merged_kwargs.
  destruct (bool_decide (kw0 !! "slackFrac"%string = None)
            && bool_decide (kw0 !! "fixedSlack"%string = None)); cbv zeta.
  - rewrite !lookup_insert_ne by discriminate. rewrite Hf.
    rewrite (bool_decide_false (Some vf = None)) by discriminate.
    rewrite !lookup_insert_ne by discriminate. rewrite Hv.
    rewrite (bool_decide_false (Some vv = None)) by discriminate. reflexivity.
  - rewrite Hf. rewrite (bool_decide_false (Some vf = None)) by discriminate.
    rewrite Hv. rewrite (bool_decide_false (Some vv = None)) by discriminate. reflexivity.
Qed.

(** A [prepOrMeas] entry in the caller's dictionary has no effect on what
    the call returns or prints: each optimizer call gets a copy in which the
    entry is overwritten by 'prep', respectively 'meas'. *)
Theorem caller_prepOrMeas_is_overwritten st gs omit maxlen kwargs verbosity kw0 v :
  st !! default default_kwargs_ref kwargs = Some kw0 ->
  let call st := generate_fiducials py3 reclimit st gs omit maxlen "slack" kwargs verbosity in
  let st_v := <[default default_kwargs_ref kwargs := <["prepOrMeas"%string := v]> kw0]> st in
  fst (fst (call st_v)) = fst (fst (call st))
  /\ snd (call st_v) = snd (call st).
Proof.
  intros Hst call st_v. subst call. cbv beta.
  rewrite (generate_fiducials_slack st _ _ _ _ _ kw0 Hst).
  rewrite (generate_fiducials_slack st_v _ _ _ _ _ (<["prepOrMeas"%string := v]> kw0))
    by (subst st_v; apply lookup_insert_eq).
  cbv zeta. rewrite merged_kwargs_insert_prepOrMeas, !insert_insert_eq.
  destruct (call_optimizer _ _ _ _ _) as [[r1|e1] evs1]; [|split; reflexivity].
  destruct (call_optimizer _ _ _ _ _) as [[r2|e2] evs2]; split; reflexivity.
Qed.

(** Entries the caller's dictionary already has for [fidList] and
    [verbosity] take precedence: the whole outcome of the call (value,
    dictionary, output) is then independent of [gatesToOmit], [maxFidLength]
    and [verbosity]. *)
Theorem supplied_fidList_takes_precedence
    st gs omit omit' maxlen maxlen' kwargs verbosity verbosity' kw0 vf vv :
  st !! default default_kwargs_ref kwargs = Some kw0 ->
  kw0 !! "fidList"%string = Some vf -> kw0 !! "verbosity"%string = Some vv ->
  generate_fiducials py3 reclimit st gs omit maxlen "slack" kwargs verbosity
  = generate_fiducials py3 reclimit st gs omit' maxlen' "slack" kwargs verbosity'.
Proof.
  intros Hst Hf Hv. rewrite !(generate_fiducials_slack st _ _ _ _ _ kw0 Hst).
  rewrite !(merged_kwargs_supplied kw0 vf vv _ _ Hf Hv). reflexivity.
Qed.

(** The default dictionary goes stale: after one call that omitted
    [algorithm_kwargs], every later call that omits it too runs on the
    candidate list and verbosity of that first call, whatever its own
    [gatesToOmit], [maxFidLength] and [verbosity]. *)
Theorem default_kwargs_go_stale
    st gs1 omit1 maxlen1 verbosity1 kw0 gs omit omit' maxlen maxlen' verbosity verbosity' :
  st !! default_kwargs_ref = Some kw0 ->
  let st1 := store_after py3 reclimit st gs1 omit1 maxlen1 "slack" None verbosity1 in
  generate_fiducials py3 reclimit st1 gs omit maxlen "slack" None verbosity
  = generate_fiducials py3 reclimit st1 gs omit' maxlen' "slack" None verbosity'.
Proof.
  intros Hst st1.
  destruct (store_after_slack_entries py3 reclimit st gs1 omit1 maxlen1 None verbosity1 kw0 Hst)
    as (kw & Hst1 & _ & Hf & Hv & _).
  fold st1 in Hst1. cbn [default] in Hst1.
  assert (H1 : st1 !! default default_kwargs_ref None = Some kw)
    by (rewrite Hst1; apply lookup_insert_eq).
  rewrite !(generate_fiducials_slack st1 _ _ _ _ _ kw H1).
  rewrite !(merged_kwargs_supplied kw _ _ _ _ Hf Hv). reflexivity.
Qed.

End GenerateMore.

Section GenerateMoreInstances.
Local Existing Instance diag_linalg.

Lemma caller_prepOrMeas_is_overwritten_witness :
  let st : store := {[ default_kwargs_ref := ∅ ]} in
  let st_v : store :=
    <[default_kwargs_ref := <["prepOrMeas"%string := VStr "meas"]> ∅]> st in
  st !! default default_kwargs_ref None = Some ∅
  /\ fst (fst (generate_fiducials true 1000 st_v gs_unit [] 1 "slack" None 0))
     = fst (fst (generate_fiducials true 1000 st gs_unit [] 1 "slack" None 0)).
Proof.
  intros st st_v.
  assert (H1 : st !! default default_kwargs_ref None = Some ∅)
    by apply lookup_singleton_eq.
  split; [exact H1|].
  apply (caller_prepOrMeas_is_overwritten true 1000 st gs_unit [] 1 None 0 ∅
           (VStr "meas") H1).
Defined.

Lemma supplied_fidList_takes_precedence_witness :
  let kw0 : gmap string pyval :=
    <["fidList"%string := VFidList fids_pair]> (<["verbosity"%string := VInt 0]> ∅) in
  let st : store := {[ 7%nat := kw0 ]} in
  (st !! default default_kwargs_ref (Some 7%nat) = Some kw0
   /\ kw0 !! "fidList"%string = Some (VFidList fids_pair)
   /\ kw0 !! "verbosity"%string = Some (VInt 0))
  /\ generate_fiducials true 1000 st gs_unit [] 1 "slack" (Some 7%nat) 0
     = generate_fiducials true 1000 st gs_unit ["Gx"%string] 3 "slack" (Some 7%nat) 2.
Proof.
  intros kw0 st.
  assert (H1 : st !! default default_kwargs_ref (Some 7%nat) = Some kw0)
    by apply lookup_singleton_eq.
  assert (H2 : kw0 !! "fidList"%string = Some (VFidList fids_pair))
    by apply lookup_insert_eq.
  assert (H3 : kw0 !! "verbosity"%string = Some (VInt 0)).
  { subst kw0. rewrite lookup_insert_ne by discriminate. apply lookup_insert_eq. }
  split; [repeat split; assumption|].
  apply (supplied_fidList_takes_precedence true 1000 st gs_unit [] ["Gx"%string] 1 3
           (Some 7%nat) 0 2 kw0 _ _ H1 H2 H3).
Defined.

Lemma default_kwargs_go_stale_witness :
  let st : store := {[ default_kwargs_ref := ∅ ]} in
  let st1 := store_after true 1000 st gs_unit [] 1 "slack" None 0 in
  st !! default_kwargs_ref = Some ∅
  /\ generate_fiducials true 1000 st1 gs_unit [] 1 "slack" None 0
     = generate_fiducials true 1000 st1 gs_unit ["Gx"%string] 3 "slack" None 2.
Proof.
  intros st st1.
  assert (H1 : st !! default_kwargs_ref = Some ∅) by apply lookup_singleton_eq.
  split; [exact H1|].
  apply (default_kwargs_go_stale true 1000 st gs_unit [] 1 0 ∅ gs_unit [] ["Gx"%string] 1 3
           0 2 H1).
Defined.

End GenerateMoreInstances.
(** * The keys of the score dictionary: a copy or a view *)

Section KeysView.
Context `{LinAlg}.
Variable reclimit : nat.
Variable gs : GateSet.
Variable fidList : list gatestring.
Variable o : options.

Lemma get_neighbor_inj w i j n :
  get_neighbor w i = Ok n -> get_neighbor w j = Ok n -> i = j.
Proof.
  unfold get_neighbor.
  destruct (w !! i) as [b|] eqn:Hi; [|discriminate].
  destruct (w !! j) as [b'|] eqn:Hj; [|discriminate].
  intros [= <-] [= E]. destruct (Nat.eq_dec i j) as [|Hne]; [assumption|exfalso].
  apply (f_equal (fun l => l !! i)) in E.
  rewrite list_lookup_insert_ne in E by congruence.
  rewrite list_lookup_insert_eq in E by (apply lookup_lt_is_Some; eauto).
  rewrite Hi in E. destruct b; discriminate.
Qed.

Lemma mbind_ext {A B} (m m' : M A) (k k' : A -> M B) s :
  m s = m' s -> (forall a s1, k a s1 = k' a s1) -> mbind m k s = mbind m' k' s.
Proof.
  intros Hm Hk. unfold mbind. rewrite Hm. destruct (m' s) as [[a|e] s1]; [apply Hk|reflexivity].
Qed.

(** What a turn of the first scan does to the dictionary. *)
Lemma scan_step_dict py3 arrs keys lwo w0 st i s r s' n :
  scan_step py3 gs o arrs keys lwo w0 st i s = (r, s') ->
  get_neighbor w0 i = Ok n ->
  scoreD s' = scoreD s \/ exists v, scoreD s' = <[n := v]> (scoreD s).
Proof.
  unfold scan_step, neighbor_score. intros Hrun Hn. rewrite Hn in Hrun.
  rewrite (mbind_run (lift (Ok n)) _ s n s eq_refl) in Hrun.
  unfold mbind at 1 in Hrun. unfold mbind at 1 in Hrun. cbn [get_scoreD] in Hrun.
  match type of Hrun with context [if ?c then lookup_score n else _] => destruct c end.
  - rewrite lookup_score_run in Hrun. destruct (scoreD s !! n) as [v|].
    + cbv beta iota in Hrun. destruct (_ && _) in Hrun.
      * rewrite (mbind_run _ _ _ _ _ (emit_run _ _)) in Hrun.
        injection Hrun as _ <-. left. reflexivity.
      * injection Hrun as _ <-. left. reflexivity.
    + injection Hrun as _ <-. left. reflexivity.
  - rewrite compute_score_run in Hrun. destruct (score_of gs o arrs n) as [v|e].
    + cbv beta iota in Hrun. destruct (_ && _) in Hrun.
      * rewrite (mbind_run _ _ _ _ _ (emit_run _ _)) in Hrun.
        injection Hrun as _ <-. right. exists v. reflexivity.
      * injection Hrun as _ <-. right. exists v. reflexivity.
    + injection Hrun as _ <-. left. reflexivity.
Qed.

(** Within one scan the neighbours are pairwise different, so none of them
    is among the entries the scan itself has added: testing the key against
    the keys as they were when the scan began or as they are now gives the
    same answer. *)
Lemma scan_fold_keys arrs keys lwo w0 idx : forall visited st s,
  NoDup idx -> (forall i, In i idx -> ~ In i visited) ->
  keys ⊆ dom (scoreD s) ->
  (forall x, x ∈ dom (scoreD s) ->
     x ∈ keys \/ exists j, In j visited /\ get_neighbor w0 j = Ok x) ->
  mfold (scan_step true gs o arrs keys lwo w0) idx st s
  = mfold (scan_step false gs o arrs keys lwo w0) idx st s.
Proof.
  induction idx as [|i idx IH]; intros visited st s Hnd Hdisj Hsub Hnew; [reflexivity|].
  cbn [mfold].
  assert (Estep : scan_step true gs o arrs keys lwo w0 st i s
                  = scan_step false gs o arrs keys lwo w0 st i s).
  { unfold scan_step. destruct (get_neighbor w0 i) as [n|e] eqn:Hn; [|reflexivity].
    rewrite !(mbind_run (lift (Ok n)) _ s n s eq_refl).
    apply mbind_ext; [|reflexivity]. unfold neighbor_score.
    rewrite !(mbind_run get_scoreD _ s (scoreD s) s eq_refl).
    destruct (decide (n ∈ keys)) as [Hk|Hk].
    - rewrite (bool_decide_true _ Hk), (bool_decide_true (n ∈ dom (scoreD s))) by set_solver.
      reflexivity.
    - rewrite (bool_decide_false _ Hk). rewrite bool_decide_false; [reflexivity|].
      intros Hd. destruct (Hnew n Hd) as [Hin|(j & Hj & Hnj)]; [contradiction|].
      pose proof (get_neighbor_inj _ _ _ _ Hn Hnj) as <-.
      apply (Hdisj i); [left; reflexivity|exact Hj]. }
  unfold mbind. rewrite Estep.
  destruct (scan_step false gs o arrs keys lwo w0 st i s) as [[st1|e] s1] eqn:Hrun;
    [|reflexivity].
  destruct (get_neighbor w0 i) as [n|e] eqn:Hn.
  2:{ unfold scan_step in Hrun. rewrite Hn in Hrun. discriminate Hrun. }
  apply NoDup_cons in Hnd as [Hi Hnd].
  apply (IH (i :: visited)); [exact Hnd| | |].
  - intros j Hj [<-|Hv]; [apply Hi; apply list_elem_of_In; exact Hj|].
    apply (Hdisj j); [right; exact Hj|exact Hv].
  - destruct (scan_step_dict _ _ _ _ _ _ _ _ _ _ _ Hrun Hn) as [->|[v ->]];
      [exact Hsub|]. rewrite dom_insert. set_solver.
  - intros x Hx.
    destruct (scan_step_dict _ _ _ _ _ _ _ _ _ _ _ Hrun Hn) as [E|[v E]]; rewrite E in Hx.
    + destruct (Hnew x Hx) as [Hk|(j & Hj & Hnj)]; [left; exact Hk|].
      right. exists j. split; [right; exact Hj|exact Hnj].
    + rewrite dom_insert in Hx. apply elem_of_union in Hx as [Hx|Hx].
      * apply elem_of_singleton in Hx as ->. right. exists i. split; [left; reflexivity|exact Hn].
      * destruct (Hnew x Hx) as [Hk|(j & Hj & Hnj)]; [left; exact Hk|].
        right. exists j. split; [right; exact Hj|exact Hnj].
Qed.

Lemma iteration_keys arrs lwo st s :
  iteration true gs fidList o arrs lwo st s = iteration false gs fidList o arrs lwo st s.
Proof.
  unfold iteration. rewrite !(mbind_run get_scoreD _ s (scoreD s) s eq_refl).
  cbv zeta. unfold mbind at 1. symmetry. unfold mbind at 1. symmetry.
  rewrite (scan_fold_keys arrs (dom (scoreD s)) lwo (weights st) (seq 0 (nFids fidList)) []).
  - reflexivity.
  - apply NoDup_ListNoDup, List.seq_NoDup.
  - intros i _ [].
  - reflexivity.
  - intros x Hx. left. exact Hx.
Qed.

Lemma main_loop_keys arrs n : forall lwo st s,
  main_loop true gs fidList o arrs n lwo st s = main_loop false gs fidList o arrs n lwo st s.
Proof.
  induction n as [|n IH]; intros lwo st s; [reflexivity|].
  cbn [main_loop]. apply mbind_ext; [apply iteration_keys|].
  intros [[lwo1 st1] broke] s1. destruct broke; [reflexivity|apply IH].
Qed.

Lemma local_search_keys arrs s :
  local_search true gs fidList o arrs s = local_search false gs fidList o arrs s.
Proof.
  unfold local_search. destruct (initialWeights o) as [iw|];
    (apply mbind_ext; [reflexivity|]); intros sc s1; apply main_loop_keys.
Qed.

(** The optimizer does the same under both readings of [scoreD.keys()]:
    as a list copied when an iteration begins (Python 2) and as a live view
    of the dictionary (Python 3).  Value, exception, score dictionary and
    output are the same for every input. *)
Theorem keys_copy_or_view_alike s :
  optimize_integer_fiducials_slack true reclimit gs fidList o s
  = optimize_integer_fiducials_slack false reclimit gs fidList o s.
Proof.
  rewrite !optimizer_cases. destruct (xor _); [|reflexivity].
  destruct (test_fiducial_list _ _ _ _ _) as [t|e]; [|reflexivity].
  destruct (fst (fst t)); [|reflexivity].
  destruct (fid_arrays _ _ _ _) as [arrs|e]; [|reflexivity].
  destruct (fixedNum o); [reflexivity|].
  rewrite local_search_keys. reflexivity.
Qed.

End KeysView.
(** * A search from the full list only removes fiducials *)

Section Shrinking.
Context `{LinAlg}.
Variable py3 : bool.
Variable reclimit : nat.
Variable gs : GateSet.
Variable fidList : list gatestring.
Variable o : options.

Lemma descending_from_app a l1 l2 :
  descending_from a (l1 ++ l2)
  <-> descending_from a l1 /\ descending_from (default a (last l1)) l2.
Proof.
  revert a. induction l1 as [|n l1 IH]; intros a; [simpl; tauto|].
  cbn [app descending_from]. rewrite IH, last_cons.
  destruct (last l1); simpl; tauto.
Qed.

Lemma last_app_default (a : nat) l1 l2 :
  default a (last (l1 ++ l2)) = default (default a (last l1)) (last l2).
Proof. rewrite last_app. destruct (last l2); reflexivity. Qed.

Lemma descending_from_length a ns : descending_from a ns -> (length ns <= a)%nat.
Proof.
  revert a. induction ns as [|n ns IH]; intros a; simpl; [lia|].
  intros [Hn Hd]. specialize (IH _ Hd). lia.
Qed.

Lemma found_counts_app evs1 evs2 :
  found_counts (evs1 ++ evs2) = found_counts evs1 ++ found_counts evs2.
Proof. apply omap_app. Qed.

Lemma descends_refl s a : descends s s a a.
Proof. exists []. rewrite app_nil_r. simpl. auto. Qed.

Lemma descends_trans s1 s2 s3 a b c : descends s1 s2 a b -> descends s2 s3 b c -> descends s1 s3 a c.
Proof.
  intros (e1 & E1 & D1 & ->) (e2 & E2 & D2 & ->). exists (e1 ++ e2).
  rewrite E2, E1, app_assoc, found_counts_app. split; [reflexivity|].
  split; [apply descending_from_app; auto|symmetry; apply last_app_default].
Qed.

Lemma descends_silent s e a :
  found_counts [e] = [] ->
  descends s {| scoreD := scoreD s; events := events s ++ [e] |} a a.
Proof. intros He. exists [e]. rewrite He. simpl. auto. Qed.

Lemma descends_same_events s s' a : events s' = events s -> descends s s' a a.
Proof. intros E. exists []. rewrite app_nil_r. simpl. auto. Qed.

Lemma compute_score_descends arrs w c s r s' a :
  compute_score gs o arrs w c s = (r, s') -> descends s s' a a.
Proof.
  destruct c.
  - rewrite compute_score_run. destruct (score_of gs o arrs w) as [v|e]; intros [= <- <-].
    + destruct (forced_out o w); [apply descends_same_events; reflexivity|].
      apply (descends_silent s (Scored w)). reflexivity.
    + apply descends_refl.
  - rewrite compute_score_uncached. destruct (score_of gs o arrs w) as [v|e]; intros [= <- <-].
    + destruct (forced_out o w); [apply descends_same_events; reflexivity|].
      exists [Scored w]. simpl. auto.
    + apply descends_refl.
Qed.

Lemma neighbor_score_descends arrs keys n s r s' a :
  neighbor_score py3 gs o arrs keys n s = (r, s') -> descends s s' a a.
Proof.
  unfold neighbor_score. rewrite (mbind_run get_scoreD _ s (scoreD s) s eq_refl).
  match goal with |- context [if ?c then _ else _] => destruct c end.
  - rewrite lookup_score_run. destruct (scoreD s !! n); intros [= <- <-]; apply descends_refl.
  - apply compute_score_descends.
Qed.

(** A turn of the first scan, confined to shrinking. *)
Lemma scan_step_shrinks arrs keys w0 st i s st' s' :
  scan_step py3 gs o arrs keys true w0 st i s = (Ok st', s') ->
  descends s s' (L1 st) (L1 st')
  /\ (L1 st = popcount (weights st) -> L1 st' = popcount (weights st')).
Proof.
  unfold scan_step. intros Hrun.
  apply mbind_ok_inv in Hrun as (n & s1 & Hn & Hrun). apply lift_ok_inv in Hn as [Hn ->].
  apply mbind_ok_inv in Hrun as (sn & s2 & Hsc & Hrun).
  pose proof (neighbor_score_descends _ _ _ _ _ _ (L1 st) Hsc) as A1.
  rewrite orb_false_r in Hrun.
  destruct ((sn <=? score st)%float && (popcount n <? L1 st)%nat) eqn:Hacc.
  - rewrite (mbind_run _ _ _ _ _ (emit_run _ _)) in Hrun. injection Hrun as <- <-.
    cbn [L1 weights]. split; [|reflexivity].
    apply andb_prop in Hacc as [_ Hlt]. apply Nat.ltb_lt in Hlt.
    eapply descends_trans; [exact A1|]. exists [FoundBetter (popcount n) sn]. simpl. auto.
  - injection Hrun as <- <-. split; [exact A1|auto].
Qed.

(** A turn of the relaxed re-scan. *)
Lemma rescan_step_shrinks w0 st i s st' s' :
  rescan_step w0 st i s = (Ok st', s') ->
  descends s s' (L1 st) (L1 st')
  /\ (L1 st = popcount (weights st) -> L1 st' = popcount (weights st')).
Proof.
  rewrite rescan_step_run. destruct (get_neighbor w0 i) as [n|e]; [|discriminate].
  destruct (popcount n <? L1 st)%nat eqn:Hlt.
  - destruct (scoreD s !! n) as [v|]; [|discriminate].
    destruct (v <? score st)%float; intros [= <- <-].
    + cbn [moved L1 weights]. split; [|reflexivity]. apply Nat.ltb_lt in Hlt.
      exists [FoundBetter (popcount n) v]. simpl. auto.
    + split; [apply descends_refl|auto].
  - intros [= <- <-]. split; [apply descends_refl|auto].
Qed.

Lemma mfold_shrinks {B} (body : search -> B -> M search) xs :
  (forall st x s st' s', body st x s = (Ok st', s') ->
     descends s s' (L1 st) (L1 st')
     /\ (L1 st = popcount (weights st) -> L1 st' = popcount (weights st'))) ->
  forall st s st' s',
    mfold body xs st s = (Ok st', s') ->
    descends s s' (L1 st) (L1 st')
    /\ (L1 st = popcount (weights st) -> L1 st' = popcount (weights st')).
Proof.
  intros Hbody. induction xs as [|x xs IH]; intros st s st' s' Hrun; simpl in Hrun.
  - injection Hrun as <- <-. split; [apply descends_refl|auto].
  - apply mbind_ok_inv in Hrun as (st1 & s1 & Hstep & Hrest).
    destruct (Hbody _ _ _ _ _ Hstep) as [A1 C1]. destruct (IH _ _ _ _ Hrest) as [A2 C2].
    split; [eapply descends_trans; eauto|auto].
Qed.

Lemma iteration_shrinks arrs st s lwo' st' broke s' :
  iteration py3 gs fidList o arrs true st s = (Ok (lwo', st', broke), s') ->
  lwo' = true
  /\ descends s s' (L1 st) (L1 st')
  /\ (L1 st = popcount (weights st) -> L1 st' = popcount (weights st')).
Proof.
  unfold iteration. rewrite (mbind_run get_scoreD _ s (scoreD s) s eq_refl). cbv zeta.
  intros Hrun. apply mbind_ok_inv in Hrun as (st1 & s1 & Hscan & Hrun).
  destruct (mfold_shrinks _ _ (scan_step_shrinks arrs (dom (scoreD s)) (weights st))
              _ _ _ _ Hscan) as [A1 C1].
  cbn [L1 weights] in A1, C1.
  destruct (bFoundBetterNeighbor st1).
  - rewrite (mbind_run _ _ _ _ _ (emit_run _ _)) in Hrun. injection Hrun as <- <- <- <-.
    split; [reflexivity|]. split; [|exact C1].
    eapply descends_trans; [exact A1|]. apply descends_silent. reflexivity.
  - apply mbind_ok_inv in Hrun as (relaxed & s2 & Hrel & Hrun).
    apply lift_ok_inv in Hrel as [_ ->].
    rewrite (mbind_run _ _ _ _ _ (emit_run _ _)) in Hrun.
    apply mbind_ok_inv in Hrun as (st3 & s3 & Hre & Hrun).
    destruct (mfold_shrinks _ _ (rescan_step_shrinks (weights st1)) _ _ _ _ Hre) as [A3 C3].
    cbn [L1 weights] in A3, C3.
    assert (A : descends s s3 (L1 st) (L1 st3)).
    { eapply descends_trans; [exact A1|]. eapply descends_trans; [|exact A3].
      apply descends_silent. reflexivity. }
    destruct (bFoundBetterNeighbor st3);
      rewrite (mbind_run _ _ _ _ _ (emit_run _ _)) in Hrun; injection Hrun as <- <- <- <-.
    all: split; [reflexivity|]; split; [|auto].
    all: eapply descends_trans; [exact A|]; apply descends_silent; reflexivity.
Qed.

Lemma main_loop_shrinks arrs n : forall st s st' oc s',
  main_loop py3 gs fidList o arrs n true st s = (Ok (st', oc), s') ->
  descends s s' (L1 st) (L1 st')
  /\ (L1 st = popcount (weights st) -> L1 st' = popcount (weights st')).
Proof.
  induction n as [|n IH]; intros st s st' oc s' Hrun; simpl in Hrun.
  - rewrite (mbind_run _ _ _ _ _ (emit_run _ _)) in Hrun. injection Hrun as <- _ <-.
    split; [apply descends_silent; reflexivity|auto].
  - apply mbind_ok_inv in Hrun as ([[lwo1 st1] broke] & s1 & Hit & Hrun).
    destruct (iteration_shrinks _ _ _ _ _ _ _ Hit) as (-> & A1 & C1).
    destruct broke.
    + injection Hrun as <- _ <-. auto.
    + destruct (IH _ _ _ _ _ Hrun) as [A2 C2]. split; [eapply descends_trans; eauto|auto].
Qed.

Let run := optimize_integer_fiducials_slack py3 reclimit gs fidList o.

(** Started from the full candidate list (no [initialWeights]), the local
    search only ever removes fiducials: every move it logs has fewer
    fiducials than the move before, the first fewer than the list has
    candidates.  So it logs at most [len(fidList)] moves, and the vector it
    returns has as many ones as the last move logged (as the whole list,
    when none was). *)
Theorem search_from_full_list_only_shrinks s r s' :
  initialWeights o = None -> fixedNum o = None ->
  run s = (Ok r, s') -> r <> RNone ->
  exists evs w fids,
    events s' = events s ++ evs
    /\ descending_from (length fidList) (found_counts evs)
    /\ (length (found_counts evs) <= length fidList)%nat
    /\ select_fids fidList w = Ok fids
    /\ r = (if returnAll o then RAll fids w (scoreD s') else RFids fids)
    /\ length fids = default (length fidList) (last (found_counts evs)).
Proof.
  intros Hiw Hn. unfold run. rewrite optimizer_cases, Hn.
  destruct (xor _); [|discriminate].
  destruct (test_fiducial_list _ _ _ _ _) as [t|e]; [|discriminate].
  destruct (fst (fst t)); [|intros [= <- _] Hr; contradiction].
  destruct (fid_arrays _ _ _ _) as [arrs|e]; [|discriminate].
  destruct (local_search _ _ _ _ _ _) as [[[st oc]|e] sL] eqn:Hls; [|discriminate].
  destruct (select_fids fidList (weights st)) as [fids|e] eqn:Hsel; [|discriminate].
  intros [= <- <-] _.
  destruct (local_search_start py3 gs fidList o _ _ _ _ Hls) as (score0 & Hs0 & Hloop).
  rewrite Hiw in Hloop. cbn [default] in Hloop.
  destruct (main_loop_shrinks _ _ _ _ _ _ _ Hloop) as [(evs & E & D & HL) Hcoh].
  cbn [L1 weights events] in E, D, HL, Hcoh.
  rewrite popcount_all_ones in D, HL, Hcoh. specialize (Hcoh eq_refl).
  destruct (select_fids_sublist _ _ _ Hsel) as [_ Hlen].
  set (pre := if forced_out o (all_ones (length fidList)) then []
              else [Scored (all_ones (length fidList))]).
  assert (Epre : (if forced_out o (all_ones (length fidList))
                  then events (search_start fidList s)
                  else events (search_start fidList s) ++ [Scored (all_ones (length fidList))])
                 = events (search_start fidList s) ++ pre).
  { subst pre. destruct (forced_out o _); [rewrite app_nil_r|]; reflexivity. }
  rewrite Epre in E. cbn [search_start events] in E.
  assert (Ecount : found_counts (((entry_events fidList ++ pre) ++ evs) ++ report_events st)
                   = found_counts evs).
  { rewrite !found_counts_app. subst pre.
    destruct (forced_out o _); simpl; rewrite app_nil_r; reflexivity. }
  exists (((entry_events fidList ++ pre) ++ evs) ++ report_events st), (weights st), fids.
  rewrite Ecount. cbn [events]. split; [rewrite E, <- !app_assoc; reflexivity|].
  split; [exact D|]. split; [apply descending_from_length, D|].
  split; [exact Hsel|]. split; [reflexivity|]. congruence.
Qed.

End Shrinking.

Section ShrinkingInstance.
Local Existing Instance diag_linalg.
Local Open Scope float_scope.

Lemma search_from_full_list_only_shrinks_witness :
  let o := set_slackFrac (Some 1) prep_options in
  let run := optimize_integer_fiducials_slack true 1000 gs_unit fids_pair o fresh in
  (initialWeights o = None /\ fixedNum o = None /\ fst run = Ok (RFids [[]]))
  /\ exists evs w fids,
       events (snd run) = events fresh ++ evs
       /\ descending_from (length fids_pair) (found_counts evs)
       /\ (length (found_counts evs) <= length fids_pair)%nat
       /\ select_fids fids_pair w = Ok fids
       /\ RFids [[]] = (if returnAll o then RAll fids w (scoreD (snd run)) else RFids fids)
       /\ length fids = default (length fids_pair) (last (found_counts evs)).
Proof.
  intros o run.
  assert (H1 : fst run = Ok (RFids [[]])) by (vm_compute; reflexivity).
  split; [repeat split; assumption|].
  apply (search_from_full_list_only_shrinks true 1000 gs_unit fids_pair o fresh _ (snd run)
           eq_refl eq_refl).
  - rewrite <- H1. apply run_pair.
  - discriminate.
Defined.

End ShrinkingInstance.
(** * The exceptions the optimizer can raise *)

Section Exceptions.
Context `{LinAlg}.
Variable py3 : bool.
Variable reclimit : nat.
Variable gs : GateSet.
Variable fidList : list gatestring.
Variable o : options.

Lemma get_neighbor_index w i : rfoot index_exn (get_neighbor w i).
Proof. unfold get_neighbor. foot. reflexivity. Qed.

Lemma select_columns_index loc m : rfoot index_exn (select_columns loc m).
Proof.
  unfold select_columns. apply rfoot_rmap. intros row.
  apply rfoot_rmap. intros j. foot. reflexivity.
Qed.

Lemma select_fids_index w : rfoot index_exn (select_fids fidList w).
Proof. unfold select_fids. apply rfoot_rmap. intros j. foot. reflexivity. Qed.

Lemma score_of_index arrs w : rfoot index_exn (score_of gs o arrs w).
Proof.
  unfold score_of, raw_score. destruct (forced_out o w); [apply rfoot_ok|].
  apply rfoot_bind; [|intros; apply rfoot_ok].
  apply rfoot_bind; [|intros; apply rfoot_ok].
  apply rfoot_rmap. intros m. apply select_columns_index.
Qed.

Lemma compute_score_index arrs w c :
  mfoot scan_event index_exn (compute_score gs o arrs w c).
Proof.
  intros s r s' Hrun. split.
  - destruct (compute_score_foot gs o arrs w c _ _ _ Hrun) as [Hev _]. exact Hev.
  - intros e ->. apply (score_of_index arrs w e).
    destruct c; [rewrite compute_score_run in Hrun|rewrite compute_score_uncached in Hrun];
      destruct (score_of gs o arrs w); congruence.
Qed.

Lemma index_exn_fixed e : index_exn e -> fixed_exn e.
Proof. intros ->. exact I. Qed.

Lemma fixed_num_step_fixed arrs best w :
  mfoot body_event fixed_exn (fixed_num_step gs fidList o arrs best w).
Proof.
  unfold fixed_num_step. destruct best as [bs bw].
  apply mfoot_bind.
  { eapply mfoot_weaken; [| |apply compute_score_index]; unfold body_event;
      auto using scan_event_search, index_exn_fixed. }
  intros s. destruct (_ <? _)%float.
  - apply mfoot_bind.
    { apply mfoot_lift. eapply rfoot_weaken; [|apply select_fids_index].
      apply index_exn_fixed. }
    intros bf. apply mfoot_bind.
    { apply mfoot_lift. eapply rfoot_weaken; [|apply select_fids_index].
      apply index_exn_fixed. }
    intros tf. destruct (_ <? _)%nat; foot. right. exact I.
  - foot.
Qed.

Lemma fixed_num_search_fixed arrs n :
  mfoot body_event fixed_exn (fixed_num_search reclimit gs fidList o arrs n).
Proof.
  unfold fixed_num_search.
  repeat (apply mfoot_bind; [apply mfoot_emit; right; exact I|intros _]).
  apply mfoot_bind; [apply mfoot_lift, build_bitvec_mx_foot|].
  intros rows. apply mfoot_bind; [apply mfoot_mfold; intros; apply fixed_num_step_fixed|].
  intros best. apply mfoot_bind.
  { apply mfoot_lift. eapply rfoot_weaken; [|apply select_fids_index].
    apply index_exn_fixed. }
  intros fids. foot.
Qed.

(** A turn of the first scan looks up only keys the dictionary has. *)
Lemma scan_step_safe arrs keys lwo w0 st i s r s' :
  scan_step py3 gs o arrs keys lwo w0 st i s = (r, s') ->
  keys ⊆ dom (scoreD s) ->
  dom (scoreD s) ⊆ dom (scoreD s')
  /\ match r with
     | Raise e => e = IndexError
     | Ok st1 => (st1 = st \/ bFoundBetterNeighbor st1 = true)
                 /\ forall n, get_neighbor w0 i = Ok n -> n ∈ dom (scoreD s')
     end.
Proof.
  unfold scan_step, neighbor_score. intros Hrun Hsub.
  destruct (get_neighbor w0 i) as [n|e] eqn:Hn.
  2:{ injection Hrun as <- <-. split; [reflexivity|]. exact (get_neighbor_index _ _ _ Hn). }
  rewrite (mbind_run (lift (Ok n)) _ s n s eq_refl) in Hrun.
  unfold mbind at 1 in Hrun. unfold mbind at 1 in Hrun. cbn [get_scoreD] in Hrun.
  match type of Hrun with context [if ?c then lookup_score n else _] =>
    destruct c eqn:Hknown end.
  - assert (Hin : n ∈ dom (scoreD s)).
    { destruct py3; apply bool_decide_eq_true in Hknown; set_solver. }
    rewrite lookup_score_run in Hrun.
    destruct (scoreD s !! n) as [v|] eqn:Hv.
    2:{ apply not_elem_of_dom in Hv. contradiction. }
    cbv beta iota in Hrun. destruct (_ && _) in Hrun.
    + rewrite (mbind_run _ _ _ _ _ (emit_run _ _)) in Hrun. injection Hrun as <- <-.
      split; [reflexivity|]. split; [right; reflexivity|]. intros n' [= <-]. exact Hin.
    + injection Hrun as <- <-. split; [reflexivity|]. split; [left; reflexivity|].
      intros n' [= <-]. exact Hin.
  - rewrite compute_score_run in Hrun.
    destruct (score_of gs o arrs n) as [v|e] eqn:Hv.
    + cbv beta iota in Hrun.
      assert (Hd : dom (scoreD s) ⊆ dom (<[n := v]> (scoreD s))
                   /\ n ∈ dom (<[n := v]> (scoreD s)))
        by (rewrite dom_insert; set_solver).
      destruct (_ && _) in Hrun.
      * rewrite (mbind_run _ _ _ _ _ (emit_run _ _)) in Hrun. injection Hrun as <- <-.
        split; [apply Hd|]. split; [right; reflexivity|]. intros n' [= <-]. apply Hd.
      * injection Hrun as <- <-. split; [apply Hd|]. split; [left; reflexivity|].
        intros n' [= <-]. apply Hd.
    + injection Hrun as <- <-. split; [reflexivity|]. exact (score_of_index _ _ _ Hv).
Qed.

Lemma scan_fold_safe arrs keys lwo w0 idx : forall st s r s',
  mfold (scan_step py3 gs o arrs keys lwo w0) idx st s = (r, s') ->
  keys ⊆ dom (scoreD s) ->
  dom (scoreD s) ⊆ dom (scoreD s')
  /\ match r with
     | Raise e => e = IndexError
     | Ok st' => (st' = st \/ bFoundBetterNeighbor st' = true)
                 /\ forall i n, In i idx -> get_neighbor w0 i = Ok n ->
                      n ∈ dom (scoreD s')
     end.
Proof.
  induction idx as [|i idx IH]; intros st s r s' Hrun Hsub; simpl in Hrun.
  - injection Hrun as <- <-. split; [reflexivity|]. split; [left; reflexivity|].
    intros i n [].
  - unfold mbind in Hrun.
    destruct (scan_step py3 gs o arrs keys lwo w0 st i s) as [[st1|e] s1] eqn:Hstep.
    + destruct (scan_step_safe _ _ _ _ _ _ _ _ _ Hstep Hsub) as [D1 [F1 N1]].
      destruct (IH _ _ _ _ Hrun (transitivity Hsub D1)) as [D2 N2].
      split; [exact (transitivity D1 D2)|]. destruct r as [st'|e]; [|exact N2].
      destruct N2 as [F2 N2]. split.
      * destruct F2 as [E2|F2]; [subst st'|right; exact F2].
        destruct F1 as [E1|F1]; [left; exact E1|right; exact F1].
      * intros j n [<-|Hj] Hn; [apply D2, N1, Hn|eapply N2; eauto].
    + injection Hrun as <- <-.
      destruct (scan_step_safe _ _ _ _ _ _ _ _ _ Hstep Hsub) as [D1 N1]. auto.
Qed.

(** The relaxed re-scan finds every key it reads. *)
Lemma rescan_fold_safe w0 idx : forall st s r s',
  mfold (rescan_step w0) idx st s = (r, s') ->
  (forall i n, In i idx -> get_neighbor w0 i = Ok n -> n ∈ dom (scoreD s)) ->
  scoreD s' = scoreD s
  /\ match r with Raise e => e = IndexError | Ok _ => True end.
Proof.
  induction idx as [|i idx IH]; intros st s r s' Hrun Hall; simpl in Hrun.
  - injection Hrun as <- <-. auto.
  - unfold mbind in Hrun. rewrite rescan_step_run in Hrun.
    destruct (get_neighbor w0 i) as [n|e] eqn:Hn.
    2:{ injection Hrun as <- <-. split; [reflexivity|]. exact (get_neighbor_index _ _ _ Hn). }
    assert (Hrest : forall st1 s1, scoreD s1 = scoreD s ->
              mfold (rescan_step w0) idx st1 s1 = (r, s') ->
              scoreD s' = scoreD s
              /\ match r with Raise e => e = IndexError | Ok _ => True end).
    { intros st1 s1 E1 Hr. destruct (IH _ _ _ _ Hr) as [E2 R2].
      - intros j m Hj Hm. rewrite E1. apply (Hall j m); [right; exact Hj|exact Hm].
      - split; [congruence|exact R2]. }
    destruct (popcount n <? L1 st)%nat; [|apply (Hrest st s eq_refl Hrun)].
    destruct (scoreD s !! n) as [v|] eqn:Hv.
    2:{ exfalso. apply not_elem_of_dom in Hv. apply Hv, (Hall i n); [left; reflexivity|exact Hn]. }
    destruct (v <? score st)%float; [|apply (Hrest st s eq_refl Hrun)].
    eapply Hrest; [|exact Hrun]. reflexivity.
Qed.

Lemma relax_safe sc :
  xor [truthy (fixedSlack o); truthy (slackFrac o)] = true ->
  rfoot (fun e => e = AssertionError) (relax o sc).
Proof.
  intros Hx e. unfold relax, slack_of, truthy in *.
  destruct (fixedSlack o) as [f|]; [destruct (float_truthy f)|].
  - simpl. destruct (_ <? _)%float; [discriminate|congruence].
  - destruct (slackFrac o) as [g|]; [|discriminate Hx].
    destruct (float_truthy g); [|discriminate Hx].
    simpl. destruct (_ <? _)%float; [discriminate|congruence].
  - destruct (slackFrac o) as [g|]; [|discriminate Hx].
    destruct (float_truthy g); [|discriminate Hx].
    simpl. destruct (_ <? _)%float; [discriminate|congruence].
Qed.

Lemma iteration_safe arrs lwo st s e s' :
  xor [truthy (fixedSlack o); truthy (slackFrac o)] = true ->
  iteration py3 gs fidList o arrs lwo st s = (Raise e, s') -> local_exn e.
Proof.
  intros Hx. unfold iteration.
  rewrite (mbind_run get_scoreD _ s (scoreD s) s eq_refl). cbv zeta.
  unfold mbind at 1.
  destruct (mfold (scan_step py3 gs o arrs (dom (scoreD s)) lwo (weights st)) _ _ s)
    as [[st1|e1] s1] eqn:Hscan.
  2:{ intros [= <- <-]. left.
      apply (scan_fold_safe _ _ _ _ _ _ _ _ _ Hscan (reflexivity _)). }
  destruct (scan_fold_safe _ _ _ _ _ _ _ _ _ Hscan (reflexivity _)) as [_ [Hst Hall]].
  destruct (bFoundBetterNeighbor st1) eqn:Hb.
  { rewrite (mbind_run _ _ _ _ _ (emit_run _ _)). discriminate. }
  destruct Hst as [->|Hst]; [|congruence]. cbn [weights score L1] in *.
  unfold mbind at 1. unfold lift at 1.
  destruct (relax o (score st)) as [relaxed|e2] eqn:Hrel.
  2:{ intros [= <- <-]. right. apply (relax_safe _ Hx _ Hrel). }
  rewrite (mbind_run _ _ _ _ _ (emit_run _ _)).
  unfold mbind at 1. cbn [weights].
  match goal with |- context [mfold (rescan_step ?w) ?idx ?st2 ?s2] =>
    destruct (mfold (rescan_step w) idx st2 s2) as [[st3|e3] s3] eqn:Hre end.
  2:{ intros [= <- <-]. left. apply (rescan_fold_safe _ _ _ _ _ _ Hre). exact Hall. }
  destruct (bFoundBetterNeighbor st3); rewrite (mbind_run _ _ _ _ _ (emit_run _ _));
    discriminate.
Qed.

Lemma main_loop_safe arrs n : forall lwo st s e s',
  xor [truthy (fixedSlack o); truthy (slackFrac o)] = true ->
  main_loop py3 gs fidList o arrs n lwo st s = (Raise e, s') -> local_exn e.
Proof.
  induction n as [|n IH]; intros lwo st s e s' Hx; simpl.
  - rewrite (mbind_run _ _ _ _ _ (emit_run _ _)). discriminate.
  - unfold mbind.
    destruct (iteration py3 gs fidList o arrs lwo st s) as [[[[lwo1 st1] broke]|e1] s1] eqn:Hit.
    + destruct broke; [discriminate|apply IH, Hx].
    + intros [= <- <-]. exact (iteration_safe _ _ _ _ _ _ Hx Hit).
Qed.

Lemma local_search_safe arrs s e s' :
  xor [truthy (fixedSlack o); truthy (slackFrac o)] = true ->
  local_search py3 gs fidList o arrs s = (Raise e, s') -> local_exn e.
Proof.
  intros Hx. unfold local_search.
  destruct (initialWeights o) as [iw|]; unfold mbind.
  all: destruct (compute_score gs o _ _ true _) as [[sc|e1] s1] eqn:Hcs.
  all: try (intros [= <- <-]; left;
            destruct (compute_score_index _ _ _ _ _ _ Hcs) as [_ HQ]; exact (HQ _ eq_refl)).
  all: apply main_loop_safe, Hx.
Qed.

Let run := optimize_integer_fiducials_slack py3 reclimit gs fidList o.

(** All the exceptions of the optimizer: the ValueError of the slack
    options and the ValueError of an invalid [prepOrMeas], both before
    anything is printed; from a local search an IndexError (weights that do
    not fit the candidate list) or the AssertionError of a slack that is not
    positive; from a fixed-size search the errors of the enumeration
    (RecursionError, a negative dimension) or an IndexError.  In particular
    no key is ever missing from the score dictionary and [slack] is never
    unbound. *)
Theorem optimizer_exceptions s e :
  fst (run s) = Raise e ->
  (e = slack_error /\ snd (run s) = s)
  \/ (e = invalid_mode /\ snd (run s) = s)
  \/ (fixedNum o = None /\ (e = IndexError \/ e = AssertionError))
  \/ (fixedNum o <> None
      /\ (e = IndexError \/ e = RecursionError
          \/ e = ValueError "negative dimensions are not allowed")).
Proof.
  unfold run. rewrite optimizer_cases.
  destruct (xor _) eqn:Hx; [|intros [= <-]; left; auto].
  destruct (test_fiducial_list _ _ _ _ _) as [t|e0] eqn:Ht.
  2:{ intros [= <-]. right. left. split; [|reflexivity].
      exact (test_fiducial_list_foot gs fidList _ _ _ _ Ht). }
  destruct (fst (fst t)); [|discriminate].
  destruct (test_ok_fid_arrays gs fidList _ _ _ _ must_specify Ht) as [arrs ->].
  destruct (fixedNum o) as [n|].
  - destruct (fixed_num_search _ _ _ _ _ _ _) as [r s'] eqn:E. cbn [fst]. intros ->.
    destruct (fixed_num_search_fixed arrs n _ _ _ E) as [_ HQ].
    right. right. right. split; [discriminate|].
    specialize (HQ _ eq_refl). destruct e; try contradiction; auto.
    simpl in HQ. subst. auto.
  - intros Hrun. right. right. left. split; [reflexivity|]. revert Hrun.
    destruct (local_search _ _ _ _ _ _) as [[[st oc]|e1] sL] eqn:Hls.
    + destruct (select_fids fidList (weights st)) as [fids|e2] eqn:Hs; [discriminate|].
      intros [= <-]. left. exact (select_fids_index _ _ Hs).
    + intros [= <-]. exact (local_search_safe _ _ _ _ Hx Hls).
Qed.

End Exceptions.
(** * The iterations of the local search *)

Section Iterations.
Context `{LinAlg}.
Variable py3 : bool.
Variable reclimit : nat.
Variable gs : GateSet.
Variable fidList : list gatestring.
Variable o : options.

Lemma count_log_app m l1 l2 :
  count_log m (l1 ++ l2) = (count_log m l1 + count_log m l2)%nat.
Proof. unfold count_log. rewrite List.filter_app, length_app. reflexivity. Qed.

Lemma count_log_scan m evs : Forall scan_event evs -> count_log m evs = 0%nat.
Proof.
  unfold count_log. induction 1 as [|e evs He _ IH]; [reflexivity|].
  destruct e; try contradiction; exact IH.
Qed.

Lemma scan_fold_events arrs keys lwo w0 idx st s r s' :
  mfold (scan_step py3 gs o arrs keys lwo w0) idx st s = (r, s') ->
  exists evs, events s' = events s ++ evs /\ Forall scan_event evs.
Proof.
  intros Hrun. eapply foot_events; [|exact Hrun].
  apply mfoot_mfold. intros. apply scan_step_foot.
Qed.

Lemma rescan_fold_events w0 idx st s r s' :
  mfold (rescan_step w0) idx st s = (r, s') ->
  exists evs, events s' = events s ++ evs /\ Forall scan_event evs.
Proof.
  intros Hrun. eapply foot_events; [|exact Hrun].
  apply mfoot_mfold. intros. apply rescan_step_foot.
Qed.

(** One iteration logs one of "Moving to better neighbor" and "Stationary
    point found!", the second exactly when it leaves the loop. *)
Lemma iteration_tally arrs lwo st s lwo' st' broke s' :
  iteration py3 gs fidList o arrs lwo st s = (Ok (lwo', st', broke), s') ->
  exists evs, events s' = events s ++ evs
    /\ count_log hit_max evs = 0%nat
    /\ count_log moving evs = (if broke then 0 else 1)%nat
    /\ count_log stationary evs = (if broke then 1 else 0)%nat.
Proof.
  unfold iteration. intros Hrun.
  apply mbind_ok_inv in Hrun as (d & s0 & [= <- <-] & Hrun). cbv zeta in Hrun.
  apply mbind_ok_inv in Hrun as (st1 & s1 & Hscan & Hrun).
  destruct (scan_fold_events _ _ _ _ _ _ _ _ _ Hscan) as (ev1 & E1 & F1).
  destruct (bFoundBetterNeighbor st1).
  { rewrite (mbind_run _ _ _ _ _ (emit_run _ _)) in Hrun. injection Hrun as <- <- <- <-.
    exists (ev1 ++ [Logged "Moving to better neighbor"]). cbn [events]. rewrite E1, app_assoc.
    split; [reflexivity|]. rewrite !count_log_app, !(count_log_scan _ _ F1). auto. }
  apply mbind_ok_inv in Hrun as (relaxed & s2 & Hrel & Hrun).
  apply lift_ok_inv in Hrel as [Hrel ->].
  rewrite (mbind_run _ _ _ _ _ (emit_run _ _)) in Hrun.
  apply mbind_ok_inv in Hrun as (st3 & s3 & Hre & Hrun).
  destruct (rescan_fold_events _ _ _ _ _ _ Hre) as (ev3 & E3 & F3). cbn [events] in E3.
  destruct (bFoundBetterNeighbor st3);
    rewrite (mbind_run _ _ _ _ _ (emit_run _ _)) in Hrun; injection Hrun as <- <- <- <-.
  all: eexists ((ev1 ++ [Relaxing _ _]) ++ ev3 ++ [Logged _]); cbn [events].
  all: rewrite E3, E1, <- !app_assoc; split; [reflexivity|].
  all: rewrite !count_log_app, !(count_log_scan _ _ F1), !(count_log_scan _ _ F3); auto.
Qed.

Lemma main_loop_tally arrs n : forall lwo st s st' oc s',
  main_loop py3 gs fidList o arrs n lwo st s = (Ok (st', oc), s') ->
  exists evs, events s' = events s ++ evs /\ loop_tally n oc evs.
Proof.
  induction n as [|n IH]; intros lwo st s st' oc s' Hrun; simpl in Hrun.
  - rewrite (mbind_run _ _ _ _ _ (emit_run _ _)) in Hrun. injection Hrun as <- <- <-.
    exists [Logged "Hit max. iterations"]. split; [reflexivity|]. repeat split.
  - apply mbind_ok_inv in Hrun as ([[lwo1 st1] broke] & s1 & Hit & Hrun).
    destruct (iteration_tally _ _ _ _ _ _ _ _ Hit) as (ev1 & E1 & Ch & Cm & Cs).
    destruct broke.
    + injection Hrun as <- <- <-. exists ev1. split; [exact E1|].
      simpl. rewrite Ch, Cm, Cs. repeat split. lia.
    + destruct (IH _ _ _ _ _ _ Hrun) as (ev2 & E2 & T2).
      exists (ev1 ++ ev2). rewrite E2, E1, app_assoc. split; [reflexivity|].
      destruct oc; simpl in *; rewrite !count_log_app, Ch, Cm, Cs; lia.
Qed.

Lemma local_search_tally arrs s st oc sL :
  local_search py3 gs fidList o arrs s = (Ok (st, oc), sL) ->
  exists evs, events sL = events s ++ evs /\ loop_tally (maxIter o) oc evs.
Proof.
  unfold local_search. intros Hrun.
  assert (Hstart : exists w lwo sc s1,
            compute_score gs o arrs w true s = (Ok sc, s1)
            /\ main_loop py3 gs fidList o arrs (maxIter o) lwo
                 {| weights := w; score := sc; L1 := popcount w;
                    bFoundBetterNeighbor := false |} s1 = (Ok (st, oc), sL)).
  { destruct (initialWeights o) as [iw|];
      apply mbind_ok_inv in Hrun as (sc & s1 & Hcs & Hrun); eauto 8. }
  destruct Hstart as (w & lwo & sc & s1 & Hcs & Hloop).
  destruct (foot_events _ _ _ _ _ _ (compute_score_foot gs o arrs w true) Hcs)
    as (ev0 & E0 & F0).
  destruct (main_loop_tally _ _ _ _ _ _ _ _ Hloop) as (ev1 & E1 & T1).
  exists (ev0 ++ ev1). rewrite E1, E0, app_assoc. split; [reflexivity|].
  destruct oc; simpl in *; rewrite !count_log_app, !(count_log_scan _ _ F0); exact T1.
Qed.

Let run := optimize_integer_fiducials_slack py3 reclimit gs fidList o.

(** A local search that returns a selection has logged "Moving to better
    neighbor" at most [maxIter] times: either exactly [maxIter] times,
    followed by one "Hit max. iterations" and no "Stationary point found!",
    or fewer times, with one "Stationary point found!" and no "Hit max.
    iterations". *)
Theorem local_search_iterations_bounded s spectrum score r :
  test_fiducial_list gs fidList (prepOrMeas o) (scoreFunc o) (threshold o)
  = Ok (true, spectrum, score) ->
  fixedNum o = None ->
  fst (run s) = Ok r ->
  exists evs, events (snd (run s)) = events s ++ evs
    /\ ((count_log moving evs = maxIter o /\ count_log hit_max evs = 1%nat
         /\ count_log stationary evs = 0%nat)
        \/ ((count_log moving evs < maxIter o)%nat /\ count_log hit_max evs = 0%nat
            /\ count_log stationary evs = 1%nat)).
Proof.
  unfold run. rewrite optimizer_cases. intros Ht Hn.
  destruct (xor _); [|discriminate]. rewrite Ht. cbn [fst].
  destruct (test_ok_fid_arrays gs fidList _ _ _ _ must_specify Ht) as [arrs ->].
  rewrite Hn.
  destruct (local_search _ _ _ _ _ _) as [[[st oc]|e1] sL] eqn:Hls; [|discriminate].
  destruct (local_search_tally _ _ _ _ _ Hls) as (evs & E & T).
  cbn [search_start events] in E.
  destruct (select_fids fidList (weights st)) as [fids|e2]; [|discriminate].
  intros _. cbn [snd events].
  exists (entry_events fidList ++ evs ++ report_events st).
  rewrite E, <- !app_assoc. split; [reflexivity|].
  rewrite !count_log_app.
  change (count_log moving (entry_events fidList)) with 0%nat.
  change (count_log hit_max (entry_events fidList)) with 0%nat.
  change (count_log stationary (entry_events fidList)) with 0%nat.
  change (count_log moving (report_events st)) with 0%nat.
  change (count_log hit_max (report_events st)) with 0%nat.
  change (count_log stationary (report_events st)) with 0%nat.
  destruct oc; simpl in T; [right|left]; lia.
Qed.

End Iterations.
(** * Further concrete runs *)

Section MoreConcreteInstances.
Local Existing Instance diag_linalg.
Local Open Scope float_scope.

Lemma optimizer_exceptions_witness :
  let o := set_slackFrac (Some (-1)%float) prep_options in
  fst (optimize_integer_fiducials_slack true 1000 gs_unit fids_pair o fresh)
  = Raise AssertionError
  /\ ((AssertionError = slack_error
       /\ snd (optimize_integer_fiducials_slack true 1000 gs_unit fids_pair o fresh) = fresh)
      \/ (AssertionError = invalid_mode
          /\ snd (optimize_integer_fiducials_slack true 1000 gs_unit fids_pair o fresh) = fresh)
      \/ (fixedNum o = None /\ (AssertionError = IndexError \/ AssertionError = AssertionError))
      \/ (fixedNum o <> None
          /\ (AssertionError = IndexError \/ AssertionError = RecursionError
              \/ AssertionError = ValueError "negative dimensions are not allowed"))).
Proof.
  intros o.
  assert (H1 : fst (optimize_integer_fiducials_slack true 1000 gs_unit fids_pair o fresh)
               = Raise AssertionError) by (vm_compute; reflexivity).
  split; [exact H1|].
  exact (optimizer_exceptions true 1000 gs_unit fids_pair o fresh AssertionError H1).
Defined.

Lemma local_search_iterations_bounded_witness :
  let o := set_slackFrac (Some 1) prep_options in
  let run := optimize_integer_fiducials_slack true 1000 gs_unit fids_pair o fresh in
  (test_fiducial_list gs_unit fids_pair (prepOrMeas o) (scoreFunc o) (threshold o)
   = Ok (true, [1.25], 1.6000000000000001)
   /\ fixedNum o = None
   /\ fst run = Ok (RFids [[]]))
  /\ exists evs, events (snd run) = events fresh ++ evs
       /\ ((count_log moving evs = maxIter o /\ count_log hit_max evs = 1%nat
            /\ count_log stationary evs = 0%nat)
           \/ ((count_log moving evs < maxIter o)%nat /\ count_log hit_max evs = 0%nat
               /\ count_log stationary evs = 1%nat)).
Proof.
  intros o run.
  assert (H1 : test_fiducial_list gs_unit fids_pair (prepOrMeas o) (scoreFunc o) (threshold o)
               = Ok (true, [1.25], 1.6000000000000001)) by (vm_compute; reflexivity).
  assert (H2 : fst run = Ok (RFids [[]])) by (vm_compute; reflexivity).
  split; [repeat split; assumption|].
  exact (local_search_iterations_bounded true 1000 gs_unit fids_pair o fresh _ _ _
           H1 eq_refl H2).
Defined.

End MoreConcreteInstances.
(** * Removing one fiducial (C8) *)

Section ClearedBit.
Context `{LinAlg}.
Variable gs : GateSet.
Variable fidList : list gatestring.
Variable o : options.

Local Open Scope float_scope.

(** Clearing the one at position [i] removes one entry from [where(w)]: the
    one whose rank is the number of ones before [i]. *)
Lemma where_from_clear_delete w : forall off i,
  w !! i = Some true ->
  where_from off (<[i := false]> w) = delete (popcount (take i w)) (where_from off w).
Proof.
  induction w as [|b w IH]; intros off i Hi; [discriminate|].
  destruct i as [|i].
  - injection Hi as ->. reflexivity.
  - simpl in Hi. change (<[S i:=false]> (b :: w)) with (b :: <[i:=false]> w).
    change (take (S i) (b :: w)) with (b :: take i w).
    rewrite popcount_cons. simpl. rewrite (IH (S off) i Hi).
    destruct b; reflexivity.
Qed.

Lemma rmap_delete {A B} (f : A -> res B) r : forall l xs,
  rmap f l = Ok xs -> rmap f (delete r l) = Ok (delete r xs).
Proof.
  induction r as [|r IH]; intros [|a l] xs Hl; simpl in *.
  - injection Hl as <-. reflexivity.
  - destruct (f a) as [y|e]; [|discriminate]. simpl in Hl.
    destruct (rmap f l) as [ys|e]; [|discriminate]. injection Hl as <-. reflexivity.
  - injection Hl as <-. reflexivity.
  - destruct (f a) as [y|e]; [|discriminate]. simpl in Hl.
    destruct (rmap f l) as [ys|e] eqn:El; [|discriminate]. injection Hl as <-.
    simpl. rewrite (IH l ys El). reflexivity.
Qed.

Lemma rmap_transport {A B} (f f' : A -> res B) (h : B -> B) : forall l xs,
  (forall a y, f a = Ok y -> f' a = Ok (h y)) ->
  rmap f l = Ok xs -> rmap f' l = Ok (map h xs).
Proof.
  induction l as [|a l IH]; intros xs Hf Hl; simpl in *.
  - injection Hl as <-. reflexivity.
  - destruct (f a) as [y|e] eqn:Ea; [|discriminate]. simpl in Hl.
    destruct (rmap f l) as [ys|e] eqn:El; [|discriminate]. injection Hl as <-.
    rewrite (Hf a y Ea). simpl. rewrite (IH ys Hf eq_refl). reflexivity.
Qed.

(** Selecting all but one position is selecting, then dropping a column. *)
Lemma select_columns_delete r locs m m' :
  select_columns locs m = Ok m' ->
  select_columns (delete r locs) m = Ok (map (delete r) m').
Proof.
  unfold select_columns. apply rmap_transport. intros row y. apply rmap_delete.
Qed.

Lemma forced_out_first w :
  forced_out o w = forceEmpty o && negb (bool_decide (w !! 0%nat = Some true)).
Proof.
  unfold forced_out. f_equal. destruct w as [|[] w]; reflexivity.
Qed.

Lemma forced_out_cleared w i :
  w !! i = Some true ->
  forced_out o (<[i := false]> w)
  = forceEmpty o && (bool_decide (i = 0%nat) || negb (bool_decide (w !! 0%nat = Some true))).
Proof.
  intros Hi. rewrite forced_out_first. f_equal.
  destruct w as [|b w]; [discriminate|]. destruct i as [|i].
  - reflexivity.
  - change (<[S i:=false]> (b :: w)) with (b :: <[i:=false]> w). reflexivity.
Qed.

(** C8, as amended: under the [all] aggregation, clearing a set bit [i] of a
    vector [w] that can be scored leaves a vector [w'] with one fiducial
    less whose score matrix is that of [w] without the columns of fiducial
    [i] (in every block, the column whose rank is the number of ones of [w]
    before [i]).  Both scores are the forced score when force-empty is on
    and the first entry is not 1 (for [w'], when [i = 0] or the first entry
    of [w] is not 1), and otherwise the number of selected fiducials times
    the sum of the reciprocal eigenvalues of the product of the score matrix
    with its transpose, with 1e10 in place of a non-positive or infinite
    product.  The factor shrinks with the set, so the score of [w'] is not
    bounded below by the score of [w]. *)
Theorem cleared_bit_score arrs w i blocks :
  scoreFunc o = score_all ->
  w !! i = Some true ->
  rmap (select_columns (where_ w)) arrs = Ok blocks ->
  let w' := <[i := false]> w in
  let blocks' := map (map (delete (popcount (take i w)))) blocks in
  let first_is_one := bool_decide (w !! 0%nat = Some true) in
  let sum_of_reciprocals (eigs : list float) :=
    fold_left (fun acc x => acc + 1 / x) eigs 0 in
  let times_transpose (m : matrix) := map (fun u => map (fun v => dotv u v) m) m in
  let score_at (k : nat) (bs : list matrix) :=
    let p := float_of_nat k
             * sum_of_reciprocals
                 (eigvalsh (times_transpose (hconcat (get_dimension gs) bs))) in
    if (p <=? 0) || isinf p then 1e10 else p in
  S (popcount w') = popcount w
  /\ rmap (select_columns (where_ w')) arrs = Ok blocks'
  /\ score_of gs o arrs w
     = Ok (if forceEmpty o && negb first_is_one then forceEmptyScore o
           else score_at (popcount w) blocks)
  /\ score_of gs o arrs w'
     = Ok (if forceEmpty o && (bool_decide (i = 0%nat) || negb first_is_one)
           then forceEmptyScore o
           else score_at (popcount w - 1)%nat blocks').
Proof.
  intros Hall Hi Hb w' blocks' first_is_one sum_of_reciprocals times_transpose score_at.
  pose proof (popcount_clear w i Hi) as Hpop. fold w' in Hpop.
  assert (Hb' : rmap (select_columns (where_ w')) arrs = Ok blocks').
  { unfold where_, w'. rewrite where_from_clear_delete by exact Hi.
    revert Hb. apply rmap_transport. intros m m'. apply select_columns_delete. }
  split; [exact Hpop|]. split; [exact Hb'|]. split.
  - unfold score_of. rewrite forced_out_first. fold first_is_one.
    destruct (forceEmpty o && negb first_is_one); [reflexivity|].
    unfold raw_score. rewrite Hb, Hall. reflexivity.
  - unfold score_of. unfold w' at 1. rewrite (forced_out_cleared w i Hi). fold first_is_one.
    destruct (forceEmpty o && _); [reflexivity|].
    unfold raw_score. rewrite Hb', Hall.
    replace (popcount w') with (popcount w - 1)%nat by lia. reflexivity.
Qed.

End ClearedBit.

Section ClearedBitWitness.
Local Existing Instance diag_linalg.
Local Open Scope float_scope.

Lemma cleared_bit_score_witness :
  let o := set_slackFrac (Some 1) prep_options in
  let arrs := make_prep_mxs gs_unit fids_pair in
  (scoreFunc o = score_all /\ [true; true] !! 1%nat = Some true
   /\ rmap (select_columns (where_ [true; true])) arrs = Ok [[[1; 0.5]]])
  /\ S (popcount [true; false]) = popcount [true; true]
  /\ rmap (select_columns (where_ [true; false])) arrs = Ok [[[1]]]
  /\ score_of gs_unit o arrs [true; true] = Ok 1.6000000000000001
  /\ score_of gs_unit o arrs [true; false] = Ok 1.
Proof.
  intros o arrs.
  assert (Hb : rmap (select_columns (where_ [true; true])) arrs = Ok [[[1; 0.5]]])
    by (vm_compute; reflexivity).
  split; [repeat split; exact Hb|].
  pose proof (cleared_bit_score gs_unit o arrs [true; true] 1 _ eq_refl eq_refl Hb)
    as (Hpop & Hsel & Hw & Hw').
  split; [exact Hpop|]. split; [exact Hsel|].
  split; [refine (eq_trans Hw _)|refine (eq_trans Hw' _)]; vm_compute; reflexivity.
Defined.
End ClearedBitWitness.

(** * The fixed-size search (C9) *)

Section FixedPass.
Context `{LinAlg}.
Variable reclimit : nat.
Variable gs : GateSet.
Variable fidList : list gatestring.
Variable o : options.
Variable arrs : list matrix.
Variable f : list bool -> float.
Variable g : list bool -> list gatestring.
Variable cands : list (list bool).

Hypothesis cands_scored : forall c, In c cands ->
  score_of gs o arrs c = Ok (f c) /\ select_fids fidList c = Ok (g c).
Hypothesis cands_not_forced : forall c, In c cands -> forced_out o c = false.

Local Open Scope float_scope.

(** One turn of the pass on a candidate that can be scored. *)
Lemma fixed_num_step_result bs bw c fb s :
  In c cands -> select_fids fidList bw = Ok fb ->
  exists s',
    fixed_num_step gs fidList o arrs (bs, bw) c s
    = (Ok (if tied (f c) bs
           then if (total_length (g c) <? total_length fb)%nat then (f c, c) else (bs, bw)
           else if f c <? bs then (f c, c) else (bs, bw)), s')
    /\ scoreD s' = <[c := f c]> (scoreD s).
Proof.
  intros Hc Hfb. destruct (cands_scored c Hc) as [Hsc Hfc]. unfold fixed_num_step.
  pose proof (compute_score_run gs o arrs c s) as Hrun. rewrite Hsc in Hrun.
  rewrite (mbind_run _ _ _ _ _ Hrun). fold (tied (f c) bs).
  destruct (tied (f c) bs).
  - rewrite Hfb, Hfc.
    rewrite (mbind_run (lift (Ok fb)) _ _ fb _ eq_refl).
    rewrite (mbind_run (lift (Ok (g c))) _ _ (g c) _ eq_refl).
    destruct (total_length (g c) <? total_length fb)%nat.
    + rewrite (mbind_run _ _ _ _ _ (emit_run _ _)). eexists. split; reflexivity.
    + eexists. split; reflexivity.
  - destruct (f c <? bs); eexists; split; reflexivity.
Qed.

Lemma pass_fold_all rest : forall P bs bw s,
  cands = P ++ rest ->
  pass_holds f P bs bw ->
  (separated_ties (map f cands) -> pass_invariant f g P bs bw) ->
  (forall c, In c P -> scoreD s !! c = Some (f c)) ->
  exists bs' bw' s',
    mfold (fixed_num_step gs fidList o arrs) rest (bs, bw) s = (Ok (bs', bw'), s')
    /\ pass_holds f cands bs' bw'
    /\ (separated_ties (map f cands) -> pass_invariant f g cands bs' bw')
    /\ forall c, In c cands -> scoreD s' !! c = Some (f c).
Proof.
  induction rest as [|c rest IH]; intros P bs bw s Hcands Hh Hinv Hd.
  - rewrite app_nil_r in Hcands. subst P. exists bs, bw, s. auto.
  - assert (HP : forall x, In x P -> In x cands)
      by (intros x Hx; rewrite Hcands; apply in_or_app; left; exact Hx).
    assert (Hcin : In c cands)
      by (rewrite Hcands; apply in_or_app; right; left; reflexivity).
    assert (Hfb : exists fb, select_fids fidList bw = Ok fb).
    { destruct Hh as [(_ & -> & _)|(Hbw & _)]; [exists []; reflexivity|].
      exists (g bw). apply (cands_scored bw (HP bw Hbw)). }
    destruct Hfb as (fb & Hfb).
    destruct (fixed_num_step_result bs bw c fb s Hcin Hfb) as (s1 & Hstep & Hd1).
    set (next := if tied (f c) bs
                 then if (total_length (g c) <? total_length fb)%nat
                      then (f c, c) else (bs, bw)
                 else if f c <? bs then (f c, c) else (bs, bw)) in *.
    assert (Hh1 : pass_holds f (P ++ [c]) (fst next) (snd next)).
    { assert (Hnew : pass_holds f (P ++ [c]) (f c) c).
      { right. split; [apply in_or_app; right; left; reflexivity|reflexivity]. }
      destruct Hh as [(-> & -> & Hnan)|(Hbw & ->)].
      - subst next. rewrite tied_infinity_r.
        destruct (f c <? infinity) eqn:Hlt; [exact Hnew|].
        left. split; [reflexivity|]. split; [reflexivity|].
        intros x Hx. apply in_app_or in Hx as [Hx|[<-|[]]]; [apply Hnan, Hx|].
        apply ltb_infinity_false; [exact Hlt|].
        apply (score_of_not_infinite gs o arrs c); [apply cands_scored, Hcin|].
        apply cands_not_forced, Hcin.
      - assert (Hkeep : pass_holds f (P ++ [c]) (f bw) bw).
        { right. split; [apply in_or_app; left; exact Hbw|reflexivity]. }
        subst next. destruct (tied _ _); [destruct (_ <? _)%nat|destruct (_ <? _)];
          assumption. }
    assert (Hinv1 : separated_ties (map f cands) ->
                    pass_invariant f g (P ++ [c]) (fst next) (snd next)).
    { intros Hsep.
      destruct (pass_step gs fidList o arrs f g cands cands_scored Hsep
                  P bs bw c HP Hcin (Hinv Hsep)) as (fb' & Hfb' & Hnext).
      rewrite Hfb in Hfb'. injection Hfb' as <-. fold next in Hnext.
      destruct next. exact Hnext. }
    assert (Hd1' : forall x, In x (P ++ [c]) -> scoreD s1 !! x = Some (f x)).
    { intros x Hx. rewrite Hd1. destruct (decide (x = c)) as [->|Hne].
      - apply lookup_insert_eq.
      - rewrite lookup_insert_ne by congruence.
        apply in_app_or in Hx as [Hx|[<-|[]]]; [apply Hd, Hx|congruence]. }
    destruct next as [bs1 bw1].
    destruct (IH (P ++ [c]) bs1 bw1 s1) as (bs' & bw' & s' & Hrest & R1 & R2 & R3);
      [rewrite <- app_assoc; exact Hcands|exact Hh1|exact Hinv1|exact Hd1'|].
    exists bs', bw', s'. simpl. rewrite (mbind_run _ _ _ _ _ Hstep). auto.
Qed.

End FixedPass.

Section FixedSearchClaim.
Context `{LinAlg}.
Variable reclimit : nat.
Variable gs : GateSet.
Variable fidList : list gatestring.
Variable o : options.
Variable arrs : list matrix.

Local Open Scope float_scope.

(** C9, as amended: when [fixedNum] is set, [build_bitvec_mx] returns a
    non-empty enumeration and every enumerated vector (forced entry
    attached) can be scored and its subset selected, the search returns;
    it has then scored every enumerated vector and left its score in the
    dictionary, and what it returns is the subset of one of them or, when
    every one of them scores NaN, the empty vector and the empty list.  If
    in addition the candidates' scores fall into groups of mutually tied
    scores (differing by less than 1e-8, every score tied with itself) that
    do not overlap in score order, the returned candidate is one that no
    candidate beats: every candidate is either tied with it and no shorter
    in total sequence length, or not tied with it and of strictly larger
    score.  (Without that condition near-ties can chain and the pass can end
    away from the minimum.) *)
Theorem fixed_num_search_selects fixedNum rows f g s0 :
  build_bitvec_mx reclimit
    (if forceEmpty o then Z.of_nat (length fidList) - 1 else Z.of_nat (length fidList))
    (if forceEmpty o then fixedNum - 1 else fixedNum) = Ok rows ->
  rows <> [] ->
  (forall c, In c (candidates o rows) ->
     score_of gs o arrs c = Ok (f c) /\ select_fids fidList c = Ok (g c)) ->
  exists best fids s1,
    fixed_num_search reclimit gs fidList o arrs fixedNum s0
    = (Ok (if returnAll o then RAll fids best (scoreD s1) else RFids fids), s1)
    /\ (forall c, In c (candidates o rows) -> scoreD s1 !! c = Some (f c))
    /\ ((In best (candidates o rows) /\ fids = g best)
        \/ (best = [] /\ fids = []
            /\ forall c, In c (candidates o rows) -> f c = nan))
    /\ (separated_ties (map f (candidates o rows)) ->
        In best (candidates o rows) /\ fids = g best
        /\ forall c, In c (candidates o rows) -> not_better f g best c).
Proof.
  intros Hrows Hne Hsc. unfold fixed_num_search.
  do 3 rewrite (mbind_run _ _ _ _ _ (emit_run _ _)).
  rewrite Hrows. rewrite (mbind_run (lift (Ok rows)) _ _ rows _ eq_refl).
  fold (candidates o rows). cbn [scoreD events].
  assert (Hcne : candidates o rows <> []).
  { unfold candidates. destruct (forceEmpty o), rows; try discriminate; congruence. }
  match goal with
  | |- context [mbind (mfold _ _ _) _ ?s] =>
      destruct (pass_fold_all gs fidList o arrs f g (candidates o rows) Hsc
                  (candidates_not_forced o rows)
                  (candidates o rows) [] infinity [] s eq_refl)
        as (bs & bw & s1 & Hfold & Hh & Hinv & Hd)
  end.
  { left. split; [reflexivity|]. split; [reflexivity|]. intros c []. }
  { intros _. left. auto. }
  { intros c []. }
  rewrite (mbind_run _ _ _ _ _ Hfold). cbn [snd].
  assert (Hsel : exists fids, select_fids fidList bw = Ok fids
            /\ ((In bw (candidates o rows) /\ fids = g bw)
                \/ (bw = [] /\ fids = []
                    /\ forall c, In c (candidates o rows) -> f c = nan))).
  { destruct Hh as [(_ & -> & Hnan)|(Hbw & _)].
    - exists []. split; [reflexivity|]. right. auto.
    - exists (g bw). split; [apply (Hsc bw Hbw)|]. left. auto. }
  destruct Hsel as (fids & Hsel & Hcase).
  exists bw, fids, s1. rewrite Hsel.
  rewrite (mbind_run (lift (Ok fids)) _ s1 fids s1 eq_refl).
  split; [destruct (returnAll o); reflexivity|]. split; [exact Hd|]. split; [exact Hcase|].
  intros Hsep. destruct (Hinv Hsep) as [(Hnil & _)|(Hbw & _ & Hopt)]; [contradiction|].
  split; [exact Hbw|]. split; [|exact Hopt].
  destruct (Hsc bw Hbw) as [_ Hg]. congruence.
Qed.

End FixedSearchClaim.

Section FixedSearchWitness.
Local Existing Instance diag_linalg.
Local Open Scope float_scope.

Lemma fixed_num_search_selects_witness :
  let o := set_fixedNum (Some 1%Z) (set_forceEmpty false
             (set_slackFrac (Some 1) prep_options)) in
  let arrs := make_prep_mxs gs_tie fids_tie in
  let rows := [[true; false; false]; [false; true; false]; [false; false; true]] in
  let f := fun c => match score_of gs_tie o arrs c with Ok x => x | Raise _ => 0 end in
  let g := fun c => match select_fids fids_tie c with Ok x => x | Raise _ => [] end in
  (build_bitvec_mx 1000 3 1 = Ok rows
   /\ separated_tiesb (map f (candidates o rows)) = true
   /\ map f rows = [1; 1; 4])
  /\ exists best fids s1,
       fixed_num_search 1000 gs_tie fids_tie o arrs 1 fresh
       = (Ok (RFids fids), s1)
       /\ (forall c, In c (candidates o rows) -> scoreD s1 !! c = Some (f c))
       /\ In best (candidates o rows) /\ fids = g best
       /\ (forall c, In c (candidates o rows) -> not_better f g best c).
Proof.
  intros o arrs rows f g.
  assert (Hrows : build_bitvec_mx 1000 3 1 = Ok rows) by (vm_compute; reflexivity).
  assert (Hsep : separated_tiesb (map f (candidates o rows)) = true)
    by (vm_compute; reflexivity).
  split; [split; [exact Hrows|split; [exact Hsep|vm_compute; reflexivity]]|].
  destruct (fixed_num_search_selects 1000 gs_tie fids_tie o arrs 1%Z rows f g fresh Hrows)
    as (best & fids & s1 & Hrun & Hd & _ & Hopt).
  - discriminate.
  - intros c [<-|[<-|[<-|[]]]]; split; vm_compute; reflexivity.
  - exists best, fids, s1. split; [exact Hrun|]. split; [exact Hd|].
    apply Hopt, separated_tiesb_sound, Hsep.
Defined.

End FixedSearchWitness.
